(** * QueryDiversityEngine: a shallow embedding and its properties

    The engine of [QueryDiversityEngine] (TypeScript) collects search
    queries from several remote sources through an injected HTTP client,
    caches them per source, removes duplicates, interleaves, shuffles and
    truncates them, and falls back to a curated local list.

    The embedding follows the class member by member.  JavaScript strings
    are kept as their UTF-8 bytes; parsed JSON is a small tree of values
    with the property access, truthiness, conversion and iteration rules
    the code relies on, its arrays and objects held with their address; a
    query is any such value, since the adapters pass on what a response
    carries; the engine's effects (cache, clock, requests sent, log
    lines, random draws) are threaded through a state-and-exception monad. *)

From Stdlib Require Import ZArith QArith Qcanon String Ascii Lia.
From stdpp Require Import base option list strings gmap pretty.

Local Open Scope string_scope.
Local Open Scope Z_scope.

(** ** JavaScript strings *)

(** A string is held as its UTF-8 bytes.  [s.length] counts UTF-16 code
    units: one for each code point up to U+FFFF, two above; continuation
    bytes count for nothing. *)
Definition utf16_units (c : ascii) : Z :=
  let b := Z.of_N (N_of_ascii c) in
  if b <? 128 then 1 else if b <? 192 then 0 else if b <? 240 then 1 else 2.

Fixpoint js_length (s : string) : Z :=
  match s with
  | EmptyString => 0
  | String c r => utf16_units c + js_length r
  end.

(** [s.startsWith(p)] *)
Fixpoint startsWith (p s : string) : bool :=
  match p, s with
  | EmptyString, _ => true
  | String a p', String b s' => if Ascii.eqb a b then startsWith p' s' else false
  | String _ _, EmptyString => false
  end.

Fixpoint drop_chars (n : nat) (s : string) : string :=
  match n, s with
  | O, _ => s
  | S n', String _ r => drop_chars n' r
  | S _, EmptyString => EmptyString
  end.

(** [s.replace(pat, '')] with a string pattern: the first occurrence only. *)
Fixpoint remove_first (pat s : string) : string :=
  if startsWith pat s then drop_chars (String.length pat) s
  else match s with
       | EmptyString => EmptyString
       | String c r => String c (remove_first pat r)
       end.

Definition is_continuation (c : ascii) : bool :=
  let b := Z.of_N (N_of_ascii c) in (128 <=? b) && (b <? 192).

(** The code points of a string, each as a string of its own (what
    iterating a string yields). *)
Fixpoint code_points (s : string) : list string :=
  match s with
  | EmptyString => []
  | String c r =>
      match code_points r with
      | [] => [String c EmptyString]
      | p :: ps =>
          match p with
          | String d _ => if is_continuation d then String c p :: ps
                          else String c EmptyString :: p :: ps
          | EmptyString => String c EmptyString :: ps
          end
      end
  end.

(** [array.slice(0, n)], negative [n] counting from the end. *)
Definition slice0 {A} (n : Z) (l : list A) : list A :=
  if n <? 0 then take (Z.to_nat (Z.of_nat (length l) + n)) l
  else take (Z.to_nat n) l.

(** ** JavaScript values read out of parsed JSON *)

(** A number: a double is a rational, an infinity or NaN (the two zeros
    are not told apart: nothing here divides). *)
Inductive number :=
| NaN
| NegInf
| Fin (q : Qc)
| PosInf.

Definition of_Z (n : Z) : number := Fin (Q2Qc (inject_Z n)).

(** [a < b] on numbers: false as soon as one of them is NaN. *)
Definition number_ltb (a b : number) : bool :=
  match a, b with
  | NaN, _ | _, NaN => false
  | NegInf, NegInf => false
  | NegInf, _ => true
  | Fin _, NegInf => false
  | Fin x, Fin y => negb (Qle_bool y x)
  | Fin _, PosInf => true
  | PosInf, _ => false
  end.

Arguments of_Z : simpl never.
Arguments number_ltb : simpl never.

(** An array or object is held with its address [ref]: two of them are
    the same value exactly when they are the same object. *)
#[warnings="-register-all"]
Inductive jsval : Type :=
| JUndef                                 (* undefined: a missing property *)
| JNull
| JBool (b : bool)
| JNum (n : number)
| JStr (s : string)
| JArr (ref : nat) (elems : list jsval)
| JObj (ref : nat) (fields : list (string * jsval)).
                                         (* own properties, in enumeration order *)

Definition truthy (v : jsval) : bool :=
  match v with
  | JUndef | JNull => false
  | JBool b => b
  | JNum NaN => false
  | JNum (Fin q) => negb (Qeq_bool q 0)
  | JNum _ => true
  | JStr s => negb (String.eqb s "")
  | JArr _ _ | JObj _ _ => true
  end.

(** The literal [[]] of [x || []]: a new, empty array, which the engine
    only iterates. *)
Definition empty_array : jsval := JArr 0 [].

(** [a || b] *)
Definition js_or (a b : jsval) : jsval := if truthy a then a else b.

Fixpoint field (k : string) (fs : list (string * jsval)) : jsval :=
  match fs with
  | [] => JUndef
  | (k', v) :: r => if String.eqb k k' then v else field k r
  end.

(** [v.k] and [v[k]] for the keys the engine reads; [None] is the
    TypeError raised on [undefined] and [null]. *)
Definition prop (v : jsval) (k : string) : option jsval :=
  match v with
  | JUndef | JNull => None
  | JObj _ fs => Some (field k fs)
  | JStr s => Some (if String.eqb k "length" then JNum (of_Z (js_length s)) else JUndef)
  | JArr _ l =>
      Some (if String.eqb k "length" then JNum (of_Z (Z.of_nat (length l))) else JUndef)
  | JBool _ | JNum _ => Some JUndef
  end.

(** [v?.k] *)
Definition oprop (v : jsval) (k : string) : jsval :=
  match prop v k with
  | Some x => x
  | None => JUndef
  end.

Definition isArray (v : jsval) : bool :=
  match v with JArr _ _ => true | _ => false end.

(** [typeof v === 'object'] *)
Definition is_object (v : jsval) : bool :=
  match v with JNull | JArr _ _ | JObj _ _ => true | _ => false end.

(** The receiver of [.map], [.flatMap]: anything but an array has no such
    method and the call raises a TypeError. *)
Definition as_array (v : jsval) : option (list jsval) :=
  match v with JArr _ l => Some l | _ => None end.

(** [for (const x of v)]: arrays and strings are iterable. *)
Definition iter (v : jsval) : option (list jsval) :=
  match v with
  | JArr _ l => Some l
  | JStr s => Some (JStr <$> code_points s)
  | _ => None
  end.

(** [Object.values(v)]; [None] is the TypeError on [undefined] and [null]. *)
Definition Object_values (v : jsval) : option (list jsval) :=
  match v with
  | JUndef | JNull => None
  | JObj _ fs => Some (fs.*2)
  | JArr _ l => Some l
  | JStr s => Some (JStr <$> code_points s)
  | JBool _ | JNum _ => Some []
  end.

(** [arrays.flat()]: one level. *)
Definition js_flat (l : list jsval) : list jsval :=
  flat_map (fun v => match v with JArr _ e => e | _ => [v] end) l.

(** [xs.flatMap(f)] for a callback that returns arrays and may throw. *)
Definition flatMapM {A B} (f : A -> option (list B)) (xs : list A) : option (list B) :=
  ls ← mapM f xs; Some (concat ls).

(** [xs.filter(f)] for a callback that may throw. *)
Fixpoint filterM {A} (f : A -> option bool) (xs : list A) : option (list A) :=
  match xs with
  | [] => Some []
  | x :: rest =>
      keep ← f x;
      kept ← filterM f rest;
      Some (if keep : bool then x :: kept else kept)
  end.

(** What [new Set] tells its members apart by: the value of a primitive
    (NaN being the same as NaN), the address of an array or object. *)
Inductive ident :=
| IdUndef
| IdNull
| IdBool (b : bool)
| IdNum (n : number)
| IdStr (s : string)
| IdArr (ref : nat)
| IdObj (ref : nat).

Definition identity (v : jsval) : ident :=
  match v with
  | JUndef => IdUndef
  | JNull => IdNull
  | JBool b => IdBool b
  | JNum n => IdNum n
  | JStr s => IdStr s
  | JArr ref _ => IdArr ref
  | JObj ref _ => IdObj ref
  end.

#[global] Instance number_eq_dec : EqDecision number.
Proof. solve_decision. Defined.

#[global] Instance ident_eq_dec : EqDecision ident.
Proof. solve_decision. Defined.

(** ** Regional hot topics: walking the JSON *)

Definition candidates : list string :=
  ["query"; "word"; "keyword"; "title"; "name"; "raw_title"; "display_name";
   "show"; "topic"; "hotWord"; "hotWordShort"; "desc"].

(** [typeof v === 'string' && v.length > 2 && v.length < 100] *)
Definition title_ok (v : jsval) : option string :=
  match v with
  | JStr s => if (2 <? js_length s) && (js_length s <? 100) then Some s else None
  | _ => None
  end.

Fixpoint first_some {A B} (f : A -> option B) (l : list A) : option B :=
  match l with
  | [] => None
  | x :: r => match f x with Some b => Some b | None => first_some f r end
  end.

(** The loop of [pickCnNewsTitle] over the candidate keys.  Outer [None]:
    TypeError; inner [None]: no candidate matched. *)
Fixpoint pick_candidates (item : jsval) (keys : list string) : option (option string) :=
  match keys with
  | [] => Some None
  | key :: rest =>
      value ← prop item key;
      match title_ok value with
      | Some s => Some (Some s)
      | None =>
          if truthy value && is_object value then
            match first_some (fun nestedKey => title_ok (oprop value nestedKey)) candidates with
            | Some s => Some (Some s)
            | None => pick_candidates item rest
            end
          else pick_candidates item rest
      end
  end.

Definition fallback_ok (v : jsval) : option string :=
  match title_ok v with
  | Some s => if startsWith "http" s then None else Some s
  | None => None
  end.

Definition pickCnNewsTitle (item : jsval) : option (option string) :=
  found ← pick_candidates item candidates;
  match found with
  | Some s => Some (Some s)
  | None => vs ← Object_values item; Some (first_some fallback_ok vs)
  end.

(** [[e.content, e.items, e.list, e.data].filter(Array.isArray).flat()] *)
Definition nestedArrays (entry : jsval) : option (list jsval) :=
  c ← prop entry "content";
  i ← prop entry "items";
  l ← prop entry "list";
  d ← prop entry "data";
  Some (js_flat (filter (fun v => isArray v = true) [c; i; l; d])).

Fixpoint depth (v : jsval) : nat :=
  match v with
  | JArr _ l => S (foldr (fun x m => Nat.max (depth x) m) O l)
  | JObj _ fs => S (foldr (fun kv m => Nat.max (depth kv.2) m) O fs)
  | _ => O
  end.

(** [unwrapCnNewsContainer], recursing at most [fuel] levels down. *)
Fixpoint unwrap_fuel (fuel : nat) (entry : jsval) : option (list jsval) :=
  nested ← nestedArrays entry;
  match nested with
  | [] => Some [entry]
  | _ :: _ =>
      match fuel with
      | O => Some [entry]
      | S fuel' => flatMapM (unwrap_fuel fuel') nested
      end
  end.

(** The recursion descends through the value, so its depth is fuel enough
    (see [unwrapCnNewsContainer_eq]). *)
Definition unwrapCnNewsContainer (entry : jsval) : option (list jsval) :=
  unwrap_fuel (depth entry) entry.

(** [new Set(l)] keeps its members in insertion order; [Array.from] reads
    them back in that order.  A member is told from another by [key]: a
    string by itself, a value by its [identity]. *)
Definition Set_add {A K} `{EqDecision K} (key : A -> K) (s : list A) (x : A) : list A :=
  if bool_decide (key x ∈ key <$> s) then s else s ++ [x].

Definition new_Set {A K} `{EqDecision K} (key : A -> K) (l : list A) : list A :=
  foldl (Set_add key) [] l.

(** ** Configuration *)

Record QueryDiversityConfig := {
  sources : list string;
  deduplicate : bool;
  mixStrategies : bool;
  maxQueriesPerSource : Z;
  cacheMinutes : Z
}.

(** [Partial<QueryDiversityConfig>]: every member may be missing. *)
Record PartialConfig := {
  p_sources : option (list string);
  p_deduplicate : option bool;
  p_mixStrategies : option bool;
  p_maxQueriesPerSource : option Z;
  p_cacheMinutes : option Z
}.

(** [n || d] for an optional number: [undefined] and [0] give [d]. *)
Definition num_or (n : option Z) (d : Z) : Z :=
  match n with
  | Some v => if v =? 0 then d else v
  | None => d
  end.

(** [b !== false] for an optional boolean. *)
Definition not_false (b : option bool) : bool :=
  match b with Some false => false | _ => true end.

Definition default_sources : list string :=
  ["google-trends"; "reddit"; "local-fallback"].

(** The configuration the constructor stores. *)
Definition constructor (config : option PartialConfig) : QueryDiversityConfig :=
  let maxQueriesPerSource :=
    Z.max 1 (Z.min (num_or (config ≫= p_maxQueriesPerSource) 10) 50) in
  let cacheMinutes :=
    Z.max 1 (Z.min (num_or (config ≫= p_cacheMinutes) 30) 1440) in
  {| sources := match config ≫= p_sources with
                | Some s => if 0 <? Z.of_nat (length s) then s else default_sources
                | None => default_sources
                end;
     deduplicate := not_false (config ≫= p_deduplicate);
     mixStrategies := not_false (config ≫= p_mixStrategies);
     maxQueriesPerSource := maxQueriesPerSource;
     cacheMinutes := cacheMinutes |}.

(** The supplied integer clamped to [[lo, hi]]. *)
Definition clamp (lo hi v : Z) : Z := Z.max lo (Z.min v hi).

(** ** The world the engine runs in *)

Record Request := {
  req_url : string;
  req_method : string;
  req_headers : list (string * string);
  req_data : option string;
  req_timeout : Z
}.

(** [response.data]: text, or a structured value. *)
Inductive ResponseData :=
| TextData (s : string)
| JsonData (v : jsval).

Inductive HttpOutcome :=
| Rejected (message : string)
| Resolved (data : ResponseData).

Inductive Level := LInfo | LWarn | LError.

Record LogLine := {
  log_source : string;
  log_message : string;
  log_level : Level
}.

(** The three regular expressions of the scrapers. *)
Inductive Pattern :=
| RxHeading      (* /<h3[^>]*>(.*?)<\/h3>/gi *)
| RxEllipsisDiv  (* /<div[^>]*class="[^"]*c-single-text-ellipsis[^"]*"[^>]*>(.*?)<\/div>/gi *)
| RxTitleLink.   (* /<a[^>]*class="[^"]*title[^"]*"[^>]*>(.*?)<\/a>/gi *)

(** What the engine is handed or finds on its platform.  The HTTP client
    is injected and may answer each request as it likes, depending on all
    requests sent before; the JSON and regular-expression primitives and
    the random draws are the runtime's.

    Modelled from the spec: [Util.shuffleArray] (src/util/core/Utils) is
    the "uniform shuffle utility over a sequence": it returns the members
    of its argument in some order, chosen by the draw. *)
Class Env := {
  httpClient : list Request -> Request -> HttpOutcome;
  latency : list Request -> Request -> Z;
  (* [JSON.parse], at its n-th call: the objects it builds are new ones *)
  JSON_parse : nat -> string -> option jsval;
  JSON_stringify : jsval -> option string;
  (* the number a string converts to *)
  ToNumber_string : string -> number;
  (* the number an array or object converts to, through its primitive
     value; [None] is the TypeError of one that has none *)
  ToNumber_object : jsval -> option number;
  regex_exec_all : Pattern -> string -> list string;
  strip_tags : string -> string;
  String_trim : string -> string;
  random_index : nat -> nat;
  shuffleArray : nat -> list jsval -> list jsval;
  shuffleArray_perm : forall k l, shuffleArray k l ≡ₚ l;
  NEWS_API_KEY : option string
}.

Record CacheEntry := {
  queries : list jsval;
  expires : Z
}.

Record St := {
  cache : gmap string CacheEntry;
  clock : Z;                 (* what Date.now() reads *)
  sent : list Request;       (* requests handed to the HTTP client *)
  logs : list LogLine;       (* lines handed to the logger *)
  draws : nat;               (* random draws made *)
  parses : nat               (* calls of JSON.parse made *)
}.

Definition set_cache (c : gmap string CacheEntry) (st : St) : St :=
  {| cache := c; clock := clock st; sent := sent st; logs := logs st; draws := draws st;
     parses := parses st |}.

Definition add_log (l : LogLine) (st : St) : St :=
  {| cache := cache st; clock := clock st; sent := sent st;
     logs := logs st ++ [l]; draws := draws st; parses := parses st |}.

Definition add_request (elapsed : Z) (r : Request) (st : St) : St :=
  {| cache := cache st; clock := clock st + elapsed; sent := sent st ++ [r];
     logs := logs st; draws := draws st; parses := parses st |}.

Definition add_draw (st : St) : St :=
  {| cache := cache st; clock := clock st; sent := sent st; logs := logs st;
     draws := S (draws st); parses := parses st |}.

Definition add_parse (st : St) : St :=
  {| cache := cache st; clock := clock st; sent := sent st; logs := logs st;
     draws := draws st; parses := S (parses st) |}.

(** Time passing between two calls. *)
Definition advance (ms : Z) (st : St) : St :=
  {| cache := cache st; clock := clock st + ms; sent := sent st; logs := logs st;
     draws := draws st; parses := parses st |}.

Definition initial (now : Z) : St :=
  {| cache := ∅; clock := now; sent := []; logs := []; draws := O; parses := O |}.

(** ** Computations: state and exceptions *)

Inductive outcome (A : Type) :=
| Val (a : A)
| Thrown (message : string).
Arguments Val {A} a.
Arguments Thrown {A} message.

Definition M (A : Type) : Type := St -> outcome A * St.

Definition ret {A} (a : A) : M A := fun st => (Val a, st).

Definition bind {A B} (m : M A) (k : A -> M B) : M B :=
  fun st => match m st with
            | (Val a, st') => k a st'
            | (Thrown e, st') => (Thrown e, st')
            end.

Definition throw {A} (e : string) : M A := fun st => (Thrown e, st).

(** [try { m } catch (e) { h e }] *)
Definition try_catch {A} (m : M A) (h : string -> M A) : M A :=
  fun st => match m st with
            | (Val a, st') => (Val a, st')
            | (Thrown e, st') => h e st'
            end.

Definition gets {A} (f : St -> A) : M A := fun st => (Val (f st), st).

Definition modify (f : St -> St) : M unit := fun st => (Val tt, f st).

(** A pure step that may raise a TypeError or SyntaxError. *)
Definition lift_js {A} (o : option A) : M A :=
  match o with
  | Some a => ret a
  | None => throw "TypeError"
  end.

Definition when (b : bool) (m : M unit) : M unit := if b then m else ret tt.

Notation "'let*' x ':=' m 'in' k" := (bind m (fun x => k))
  (at level 10, x binder, k at level 200).

Definition is_nil {A} (l : list A) : bool :=
  match l with [] => true | _ => false end.

(** ** The engine *)

Record Engine := {
  config : QueryDiversityConfig;
  has_logger : bool          (* whether a logger callback was supplied *)
}.

Definition fallback : list string :=
  ["weather forecast"; "news today"; "stock market"; "sports scores";
   "movie reviews"; "recipes"; "travel destinations"; "health tips";
   "technology news"; "best restaurants near me"; "how to cook pasta";
   "python tutorial"; "world events"; "climate change"; "electric vehicles";
   "space exploration"; "artificial intelligence"; "cryptocurrency";
   "gaming news"; "fashion trends"; "fitness workout"; "home improvement";
   "gardening tips"; "pet care"; "book recommendations"; "music charts";
   "streaming shows"; "historical events"; "science discoveries";
   "education resources"].

Definition subreddits : list string :=
  ["news"; "worldnews"; "todayilearned"; "askreddit"; "technology"].

Definition default_user_agent : list (string * string) :=
  [("User-Agent", "Mozilla/5.0 (Windows NT 10.0; Win64; x64) AppleWebKit/537.36")].

Definition recognized : list string :=
  ["google-trends"; "reddit"; "news"; "cn-news"; "wikipedia"; "local-fallback"].

(** [t && t.length > lo && t.length < hi] on a string. *)
Definition text_between (lo hi : Z) (t : string) : bool :=
  negb (String.eqb t "") && (lo <? js_length t) && (js_length t <? hi).

(** The cards and lists of [extractCnNewsFromJson]: the queries, and the
    two counts of its log line. *)
Definition cnNewsQueries (parsed : jsval) : option (list string * nat * nat) :=
  let data := oprop parsed "data" in
  let cards := js_or (oprop data "cards") (js_or (oprop data "cardList") empty_array) in
  cardList ← as_array cards;
  items ← flatMapM (fun card =>
             c ← prop card "content";
             i ← prop card "items";
             l ← prop card "list";
             d ← prop card "data";
             let containers := js_flat (filter (fun v => isArray v = true) [c; i; l; d]) in
             flatMapM unwrapCnNewsContainer containers)
           cardList;
  let listFallback :=
    js_or (oprop data "list")
      (js_or (oprop data "items")
         (js_or (oprop (oprop data "currentBoard") "list") empty_array)) in
  let combinedItems := if 0 <? Z.of_nat (length items) then JArr 0 items else listFallback in
  combined ← as_array combinedItems;
  titles ← mapM pickCnNewsTitle combined;
  let queries :=
    omap (fun t => match t with
                   | Some s => if text_between 2 100 s then Some s else None
                   | None => None
                   end) titles in
  Some (queries, length cardList, length combined).

Section engine.
Context {E : Env} (this : Engine).

(** The number a value converts to where it is compared with one. *)
Definition ToNumber (v : jsval) : option number :=
  match v with
  | JUndef => Some NaN
  | JNull => Some (of_Z 0)
  | JBool b => Some (of_Z (if b then 1 else 0))
  | JNum n => Some n
  | JStr s => Some (ToNumber_string s)
  | JArr _ _ | JObj _ _ => ToNumber_object v
  end.

(** [v > n] and [v < n] for a number literal [n]. *)
Definition js_gt (v : jsval) (n : Z) : option bool :=
  x ← ToNumber v; Some (number_ltb (of_Z n) x).

Definition js_lt (v : jsval) (n : Z) : option bool :=
  x ← ToNumber v; Some (number_ltb x (of_Z n)).

(** [t && t.length > lo] for any value [t]; [None] is the TypeError of a
    length that converts to no number. *)
Definition longer_than (lo : Z) (t : jsval) : option bool :=
  if truthy t then len ← prop t "length"; js_gt len lo else Some false.

(** [t && t.length > lo && t.length < hi] *)
Definition between (lo hi : Z) (t : jsval) : option bool :=
  if truthy t then
    len ← prop t "length";
    above ← js_gt len lo;
    if above : bool then js_lt len hi else Some false
  else Some false.

(** The two nested loops of [fetchGoogleTrends]. *)
Definition trendQueries (parsed : jsval) : option (list jsval) :=
  dflt ← prop parsed "default";
  days0 ← prop dflt "trendingSearchesDays";
  days ← iter (js_or days0 empty_array);
  flatMapM (fun item =>
    searches0 ← prop item "trendingSearches";
    searches ← iter (js_or searches0 empty_array);
    flatMapM (fun search =>
      title ← prop search "title";
      let query := oprop title "query" in
      Some (if truthy query then [query] else []))
      searches)
    days.

(** The loop of [fetchReddit]. *)
Definition redditQueries (parsed : jsval) : option (list jsval) :=
  data ← prop parsed "data";
  posts ← iter (js_or (oprop data "children") empty_array);
  flatMapM (fun post =>
    pdata ← prop post "data";
    let title := oprop pdata "title" in
    keep ← between 10 100 title;
    Some (if keep : bool then [title] else []))
    posts.

(** [xs.map(x => x.title).filter(t => t && t.length > lo)] *)
Definition titles_longer_than (lo : Z) (xs : jsval) : option (list jsval) :=
  arr ← as_array xs;
  titles ← mapM (fun x => prop x "title") arr;
  filterM (longer_than lo) titles.

Definition log (source message : string) (level : Level) : M unit :=
  when (has_logger this)
    (modify (add_log {| log_source := source; log_message := message;
                        log_level := level |})).

(** [fetchHttp]: [None] is a response whose data does not serialize. *)
Definition fetchHttp (url : string) (headers : option (list (string * string)))
    (timeout : option Z) : M (option string) :=
  let request := {| req_url := url;
                    req_method := "GET";
                    req_headers := default default_user_agent headers;
                    req_data := None;
                    req_timeout := num_or timeout 10000 |} in
  try_catch
    (let* history := gets sent in
     let* _ := modify (add_request (latency history request) request) in
     match httpClient history request with
     | Resolved (TextData s) => ret (Some s)
     | Resolved (JsonData v) => ret (JSON_stringify v)
     | Rejected e => throw e
     end)
    (fun errorMsg =>
       let* _ := log "QUERY-FETCH"
                   ("HTTP request failed for " +:+ url +:+ ": " +:+ errorMsg) LError in
       throw errorMsg).

(** [JSON.parse(data)]; [undefined] does not parse. *)
Definition parse (data : option string) : M jsval :=
  let* n := gets parses in
  let* _ := modify add_parse in
  lift_js (data ≫= JSON_parse n).

(** The text a regular expression or string method sees. *)
Definition to_text (data : option string) : string :=
  default "undefined" data.

Definition draw : M nat :=
  let* k := gets draws in
  let* _ := modify add_draw in
  ret k.

Definition shuffle (l : list jsval) : M (list jsval) :=
  let* k := draw in
  ret (shuffleArray k l).

Definition fetchGoogleTrends : M (list jsval) :=
  try_catch
    (let* data := fetchHttp "https://trends.google.com/trends/api/dailytrends?geo=US"
                    None None in
     let* text := lift_js data in
     let cleaned := remove_first ")]}'," text in
     let* parsed := parse (Some cleaned) in
     let* queries := lift_js (trendQueries parsed) in
     ret (slice0 20 queries))
    (fun _ => ret []).

Definition fetchReddit : M (list jsval) :=
  try_catch
    (let* k := draw in
     let randomSub := nth (random_index k) subreddits "undefined" in
     let* data := fetchHttp ("https://www.reddit.com/r/" +:+ randomSub +:+ "/hot.json?limit=15")
                    None None in
     let* parsed := parse data in
     lift_js (redditQueries parsed))
    (fun _ => ret []).

Definition fetchNewsFallback : M (list jsval) :=
  try_catch
    (let* html := fetchHttp "https://www.bbc.com/news" None None in
     let matches := regex_exec_all RxHeading (to_text html) in
     ret (JStr <$>
            slice0 10
              (filter (fun t => text_between 10 100 t = true)
                 ((fun m => String_trim (strip_tags m)) <$> matches))))
    (fun _ => ret []).

Definition fetchNews : M (list jsval) :=
  try_catch
    (match NEWS_API_KEY with
     | None => fetchNewsFallback
     | Some apiKey =>
         if String.eqb apiKey "" then fetchNewsFallback
         else
           let* data := fetchHttp
                          ("https://newsapi.org/v2/top-headlines?country=us&pageSize=15&apiKey="
                           +:+ apiKey) None None in
           let* parsed := parse data in
           let* articles0 := lift_js (prop parsed "articles") in
           lift_js (titles_longer_than 10 (js_or articles0 empty_array))
     end)
    (fun _ => fetchNewsFallback).

Definition extractCnNewsFromJson (data : option string) : M (list string) :=
  try_catch
    (let* parsed := parse data in
     let* '(queries, cardCount, itemCount) := lift_js (cnNewsQueries parsed) in
     let* _ := when (is_nil queries)
                 (log "QUERY-DIVERSITY"
                    ("CN news returned no items (cards=" +:+ pretty cardCount
                     +:+ ", items=" +:+ pretty itemCount +:+ ")") LWarn) in
     ret queries)
    (fun _ => ret []).

Definition extractCnNewsFromHtml (html : option string) : list string :=
  let texts pattern :=
    filter (fun text => text_between 2 100 text = true)
      ((fun m => String_trim (strip_tags m)) <$> regex_exec_all pattern (to_text html)) in
  new_Set id (texts RxEllipsisDiv ++ texts RxTitleLink).

Definition cn_headers : list (string * string) :=
  default_user_agent ++ [("Referer", "https://top.baidu.com/")].

(** The loop of [fetchCnNews] over the JSON endpoints; [None] when none
    of them gave a query. *)
Fixpoint cnNewsEndpoints (endpoints : list string) : M (option (list string)) :=
  match endpoints with
  | [] => ret None
  | endpoint :: rest =>
      let* data := fetchHttp endpoint (Some cn_headers) (Some 8000) in
      let* queries := extractCnNewsFromJson data in
      if 0 <? Z.of_nat (length queries)
      then ret (Some (slice0 (maxQueriesPerSource (config this)) queries))
      else cnNewsEndpoints rest
  end.

Definition fetchCnNews : M (list jsval) :=
  try_catch
    (let* found := cnNewsEndpoints
                     ["https://top.baidu.com/api/board?platform=wise&tab=realtime";
                      "https://top.baidu.com/api/board?platform=pc&tab=realtime"] in
     match found with
     | Some queries => ret (JStr <$> queries)
     | None =>
         let* html := fetchHttp "https://top.baidu.com/board?tab=realtime"
                        (Some default_user_agent) (Some 8000) in
         let htmlQueries := extractCnNewsFromHtml html in
         let* _ := when (is_nil htmlQueries)
                     (log "QUERY-DIVERSITY"
                        "CN news returned no items from JSON or HTML sources" LWarn) in
         ret (JStr <$> slice0 (maxQueriesPerSource (config this)) htmlQueries)
     end)
    (fun errorMsg =>
       let* _ := log "QUERY-DIVERSITY" ("CN news fetch failed: " +:+ errorMsg) LWarn in
       ret []).

Definition fetchWikipedia : M (list jsval) :=
  try_catch
    (let* data := fetchHttp
                    "https://en.wikipedia.org/w/api.php?action=query&list=random&rnnamespace=0&rnlimit=15&format=json"
                    None None in
     let* parsed := parse data in
     let* query := lift_js (prop parsed "query") in
     lift_js (titles_longer_than 3 (js_or (oprop query "random") empty_array)))
    (fun _ => ret []).

Definition getLocalFallback (count : Z) : M (list jsval) :=
  let* shuffled := shuffle (JStr <$> fallback) in
  ret (slice0 count shuffled).
End engine.

Section aggregator.
Context {E : Env} (this : Engine).

(** [cleanExpiredCache]: every entry with [now >= expires] is deleted. *)
Definition evict (st : St) : St :=
  set_cache (filter (fun kv => clock st < expires kv.2) (cache st)) st.

Definition cleanExpiredCache : M unit := modify evict.

Definition clearCache : M unit := modify (set_cache ∅).

(** The [switch] of [getFromSource]. *)
Definition dispatch (source : string) : M (list jsval) :=
  if String.eqb source "google-trends" then fetchGoogleTrends this
  else if String.eqb source "reddit" then fetchReddit this
  else if String.eqb source "news" then fetchNews this
  else if String.eqb source "cn-news" then fetchCnNews this
  else if String.eqb source "wikipedia" then fetchWikipedia this
  else if String.eqb source "local-fallback" then getLocalFallback 20
  else
    let* _ := log this "QUERY-DIVERSITY" ("Unknown source: " +:+ source) LWarn in
    ret [].

(** [cached && Date.now() < cached.expires] *)
Definition cache_hit (source : string) (st : St) : option (list jsval) :=
  match cache st !! source with
  | Some cached => if clock st <? expires cached then Some (queries cached) else None
  | None => None
  end.

(** [this.cache.set(source, { queries, expires: Date.now() + cacheMinutes * 60000 })] *)
Definition store (source : string) (found : list jsval) (st : St) : St :=
  set_cache (<[source := {| queries := found;
                            expires := clock st + cacheMinutes (config this) * 60000 |}]>
               (cache st)) st.

Definition cache_store (source : string) (found : list jsval) : M unit :=
  modify (store source found).

(** What [getFromSource] does to the state after the adapter returned
    [found]: the log line of an empty result, the cache entry of any
    other. *)
Definition settle (source : string) (found : list jsval) (st : St) : St :=
  let st1 := if is_nil found && has_logger this
             then add_log {| log_source := "QUERY-DIVERSITY";
                             log_message := "No queries returned for source: " +:+ source;
                             log_level := LWarn |} st
             else st in
  if 0 <? Z.of_nat (length found) then store source found st1 else st1.

Definition getFromSource (source : string) : M (list jsval) :=
  let* _ := cleanExpiredCache in
  let* hit := gets (cache_hit source) in
  match hit with
  | Some cached => ret cached
  | None =>
      let* found := dispatch source in
      let* _ := when (is_nil found)
                  (log this "QUERY-DIVERSITY"
                     ("No queries returned for source: " +:+ source) LWarn) in
      let* _ := when (0 <? Z.of_nat (length found)) (cache_store source found) in
      ret found
  end.

(** The loop of [interleaveQueries], at index [i] of the input. *)
Fixpoint interleave_loop (chunkSize sourceCount targetCount : Z)
    (rest : list jsval) (i sourceIndex : Z) (result : list jsval) : list jsval :=
  match rest with
  | [] => result
  | query :: rest' =>
      if Z.of_nat (length result) <? targetCount then
        let currentChunkStart := sourceIndex * chunkSize in
        let currentChunkEnd := currentChunkStart + chunkSize in
        let result' :=
          if truthy query && (currentChunkStart <=? i) && (i <? currentChunkEnd)
          then (result ++ [query])%list else result in
        let sourceIndex' :=
          if i =? currentChunkEnd - 1 then (sourceIndex + 1) mod sourceCount
          else sourceIndex in
        interleave_loop chunkSize sourceCount targetCount rest' (i + 1) sourceIndex' result'
      else result
  end.

Definition interleaveQueries (all : list jsval) (targetCount : Z) : list jsval :=
  let queriesPerSource := maxQueriesPerSource (config this) in
  let sourceCount := Z.of_nat (length (sources (config this))) in
  if (sourceCount =? 0) || (Z.of_nat (length all) =? 0) then slice0 targetCount all
  else
    slice0 targetCount
      (interleave_loop queriesPerSource sourceCount targetCount all 0 0 []).

(** The loop of [fetchQueries] over the configured sources, for any
    per-source lookup. *)
Fixpoint collect (lookup : string -> M (list jsval)) (names : list string)
    (allQueries : list jsval) : M (list jsval) :=
  match names with
  | [] => ret allQueries
  | sourceName :: rest =>
      let* allQueries' :=
        try_catch
          (let* found := lookup sourceName in
           ret (allQueries ++ slice0 (maxQueriesPerSource (config this)) found)%list)
          (fun errorMsg =>
             let* _ := log this "QUERY-DIVERSITY"
                         ("Failed to fetch from " +:+ sourceName +:+ ": " +:+ errorMsg)
                         LWarn in
             ret allQueries) in
      collect lookup rest allQueries'
  end.

(** What [fetchQueries] holds just before it shuffles. *)
Definition arrange (validCount : Z) (allQueries : list jsval) : list jsval :=
  let final := if deduplicate (config this) then new_Set identity allQueries
               else allQueries in
  if mixStrategies (config this) && (1 <? Z.of_nat (length (sources (config this))))
  then interleaveQueries final validCount
  else final.

(** [fetchQueries] from the collected queries on. *)
Definition finish (validCount : Z) (allQueries : list jsval) : M (list jsval) :=
  let* shuffled := shuffle (arrange validCount allQueries) in
  let final := slice0 validCount shuffled in
  if Z.of_nat (length final) =? 0 then
    let* _ := log this "QUERY-DIVERSITY" "All sources failed, using local fallback" LWarn in
    getLocalFallback validCount
  else ret final.

Definition fetchQueries_with (lookup : string -> M (list jsval)) (count : Z)
    : M (list jsval) :=
  let validCount := Z.max 1 (Z.min count 200) in
  let* allQueries := collect lookup (sources (config this)) [] in
  finish validCount allQueries.

Definition fetchQueries (count : Z) : M (list jsval) :=
  fetchQueries_with getFromSource count.
End aggregator.

(** ** Sample worlds *)

(** A world built from an HTTP client and a JSON parser; requests take
    [lat] milliseconds, no markup matches, and the shuffle reverses. *)
Definition world (client : list Request -> Request -> HttpOutcome) (lat : Z)
    (parser : string -> option jsval) : Env :=
  {| httpClient := client;
     latency := fun _ _ => lat;
     JSON_parse := fun _ => parser;
     JSON_stringify := fun _ => None;
     ToNumber_string := fun _ => NaN;
     ToNumber_object := fun _ => Some NaN;
     regex_exec_all := fun _ _ => [];
     strip_tags := fun s => s;
     String_trim := fun s => s;
     random_index := fun _ => O;
     shuffleArray := fun _ l => reverse l;
     shuffleArray_perm := fun _ l => reverse_Permutation l;
     NEWS_API_KEY := None |}.

(** Every request fails. *)
Definition offline : Env :=
  world (fun _ _ => Rejected "ENOTFOUND") 0 (fun _ => None).

(** Every request is answered with the same text, which parses to [v]. *)
Definition answering (v : jsval) : Env :=
  world (fun _ _ => Resolved (TextData "body")) 250 (fun _ => Some v).

Definition engine_of (config : option PartialConfig) : Engine :=
  {| config := constructor config; has_logger := true |}.

(** The payload with [data.cards[0].content[0].items[0].title = title]. *)
Definition card_payload (title : string) : jsval :=
  JObj 1 [("data",
           JObj 2 [("cards",
                    JArr 3 [JObj 4 [("content",
                                     JArr 5 [JObj 6 [("items",
                                                      JArr 7 [JObj 8 [("title",
                                                                       JStr title)]])]])]])])].

(** ** Specifications of computations *)

(** [m] moves every state along the relation [R]. *)
Definition keeps {A} (R : St -> St -> Prop) (m : M A) : Prop :=
  forall st, R st (m st).2.

(** [m] never throws. *)
Definition total {A} (m : M A) : Prop :=
  forall st, exists a st', m st = (Val a, st').

(** Every value [m] returns satisfies [P]. *)
Definition on_val {A} (m : M A) (P : A -> Prop) : Prop :=
  forall st a st', m st = (Val a, st') -> P a.

Definition same_cache (st st' : St) : Prop := cache st' = cache st.

Definition same_sent (st st' : St) : Prop := sent st' = sent st.

Definition more_sent (st st' : St) : Prop := sent st `prefix_of` sent st'.

(** [m] hands at least one request to the HTTP client. *)
Definition sends {A} (m : M A) : Prop :=
  forall st, (length (sent st) < length (sent (m st).2))%nat.

(** [m] hands exactly one request to the HTTP client. *)
Definition sends_one {A} (m : M A) : Prop :=
  forall st, exists r, sent (m st).2 = (sent st ++ [r])%list.

Definition nonempty (q : string) : Prop := q <> "".


(** A value that passes [if (v)]. *)
Definition is_truthy (v : jsval) : Prop := truthy v = true.

(** [lo < v.length] and [v.length < hi] hold: the length of [v] converts
    to a number beyond the bound. *)
Definition length_above {E : Env} (lo : Z) (v : jsval) : Prop :=
  exists len n, prop v "length" = Some len /\ ToNumber len = Some n /\
                number_ltb (of_Z lo) n = true.

Definition length_below {E : Env} (hi : Z) (v : jsval) : Prop :=
  exists len n, prop v "length" = Some len /\ ToNumber len = Some n /\
                number_ltb n (of_Z hi) = true.

(** A string that satisfies [P]. *)
Definition text_of (P : string -> Prop) (v : jsval) : Prop := exists s, v = JStr s /\ P s.

(** A non-empty string. *)
Definition is_text (v : jsval) : Prop := text_of nonempty v.

(** A string of three to ninety-nine UTF-16 units. *)
Definition cn_title (s : string) : Prop := nonempty s /\ 2 < js_length s < 100.

(** What the cache holds in every state the engine can reach: entries of
    recognized sources only, each a non-empty list of truthy values, and
    under [local-fallback] twenty members of a shuffle of the curated
    list. *)
Definition cache_inv {E : Env} (st : St) : Prop :=
  forall k e, cache st !! k = Some e ->
    k ∈ recognized /\ queries e <> [] /\ Forall is_truthy (queries e) /\
    (k = "local-fallback" ->
     exists n, queries e = slice0 20 (shuffleArray n (JStr <$> fallback))).

(** The states of an engine: it starts with an empty cache, its public
    methods run, the loop of [fetchQueries] looks a source up, and time
    passes in between. *)
Inductive reachable {E : Env} (this : Engine) : St -> Prop :=
| reach_initial now : reachable this (initial now)
| reach_lookup st source :
    reachable this st -> reachable this (getFromSource this source st).2
| reach_fetchQueries st count :
    reachable this st -> reachable this (fetchQueries this count st).2
| reach_clearCache st :
    reachable this st -> reachable this (clearCache st).2
| reach_advance st ms :
    reachable this st -> reachable this (advance ms st).

(** The sources that are fetched over HTTP. *)
Definition remote : list string :=
  ["google-trends"; "reddit"; "news"; "cn-news"; "wikipedia"].

(** The positions of [l] whose member did not occur earlier, in order. *)
Definition first_occurrences {A K} `{EqDecision K} (key : A -> K) (l : list A) : list A :=
  omap (fun i => x ← l !! i;
                 if bool_decide (key x ∈ key <$> take i l) then None else Some x)
       (seq 0 (length l)).

(** The [k]-th chunk of [chunkSize] members. *)
Definition chunk {A} (chunkSize : Z) (l : list A) (k : nat) : list A :=
  take (Z.to_nat chunkSize) (drop (k * Z.to_nat chunkSize) l).

(** The lookups of [names], one after the other as the loop of
    [fetchQueries] makes them: what each returned, and the state they
    leave. *)
Fixpoint lookups {E : Env} (this : Engine) (names : list string) (st : St)
    : list (list jsval) * St :=
  match names with
  | [] => ([], st)
  | name :: rest =>
      let looked := getFromSource this name st in
      let found := match looked.1 with Val found => found | Thrown _ => [] end in
      let later := lookups this rest looked.2 in
      (found :: later.1, later.2)
  end.




(** ** Sample engines and lookups *)

Definition no_options : PartialConfig :=
  {| p_sources := None; p_deduplicate := None; p_mixStrategies := None;
     p_maxQueriesPerSource := None; p_cacheMinutes := None |}.

(** An engine configured with nothing but its sources. *)
Definition engine_with_sources (names : list string) : Engine :=
  engine_of (Some {| p_sources := Some names; p_deduplicate := None;
                     p_mixStrategies := None; p_maxQueriesPerSource := None;
                     p_cacheMinutes := None |}).

(** The configuration [{sources: ['local-fallback'], deduplicate: true,
    cacheMinutes: 30}]. *)
Definition local_only : option PartialConfig :=
  Some {| p_sources := Some ["local-fallback"]; p_deduplicate := Some true;
          p_mixStrategies := None; p_maxQueriesPerSource := None;
          p_cacheMinutes := Some 30 |}.

(** A world whose first request is answered with a board without cards
    and every later one with a board of one card. *)
Definition second_endpoint_answers : Env :=
  world (fun history _ =>
           match history with
           | [] => Resolved (TextData "empty board")
           | _ :: _ => Resolved (TextData "board")
           end)
        120
        (fun text => if String.eqb text "board" then Some (card_payload "hot topic")
                     else Some (JObj 1 [("data", JObj 2 [])])).

(** A trends payload whose one search has the number 42 for a query. *)
Definition numeric_trend : jsval :=
  JObj 1 [("default",
           JObj 2 [("trendingSearchesDays",
                    JArr 3 [JObj 4 [("trendingSearches",
                                     JArr 5 [JObj 6 [("title",
                                                      JObj 7 [("query",
                                                               JNum (of_Z 42))])]])]])])].

Definition post (ref : nat) (title : string) : jsval :=
  JObj ref [("data", JObj (S ref) [("title", JStr title)])].

(** A payload that answers the social feed with three posts and the
    encyclopedia with two pages. *)
Definition feed_payload : jsval :=
  JObj 1 [("data",
           JObj 2 [("children",
                    JArr 3 [post 4 "first reddit headline";
                            post 6 "second reddit headline";
                            post 8 "third reddit headline"])]);
          ("query",
           JObj 10 [("random",
                     JArr 11 [JObj 12 [("title", JStr "Alan Turing")];
                              JObj 13 [("title", JStr "Ada Lovelace")]])])].


(** The configuration with the given sources and cap per source. *)
Definition capped_config (names : list string) (cap : Z) : option PartialConfig :=
  Some {| p_sources := Some names; p_deduplicate := None; p_mixStrategies := None;
          p_maxQueriesPerSource := Some cap; p_cacheMinutes := None |}.

(** ** Webhook URL obfuscation *)

(** [Buffer.from(url)] holds the UTF-8 bytes of [url], which is how a
    string is kept here; [toString('base64')] groups them by three. *)
Definition base64_alphabet : string :=
  "ABCDEFGHIJKLMNOPQRSTUVWXYZabcdefghijklmnopqrstuvwxyz0123456789+/".

Definition base64_char (n : N) : ascii :=
  match String.get (N.to_nat n) base64_alphabet with
  | Some c => c
  | None => "A"%char
  end.

Definition base64_index (c : ascii) : option N :=
  let b := N_of_ascii c in
  if (65 <=? b)%N && (b <=? 90)%N then Some (b - 65)%N
  else if (97 <=? b)%N && (b <=? 122)%N then Some (b - 71)%N
  else if (48 <=? b)%N && (b <=? 57)%N then Some (b + 4)%N
  else if (b =? 43)%N then Some 62%N
  else if (b =? 47)%N then Some 63%N
  else None.

Fixpoint base64_encode (bytes : string) : string :=
  match bytes with
  | EmptyString => EmptyString
  | String a EmptyString =>
      let x := N_of_ascii a in
      String (base64_char (x / 4)) (String (base64_char (x mod 4 * 16)) "==")
  | String a (String b EmptyString) =>
      let x := N_of_ascii a in
      let y := N_of_ascii b in
      String (base64_char (x / 4))
        (String (base64_char (x mod 4 * 16 + y / 16))
           (String (base64_char (y mod 16 * 4)) "="))
  | String a (String b (String c rest)) =>
      let x := N_of_ascii a in
      let y := N_of_ascii b in
      let z := N_of_ascii c in
      String (base64_char (x / 4))
        (String (base64_char (x mod 4 * 16 + y / 16))
           (String (base64_char (y mod 16 * 4 + z / 64))
              (String (base64_char (z mod 64)) (base64_encode rest))))
  end.

Definition obfuscateWebhookUrl (url : string) : string := base64_encode url.

Definition is_base64_char (c : ascii) : bool :=
  match base64_index c with Some _ => true | None => false end.

Definition is_pad (c : ascii) : bool := Ascii.eqb c "="%char.

(** [BASE64_REGEX.test(s)] for
    [/^(?:[A-Za-z0-9+/]{4})*(?:[A-Za-z0-9+/]{2}==|[A-Za-z0-9+/]{3}=)?$/]:
    groups of four alphabet characters, the last one possibly padded. *)
Fixpoint BASE64_REGEX_test (s : string) : bool :=
  match s with
  | EmptyString => true
  | String a (String b (String c (String d rest))) =>
      if is_base64_char a && is_base64_char b && is_base64_char c && is_base64_char d
      then BASE64_REGEX_test rest
      else
        match rest with
        | EmptyString =>
            is_base64_char a && is_base64_char b &&
            ((is_pad c && is_pad d) || (is_base64_char c && is_pad d))
        | String _ _ => false
        end
  | _ => false
  end.

(** [Buffer.from(s, 'base64')] on text that passed [BASE64_REGEX] (the
    only text [deobfuscateWebhookUrl] decodes): three bytes per full
    group, one or two for a padded last group. *)
Fixpoint base64_decode (s : string) : string :=
  match s with
  | String a (String b (String c (String d rest))) =>
      match base64_index a, base64_index b with
      | Some x, Some y =>
          let first := ascii_of_N (x * 4 + y / 16) in
          match base64_index c with
          | Some z =>
              let second := ascii_of_N (y mod 16 * 16 + z / 4) in
              match base64_index d with
              | Some w =>
                  String first
                    (String second
                       (String (ascii_of_N (z mod 4 * 64 + w)) (base64_decode rest)))
              | None => String first (String second EmptyString)
              end
          | None => String first EmptyString
          end
      | _, _ => EmptyString
      end
  | _ => EmptyString
  end.

Definition byte_in (lo hi : N) (c : ascii) : bool :=
  ((lo <=? N_of_ascii c) && (N_of_ascii c <=? hi))%N.

(** Well-formed UTF-8 (the Unicode standard's table of byte sequences). *)
Fixpoint utf8_valid (s : string) : bool :=
  match s with
  | EmptyString => true
  | String a r1 =>
      if byte_in 0 127 a then utf8_valid r1
      else
        match r1 with
        | String b r2 =>
            if byte_in 194 223 a then byte_in 128 191 b && utf8_valid r2
            else
              match r2 with
              | String c r3 =>
                  if byte_in 224 239 a then
                    byte_in (if (N_of_ascii a =? 224)%N then 160 else 128)
                            (if (N_of_ascii a =? 237)%N then 159 else 191) b
                    && byte_in 128 191 c && utf8_valid r3
                  else
                    match r3 with
                    | String d r4 =>
                        byte_in 240 244 a
                        && byte_in (if (N_of_ascii a =? 240)%N then 144 else 128)
                                   (if (N_of_ascii a =? 244)%N then 143 else 191) b
                        && byte_in 128 191 c && byte_in 128 191 d && utf8_valid r4
                    | EmptyString => false
                    end
              | EmptyString => false
              end
        | EmptyString => false
        end
  end.

(** The runtime's UTF-8 decoder, [buffer.toString('utf-8')]: on
    well-formed bytes it yields the string they encode (ill-formed bytes
    it replaces, in a way these properties do not depend on). *)
Class Utf8Decoder := {
  Buffer_toString_utf8 : string -> string;
  Buffer_toString_utf8_valid : forall s, utf8_valid s = true -> Buffer_toString_utf8 s = s
}.

(** The white space and line terminators of ECMAScript as UTF-8: one, two
    or three bytes. *)
Definition is_ws1 (a : ascii) : bool :=
  byte_in 9 13 a || byte_in 32 32 a.

Definition is_ws2 (a b : ascii) : bool :=
  byte_in 194 194 a && byte_in 160 160 b.                         (* U+00A0 *)

Definition is_ws3 (a b c : ascii) : bool :=
  (byte_in 225 225 a && byte_in 154 154 b && byte_in 128 128 c)   (* U+1680 *)
  || (byte_in 226 226 a && byte_in 128 128 b &&
      (byte_in 128 138 c || byte_in 168 169 c || byte_in 175 175 c))
                                       (* U+2000-200A, U+2028, U+2029, U+202F *)
  || (byte_in 226 226 a && byte_in 129 129 b && byte_in 159 159 c) (* U+205F *)
  || (byte_in 227 227 a && byte_in 128 128 b && byte_in 128 128 c) (* U+3000 *)
  || (byte_in 239 239 a && byte_in 187 187 b && byte_in 191 191 c). (* U+FEFF *)

(** Dropping leading white space; with [backwards] the string is read
    from its end, so the bytes of a character come in reverse. *)
Fixpoint strip_ws (backwards : bool) (s : string) : string :=
  match s with
  | EmptyString => EmptyString
  | String a r1 =>
      if is_ws1 a then strip_ws backwards r1
      else
        match r1 with
        | String b r2 =>
            if (if backwards then is_ws2 b a else is_ws2 a b) then strip_ws backwards r2
            else
              match r2 with
              | String c r3 =>
                  if (if backwards then is_ws3 c b a else is_ws3 a b c)
                  then strip_ws backwards r3
                  else s
              | EmptyString => s
              end
        | EmptyString => s
        end
  end.

Definition string_reverse (s : string) : string :=
  string_of_list_ascii (reverse (list_ascii_of_string s)).

(** [s.trim()] *)
Definition trim (s : string) : string :=
  strip_ws false (string_reverse (strip_ws true (string_reverse s))).

Definition deobfuscateWebhookUrl {D : Utf8Decoder} (encoded : string) : string :=
  let trimmed := trim encoded in
  if String.eqb trimmed "" || negb (BASE64_REGEX_test trimmed) then ""
  else Buffer_toString_utf8 (base64_decode trimmed).

(** A decoder that leaves its bytes as they are. *)
Definition plain_decoder : Utf8Decoder :=
  {| Buffer_toString_utf8 := fun s => s;
     Buffer_toString_utf8_valid := fun s _ => eq_refl |}.

(** A printable ASCII character other than the space. *)
Definition plain (c : ascii) : bool := byte_in 33 126 c.

(** ** Counting requests *)

(** [m] hands at most [n] requests to the HTTP client. *)
Definition at_most {A} (n : nat) (m : M A) : Prop :=
  forall st, (length (sent (m st).2) <= length (sent st) + n)%nat.

(** The first request of [fetchCnNews]. *)
Definition cn_first_request : Request :=
  {| req_url := "https://top.baidu.com/api/board?platform=wise&tab=realtime";
     req_method := "GET";
     req_headers := default_user_agent ++ [("Referer", "https://top.baidu.com/")];
     req_data := None;
     req_timeout := 8000 |}.

(** An engine of two sources and a cap of one query per source. *)
Definition two_sources_cap_one : Engine :=
  engine_of (Some {| p_sources := Some ["reddit"; "wikipedia"]; p_deduplicate := None;
                     p_mixStrategies := None; p_maxQueriesPerSource := Some 1;
                     p_cacheMinutes := None |}).

(** * Properties *)

(** ** Strings and values *)

Lemma utf16_units_nonneg c : 0 <= utf16_units c.
Proof. unfold utf16_units. repeat case_match; lia. Qed.

Lemma js_length_nonneg s : 0 <= js_length s.
Proof. induction s as [|c r IH]; simpl; [lia|]. pose proof (utf16_units_nonneg c). lia. Qed.

Lemma text_between_nonempty lo hi t : text_between lo hi t = true -> t <> "".
Proof.
  unfold text_between. intros H ->. simpl in H. discriminate.
Qed.

Lemma text_between_bounds lo hi t :
  text_between lo hi t = true -> lo < js_length t < hi.
Proof.
  unfold text_between. rewrite !andb_true_iff. intros [[_ H1] H2]. lia.
Qed.

Lemma mapM_option_ext {A B} (f g : A -> option B) (l : list A) :
  (forall x, x ∈ l -> f x = g x) -> mapM f l = mapM g l.
Proof.
  induction l as [|x l IH]; intros Hfg; [done|].
  simpl. rewrite (Hfg x) by left. rewrite IH; [done|].
  intros y Hy. apply Hfg. by right.
Qed.

Lemma depth_elem r x l : x ∈ l -> (depth x < depth (JArr r l))%nat.
Proof.
  simpl. induction 1 as [x l|x y l _ IH]; simpl; lia.
Qed.

Lemma depth_field r k fs :
  (depth (field k fs) < depth (JObj r fs))%nat \/ field k fs = JUndef.
Proof.
  induction fs as [|[k' v] fs IH]; [by right|].
  simpl. destruct (String.eqb k k').
  - left. lia.
  - destruct IH as [IH| ->]; [left|by right]. simpl in IH. lia.
Qed.

Lemma elem_of_js_flat x l :
  x ∈ js_flat l -> Forall (fun v => isArray v = true) l ->
  exists r e, JArr r e ∈ l /\ x ∈ e.
Proof.
  unfold js_flat. rewrite list_elem_of_In, in_flat_map.
  intros (v & Hv & Hx) Hall. rewrite <- list_elem_of_In in Hv.
  rewrite Forall_forall in Hall. specialize (Hall v Hv).
  destruct v; try discriminate. exists ref, elems. split; [done|].
  by apply list_elem_of_In.
Qed.

Lemma nestedArrays_depth entry nested x :
  nestedArrays entry = Some nested -> x ∈ nested -> (depth x < depth entry)%nat.
Proof.
  unfold nestedArrays. intros Hn Hx.
  destruct entry; simpl in Hn; simplify_eq; try (by apply elem_of_nil in Hx);
    try (repeat case_match; simplify_eq; simpl in Hx; by apply elem_of_nil in Hx).
  apply elem_of_js_flat in Hx as (r & e & He & Hx).
  2:{ apply Forall_forall. intros v Hv.
      by apply list_elem_of_filter in Hv as [Hv _]. }
  apply list_elem_of_filter in He as [_ He].
  assert (exists k, JArr r e = field k fields) as [k Hk].
  { repeat (apply elem_of_cons in He as [He|He]; [eauto|]). by apply elem_of_nil in He. }
  pose proof (depth_elem r x e Hx) as H1.
  destruct (depth_field ref k fields) as [H2|H2]; rewrite <- Hk in H2; [lia|discriminate].
Qed.

Lemma unwrap_fuel_enough f1 : forall f2 entry,
  (depth entry <= f1)%nat -> (depth entry <= f2)%nat ->
  unwrap_fuel f1 entry = unwrap_fuel f2 entry.
Proof.
  induction f1 as [|f1 IH]; intros f2 entry H1 H2.
  - destruct f2; [done|]. simpl.
    destruct (nestedArrays entry) as [[|x nested]|] eqn:Hn; simpl; try done.
    pose proof (nestedArrays_depth _ _ x Hn ltac:(left)). lia.
  - simpl. destruct (nestedArrays entry) as [[|x nested]|] eqn:Hn; simpl.
    + destruct f2; simpl; by rewrite Hn.
    + destruct f2 as [|f2].
      { pose proof (nestedArrays_depth _ _ x Hn ltac:(left)). lia. }
      simpl. rewrite Hn. simpl. unfold flatMapM.
      rewrite (mapM_option_ext (unwrap_fuel f1) (unwrap_fuel f2)); [done|].
      intros y Hy. pose proof (nestedArrays_depth _ _ y Hn Hy).
      apply IH; lia.
    + destruct f2; simpl; by rewrite Hn.
Qed.

(** [unwrapCnNewsContainer] satisfies the equation the source defines it
    by: an entry without nested arrays is kept, any other is replaced by
    its unwrapped members. *)
Lemma unwrapCnNewsContainer_eq entry :
  unwrapCnNewsContainer entry =
  nested ← nestedArrays entry;
  match nested with
  | [] => Some [entry]
  | _ :: _ => flatMapM unwrapCnNewsContainer nested
  end.
Proof.
  unfold unwrapCnNewsContainer.
  destruct (depth entry) as [|d] eqn:Hd; simpl;
    destruct (nestedArrays entry) as [[|x nested]|] eqn:Hn; simpl; try done.
  - pose proof (nestedArrays_depth _ _ x Hn ltac:(left)). lia.
  - unfold flatMapM.
    rewrite (mapM_option_ext (unwrap_fuel d) (fun e => unwrap_fuel (depth e) e)); [done|].
    intros y Hy. pose proof (nestedArrays_depth _ _ y Hn Hy).
    apply unwrap_fuel_enough; lia.
Qed.

(** ** Reasoning about computations *)

Section keeps_rules.
Context (R : St -> St -> Prop) `{!PreOrder R}.

Lemma keeps_ret {A} (a : A) : keeps R (ret a).
Proof. intros st. simpl. reflexivity. Qed.

Lemma keeps_throw {A} e : keeps R (@throw A e).
Proof. intros st. simpl. reflexivity. Qed.

Lemma keeps_gets {A} (f : St -> A) : keeps R (gets f).
Proof. intros st. simpl. reflexivity. Qed.

Lemma keeps_lift_js {A} (o : option A) : keeps R (lift_js o).
Proof. destruct o; [apply keeps_ret|apply keeps_throw]. Qed.

Lemma keeps_modify f : (forall st, R st (f st)) -> keeps R (modify f).
Proof. intros H st. apply H. Qed.

Lemma keeps_bind {A B} (m : M A) (k : A -> M B) :
  keeps R m -> (forall a, keeps R (k a)) -> keeps R (bind m k).
Proof.
  intros Hm Hk st. unfold bind. specialize (Hm st).
  destruct (m st) as [[a|e] st1]; simpl in *; [|done].
  etrans; [exact Hm|apply Hk].
Qed.

Lemma keeps_try_catch {A} (m : M A) (h : string -> M A) :
  keeps R m -> (forall e, keeps R (h e)) -> keeps R (try_catch m h).
Proof.
  intros Hm Hh st. unfold try_catch. specialize (Hm st).
  destruct (m st) as [[a|e] st1]; simpl in *; [done|].
  etrans; [exact Hm|apply Hh].
Qed.

Lemma keeps_when b m : keeps R m -> keeps R (when b m).
Proof. destruct b; [done|]. intros _. apply keeps_ret. Qed.
End keeps_rules.

Global Instance same_cache_preorder : PreOrder same_cache.
Proof. split; [done|]. intros a b c. unfold same_cache. congruence. Qed.

Global Instance same_sent_preorder : PreOrder same_sent.
Proof. split; [done|]. intros a b c. unfold same_sent. congruence. Qed.

Global Instance more_sent_preorder : PreOrder more_sent.
Proof.
  split.
  - intros a. unfold more_sent. reflexivity.
  - intros a b c. unfold more_sent. intros. by etrans.
Qed.

Lemma same_sent_more st st' : same_sent st st' -> more_sent st st'.
Proof. unfold same_sent, more_sent. by intros ->. Qed.

Lemma total_ret {A} (a : A) : total (ret a).
Proof. intros st. by eexists _, _. Qed.

Lemma total_gets {A} (f : St -> A) : total (gets f).
Proof. intros st. by eexists _, _. Qed.

Lemma total_modify f : total (modify f).
Proof. intros st. by eexists _, _. Qed.

Lemma total_when b m : total m -> total (when b m).
Proof. destruct b; [done|]. intros _. apply total_ret. Qed.

Lemma total_bind {A B} (m : M A) (k : A -> M B) :
  total m -> (forall a, total (k a)) -> total (bind m k).
Proof.
  intros Hm Hk st. unfold bind. destruct (Hm st) as (a & st1 & ->). apply Hk.
Qed.

Lemma total_try_catch {A} (m : M A) (h : string -> M A) :
  (forall e, total (h e)) -> total (try_catch m h).
Proof.
  intros Hh st. unfold try_catch.
  destruct (m st) as [[a|e] st1]; [by eexists _, _|apply Hh].
Qed.

Lemma on_val_ret {A} (a : A) (P : A -> Prop) : P a -> on_val (ret a) P.
Proof. intros H st a' st' [= <- _]. done. Qed.

Lemma on_val_throw {A} e (P : A -> Prop) : on_val (throw e) P.
Proof. intros st a st' [=]. Qed.

Lemma on_val_lift_js {A} (o : option A) (P : A -> Prop) :
  (forall a, o = Some a -> P a) -> on_val (lift_js o) P.
Proof. destruct o; intros H; [apply on_val_ret; auto|apply on_val_throw]. Qed.

Lemma on_val_bind {A B} (m : M A) (k : A -> M B) (P : B -> Prop) :
  (forall a, (exists st st', m st = (Val a, st')) -> on_val (k a) P) ->
  on_val (bind m k) P.
Proof.
  intros Hk st b st'. unfold bind.
  destruct (m st) as [[a|e] st1] eqn:Hm; [|done].
  apply Hk. eauto.
Qed.

Lemma on_val_try_catch {A} (m : M A) (h : string -> M A) (P : A -> Prop) :
  on_val m P -> (forall e, on_val (h e) P) -> on_val (try_catch m h) P.
Proof.
  intros Hm Hh st a st'. unfold try_catch.
  destruct (m st) as [[a'|e] st1] eqn:Hr.
  - intros [= <- _]. by eapply Hm.
  - apply Hh.
Qed.

Lemma lift_js_val {A} (o : option A) a : (exists st st', lift_js o st = (Val a, st')) -> o = Some a.
Proof.
  intros (st & st' & H). destruct o; unfold lift_js, ret, throw in H; by simplify_eq.
Qed.

(** A computation that is total and whose values satisfy [P] returns such
    a value from every state. *)
Lemma total_on_val {A} (m : M A) (P : A -> Prop) :
  total m -> on_val m P -> forall st, exists a st', m st = (Val a, st') /\ P a.
Proof.
  intros Ht Hv st. destruct (Ht st) as (a & st' & Hm). eauto.
Qed.

Create HintDb keeps.

Ltac keeps_tac :=
  repeat first
    [ progress intros
    | solve [eauto with keeps]
    | apply keeps_bind; [try typeclasses eauto| |]
    | apply keeps_try_catch; [try typeclasses eauto| |]
    | apply keeps_ret; try typeclasses eauto
    | apply keeps_throw; try typeclasses eauto
    | apply keeps_gets; try typeclasses eauto
    | apply keeps_lift_js; try typeclasses eauto
    | apply keeps_when; [try typeclasses eauto|]
    | solve [apply keeps_modify; done]
    | case_match ].

Section engine_facts.
Context {E : Env} (this : Engine).

Lemma keeps_log R `{!PreOrder R} source message level :
  (forall l st, R st (add_log l st)) -> keeps R (log this source message level).
Proof.
  intros H. unfold log. apply keeps_when; [done|]. apply keeps_modify. intros st. apply H.
Qed.

Lemma total_log source message level : total (log this source message level).
Proof. unfold log. apply total_when, total_modify. Qed.

Lemma log_same_cache source message level : keeps same_cache (log this source message level).
Proof. apply keeps_log; [apply _|done]. Qed.

Lemma log_same_sent source message level : keeps same_sent (log this source message level).
Proof. apply keeps_log; [apply _|done]. Qed.

Lemma log_more_sent source message level : keeps more_sent (log this source message level).
Proof. apply keeps_log; [apply _|]. intros. by apply same_sent_more. Qed.

Lemma draw_same_cache : keeps same_cache draw.
Proof. unfold draw. keeps_tac. Qed.

Lemma draw_same_sent : keeps same_sent draw.
Proof. unfold draw. keeps_tac. Qed.

Lemma shuffle_same_cache l : keeps same_cache (shuffle l).
Proof. unfold shuffle, draw. keeps_tac. Qed.

Lemma shuffle_same_sent l : keeps same_sent (shuffle l).
Proof. unfold shuffle, draw. keeps_tac. Qed.

Lemma fetchHttp_same_cache url headers timeout :
  keeps same_cache (fetchHttp this url headers timeout).
Proof.
  unfold fetchHttp. keeps_tac.
Qed.

Lemma fetchHttp_sends_one url headers timeout :
  sends_one (fetchHttp this url headers timeout).
Proof.
  intros st. eexists.
  unfold fetchHttp, try_catch, bind, gets, modify, log, when, throw, ret. cbn.
  destruct (httpClient _ _) as [?|[?|?]]; cbn; [destruct (has_logger this)|..]; reflexivity.
Qed.
End engine_facts.

(** ** Lists of queries *)

Lemma slice0_sublist {A} n (l : list A) : slice0 n l `sublist_of` l.
Proof. unfold slice0. case_match; apply sublist_take. Qed.

Lemma sublist_Forall {A} (P : A -> Prop) (l1 l2 : list A) :
  l1 `sublist_of` l2 -> Forall P l2 -> Forall P l1.
Proof.
  rewrite !Forall_forall. intros Hs H x Hx. apply H. by eapply elem_of_sublist.
Qed.

Lemma slice0_Forall {A} (P : A -> Prop) n l : Forall P l -> Forall P (slice0 n l).
Proof. intros H. eapply sublist_Forall; [apply slice0_sublist|done]. Qed.

Lemma slice0_NoDup {A} n (l : list A) : NoDup l -> NoDup (slice0 n l).
Proof. intros H. eapply sublist_NoDup; [done|apply slice0_sublist]. Qed.

Lemma slice0_length {A} n (l : list A) :
  0 <= n -> Z.of_nat (length (slice0 n l)) = Z.min n (Z.of_nat (length l)).
Proof.
  intros Hn. unfold slice0. destruct (n <? 0) eqn:Hlt; [lia|].
  rewrite length_take. lia.
Qed.

Lemma slice0_take {A} n (l : list A) : 0 <= n -> slice0 n l = take (Z.to_nat n) l.
Proof. intros Hn. unfold slice0. destruct (n <? 0) eqn:Hlt; [lia|done]. Qed.

Lemma flatMapM_Forall {A B} (P : B -> Prop) (f : A -> option (list B)) xs l :
  (forall x l', f x = Some l' -> Forall P l') ->
  flatMapM f xs = Some l -> Forall P l.
Proof.
  intros Hf. unfold flatMapM. revert l.
  induction xs as [|x xs IH]; intros l H; simpl in H.
  - by simplify_eq/=.
  - destruct (f x) as [lx|] eqn:Hx; simpl in H; [|done].
    destruct (mapM f xs) as [ls|] eqn:Hxs; simpl in *; [|done].
    simplify_eq/=. apply Forall_app. split; [by eapply Hf|]. by apply IH.
Qed.

Lemma omap_Forall {A B} (P : B -> Prop) (f : A -> option B) l :
  (forall x y, f x = Some y -> P y) -> Forall P (omap f l).
Proof.
  intros Hf. apply Forall_forall. intros y Hy.
  apply list_elem_of_omap in Hy as (x & _ & Hx). by eapply Hf.
Qed.

Section sets.
Context {A K : Type} `{EqDecision K} (key : A -> K).

Lemma Set_add_fold_keys k l : forall s,
  k ∈ key <$> foldl (Set_add key) s l <-> k ∈ key <$> s \/ k ∈ key <$> l.
Proof.
  induction l as [|y l IH]; intros s; simpl.
  - rewrite elem_of_nil. tauto.
  - rewrite IH. unfold Set_add. case_bool_decide as Hy.
    + rewrite elem_of_cons. split; [tauto|]. intros [?|[->|?]]; tauto.
    + rewrite fmap_app, elem_of_app. simpl.
      rewrite list_elem_of_singleton, elem_of_cons. tauto.
Qed.

Lemma new_Set_keys k l : k ∈ key <$> new_Set key l <-> k ∈ key <$> l.
Proof. unfold new_Set. rewrite Set_add_fold_keys. simpl. rewrite elem_of_nil. tauto. Qed.

Lemma Set_add_fold_elem x l : forall s,
  x ∈ foldl (Set_add key) s l -> x ∈ s \/ x ∈ l.
Proof.
  induction l as [|y l IH]; intros s; simpl; [tauto|].
  intros [Hx|Hx]%IH; [|right; by right].
  unfold Set_add in Hx. case_bool_decide; [by left|].
  apply elem_of_app in Hx as [Hx|Hx%list_elem_of_singleton]; [by left|].
  right. subst. left.
Qed.

Lemma elem_of_new_Set x l : x ∈ new_Set key l -> x ∈ l.
Proof.
  unfold new_Set. intros [Hx|Hx]%Set_add_fold_elem; [by apply elem_of_nil in Hx|done].
Qed.

Lemma Set_add_fold_NoDup l : forall s,
  NoDup (key <$> s) -> NoDup (key <$> foldl (Set_add key) s l).
Proof.
  induction l as [|y l IH]; intros s Hs; simpl; [done|].
  apply IH. unfold Set_add. case_bool_decide as Hy; [done|].
  rewrite fmap_app. apply NoDup_app. split_and!; [done| |apply NoDup_singleton].
  intros x Hx ->%list_elem_of_singleton. done.
Qed.

(** No two members of a set have the same key. *)
Lemma NoDup_new_Set_keys l : NoDup (key <$> new_Set key l).
Proof. apply Set_add_fold_NoDup. simpl. apply NoDup_nil_2. Qed.

Lemma NoDup_new_Set l : NoDup (new_Set key l).
Proof. eapply NoDup_fmap_1, NoDup_new_Set_keys. Qed.

Lemma new_Set_Forall (P : A -> Prop) l : Forall P l -> Forall P (new_Set key l).
Proof.
  rewrite !Forall_forall. intros H0 x Hx. apply H0. by apply elem_of_new_Set.
Qed.

Lemma new_Set_nil l : new_Set key l = [] -> l = [].
Proof.
  destruct l as [|x l]; [done|]. intros Hn.
  assert (key x ∈ key <$> new_Set key (x :: l)) as Hx.
  { apply new_Set_keys. simpl. left. }
  rewrite Hn in Hx. by apply elem_of_nil in Hx.
Qed.
End sets.

(** A set of strings, told apart by themselves. *)
Lemma elem_of_new_Set_id (x : string) l : x ∈ new_Set id l <-> x ∈ l.
Proof.
  split; [apply elem_of_new_Set|]. intros Hx.
  pose proof (new_Set_keys id (id x) l) as Hk. rewrite !list_fmap_id in Hk.
  by apply Hk.
Qed.

#[global] Instance identity_JStr_inj : Inj (=) (=) (identity ∘ JStr).
Proof. by intros s t [= ->]. Qed.

#[global] Instance JStr_inj : Inj (=) (=) JStr.
Proof. by intros s t [= ->]. Qed.

Lemma is_text_truthy v : is_text v -> is_truthy v.
Proof.
  intros (s & -> & Hs). unfold is_truthy. simpl.
  destruct (String.eqb_spec s ""); [done|reflexivity].
Qed.

Lemma Forall_text_of (P : string -> Prop) l : Forall P l <-> Forall (text_of P) (JStr <$> l).
Proof.
  rewrite Forall_fmap. split; intros Hl; (eapply Forall_impl; [exact Hl|]); intros s; simpl.
  - intros Hs. by exists s.
  - by intros (t & [= <-] & Ht).
Qed.

Lemma text_of_impl (P Q : string -> Prop) v :
  (forall s, P s -> Q s) -> text_of P v -> text_of Q v.
Proof. intros HPQ (s & -> & Hs). exists s. auto. Qed.

Lemma truthy_JStr s : is_truthy (JStr s) <-> nonempty s.
Proof.
  unfold is_truthy, nonempty. simpl. destruct (String.eqb_spec s ""); split; try done.
Qed.

Lemma Forall_truthy_JStr l : Forall nonempty l -> Forall is_truthy (JStr <$> l).
Proof. intros Hl. apply Forall_fmap. eapply Forall_impl; [done|]. intros s. apply truthy_JStr. Qed.

Lemma fallback_nonempty : Forall nonempty fallback.
Proof. unfold fallback. repeat constructor; discriminate. Qed.

Lemma fallback_NoDup : NoDup fallback.
Proof. apply (bool_decide_unpack _). vm_compute. exact I. Qed.

Lemma fallback_length : length fallback = 30%nat.
Proof. reflexivity. Qed.

(** ** What the adapters extract *)

Lemma filterM_spec {A} (f : A -> option bool) xs : forall l,
  filterM f xs = Some l -> Forall (fun x => f x = Some true) l /\ l `sublist_of` xs.
Proof.
  induction xs as [|x xs IH]; intros l Hl; simpl in Hl.
  - by simplify_eq.
  - destruct (f x) as [keep|] eqn:Hx; simpl in Hl; [|done].
    destruct (filterM f xs) as [kept|]; simpl in Hl; [|done].
    destruct (IH kept eq_refl) as [IH1 IH2]. simplify_eq.
    destruct keep.
    + split; [by constructor|by constructor].
    + split; [done|by constructor].
Qed.

Section extraction.
Context {E : Env}.

Lemma longer_than_truthy lo v : longer_than lo v = Some true -> is_truthy v.
Proof. unfold longer_than, is_truthy. by destruct (truthy v). Qed.

Lemma between_truthy lo hi v : between lo hi v = Some true -> is_truthy v.
Proof. unfold between, is_truthy. by destruct (truthy v). Qed.

Lemma trendQueries_truthy parsed l :
  trendQueries parsed = Some l -> Forall is_truthy l.
Proof.
  unfold trendQueries. intros H.
  destruct (prop parsed "default") as [dflt|]; simpl in H; [|done].
  destruct (prop dflt _) as [days0|]; simpl in H; [|done].
  destruct (iter _) as [days|]; simpl in H; [|done].
  eapply flatMapM_Forall; [|exact H]. clear. intros item l H. simpl in H.
  destruct (prop item _) as [s0|]; simpl in H; [|done].
  destruct (iter _) as [searches|]; simpl in H; [|done].
  eapply flatMapM_Forall; [|exact H]. clear. intros search l H. simpl in H.
  destruct (prop search _) as [title|]; simpl in H; [|done].
  simplify_eq. destruct (truthy _) eqn:Ht; constructor; [done|constructor].
Qed.

Lemma redditQueries_truthy parsed l :
  redditQueries parsed = Some l -> Forall is_truthy l.
Proof.
  unfold redditQueries. intros H.
  destruct (prop parsed "data") as [data|]; simpl in H; [|done].
  destruct (iter _) as [posts|]; simpl in H; [|done].
  eapply flatMapM_Forall; [|exact H]. clear. intros post l H. simpl in H.
  destruct (prop post _) as [pdata|]; simpl in H; [|done].
  destruct (between _ _ _) as [[|]|] eqn:Hb; simpl in H; simplify_eq; constructor;
    [|constructor].
  by eapply between_truthy.
Qed.

Lemma titles_longer_than_truthy lo xs l :
  titles_longer_than lo xs = Some l -> Forall is_truthy l.
Proof.
  unfold titles_longer_than. intros H.
  destruct (as_array xs) as [arr|]; simpl in H; [|done].
  destruct (mapM _ arr) as [titles|]; simpl in H; [|done].
  apply filterM_spec in H as [H _]. eapply Forall_impl; [exact H|].
  intros v. apply longer_than_truthy.
Qed.
End extraction.

Lemma cnNewsQueries_titles parsed l c i :
  cnNewsQueries parsed = Some (l, c, i) -> Forall cn_title l.
Proof.
  unfold cnNewsQueries. intros H.
  destruct (as_array _) as [cardList|]; simpl in H; [|done].
  destruct (flatMapM _ cardList) as [items|]; simpl in H; [|done].
  destruct (as_array _) as [combined|]; simpl in H; [|done].
  destruct (mapM _ combined) as [titles|]; simpl in H; [|done].
  simplify_eq. apply omap_Forall. intros [s|] y; [|done].
  destruct (text_between 2 100 s) eqn:Hb; [|done]. intros [= <-].
  split; [by eapply text_between_nonempty|by apply text_between_bounds].
Qed.

(** ** The adapters *)

Ltac total_tac :=
  repeat first
    [ progress intros
    | apply total_ret
    | apply total_gets
    | apply total_modify
    | apply total_log
    | apply total_try_catch
    | apply total_when
    | apply total_bind ].

Ltac on_val_tac :=
  repeat first
    [ apply on_val_try_catch; [|intros; apply on_val_ret; try constructor]
    | apply on_val_bind; intros ? ? ].

Section adapters.
Context {E : Env} (this : Engine).

Lemma fetchHttp_same_sent_more url headers timeout :
  keeps more_sent (fetchHttp this url headers timeout).
Proof.
  intros st. destruct (fetchHttp_sends_one this url headers timeout st) as [r Hr].
  unfold more_sent. rewrite Hr. by apply prefix_app_r.
Qed.

Lemma fetchHttp_sends url headers timeout : sends (fetchHttp this url headers timeout).
Proof.
  intros st. destruct (fetchHttp_sends_one this url headers timeout st) as [r Hr].
  rewrite Hr, length_app. simpl. lia.
Qed.

Lemma draw_more_sent : keeps more_sent draw.
Proof. intros st. apply same_sent_more, draw_same_sent. Qed.

Lemma shuffle_more_sent l : keeps more_sent (shuffle l).
Proof. intros st. apply same_sent_more, shuffle_same_sent. Qed.

Lemma parse_same_cache data : keeps same_cache (parse data).
Proof. unfold parse. keeps_tac. Qed.

Lemma parse_same_sent data : keeps same_sent (parse data).
Proof. unfold parse. keeps_tac. Qed.

Lemma parse_more_sent data : keeps more_sent (parse data).
Proof. intros st. apply same_sent_more, parse_same_sent. Qed.
End adapters.

#[export] Hint Resolve log_same_cache log_same_sent log_more_sent
  draw_same_cache draw_same_sent draw_more_sent
  shuffle_same_cache shuffle_same_sent shuffle_more_sent
  parse_same_cache parse_same_sent parse_more_sent
  fetchHttp_same_cache fetchHttp_same_sent_more : keeps.

Ltac keeps_auto := keeps_tac; eauto with keeps.

Lemma sends_bind_l {A B} (m : M A) (k : A -> M B) :
  sends m -> (forall a, keeps more_sent (k a)) -> sends (bind m k).
Proof.
  intros Hm Hk st. unfold bind. specialize (Hm st).
  destruct (m st) as [[a|e] st1]; simpl in *; [|done].
  specialize (Hk a st1). apply prefix_length in Hk. lia.
Qed.

Lemma sends_bind_r {A B} (m : M A) (k : A -> M B) :
  keeps more_sent m -> (forall a, sends (k a)) -> total m -> sends (bind m k).
Proof.
  intros Hm Hk Ht st. unfold bind. specialize (Hm st).
  destruct (Ht st) as (a & st1 & Heq). rewrite Heq in *. simpl in *.
  specialize (Hk a st1). apply prefix_length in Hm. lia.
Qed.

Lemma sends_try_catch {A} (m : M A) (h : string -> M A) :
  sends m -> (forall e, keeps more_sent (h e)) -> sends (try_catch m h).
Proof.
  intros Hm Hh st. unfold try_catch. specialize (Hm st).
  destruct (m st) as [[a|e] st1]; simpl in *; [done|].
  specialize (Hh e st1). apply prefix_length in Hh. lia.
Qed.

Lemma sends_one_bind_l {A B} (m : M A) (k : A -> M B) :
  sends_one m -> (forall a, keeps same_sent (k a)) -> sends_one (bind m k).
Proof.
  intros Hm Hk st. unfold bind. destruct (Hm st) as [r Hr]. exists r.
  destruct (m st) as [[a|e] st1]; simpl in *; [|done].
  rewrite <- Hr. apply Hk.
Qed.

Lemma sends_one_bind_r {A B} (m : M A) (k : A -> M B) :
  keeps same_sent m -> (forall a, sends_one (k a)) -> total m -> sends_one (bind m k).
Proof.
  intros Hm Hk Ht st. unfold bind. specialize (Hm st).
  destruct (Ht st) as (a & st1 & Heq). rewrite Heq in *. simpl in *.
  destruct (Hk a st1) as [r Hr]. exists r. rewrite Hr. by rewrite Hm.
Qed.

Lemma sends_one_try_catch {A} (m : M A) (h : string -> M A) :
  sends_one m -> (forall e, keeps same_sent (h e)) -> sends_one (try_catch m h).
Proof.
  intros Hm Hh st. unfold try_catch. destruct (Hm st) as [r Hr]. exists r.
  destruct (m st) as [[a|e] st1]; simpl in *; [done|].
  rewrite <- Hr. apply Hh.
Qed.

Section adapter_facts.
Context {E : Env} (this : Engine).

Lemma total_draw : total draw.
Proof. unfold draw. total_tac. Qed.

Lemma total_shuffle l : total (shuffle l).
Proof. unfold shuffle. total_tac. Qed.

(** *** Trends *)

Lemma fetchGoogleTrends_total : total (fetchGoogleTrends this).
Proof. unfold fetchGoogleTrends. total_tac. Qed.

Lemma fetchGoogleTrends_same_cache : keeps same_cache (fetchGoogleTrends this).
Proof. unfold fetchGoogleTrends. keeps_auto. Qed.

Lemma fetchGoogleTrends_sends_one : sends_one (fetchGoogleTrends this).
Proof.
  unfold fetchGoogleTrends. apply sends_one_try_catch; [|intros; keeps_auto].
  apply sends_one_bind_l; [apply fetchHttp_sends_one|]. intros; keeps_auto.
Qed.

Lemma fetchGoogleTrends_truthy : on_val (fetchGoogleTrends this) (Forall is_truthy).
Proof.
  unfold fetchGoogleTrends. on_val_tac. apply on_val_ret.
  apply slice0_Forall. eapply trendQueries_truthy, lift_js_val. eassumption.
Qed.

(** *** Social feed *)

Lemma fetchReddit_total : total (fetchReddit this).
Proof. unfold fetchReddit. total_tac. Qed.

Lemma fetchReddit_same_cache : keeps same_cache (fetchReddit this).
Proof. unfold fetchReddit, parse. keeps_auto. Qed.

Lemma fetchReddit_sends_one : sends_one (fetchReddit this).
Proof.
  unfold fetchReddit, parse. apply sends_one_try_catch; [|intros; keeps_auto].
  apply sends_one_bind_r; [auto with keeps| |apply total_draw]. intros k.
  apply sends_one_bind_l; [apply fetchHttp_sends_one|]. intros; keeps_auto.
Qed.

Lemma fetchReddit_truthy : on_val (fetchReddit this) (Forall is_truthy).
Proof.
  unfold fetchReddit. on_val_tac. apply on_val_lift_js. intros l.
  apply redditQueries_truthy.
Qed.

(** *** News *)

Lemma fetchNewsFallback_total : total (fetchNewsFallback this).
Proof. unfold fetchNewsFallback. total_tac. Qed.

Lemma fetchNewsFallback_same_cache : keeps same_cache (fetchNewsFallback this).
Proof. unfold fetchNewsFallback. keeps_auto. Qed.

Lemma fetchNewsFallback_more_sent : keeps more_sent (fetchNewsFallback this).
Proof. unfold fetchNewsFallback. keeps_auto. Qed.

Lemma fetchNewsFallback_sends : sends (fetchNewsFallback this).
Proof.
  unfold fetchNewsFallback. apply sends_try_catch; [|intros; keeps_auto].
  apply sends_bind_l; [apply fetchHttp_sends|]. intros; keeps_auto.
Qed.

Lemma fetchNewsFallback_truthy : on_val (fetchNewsFallback this) (Forall is_truthy).
Proof.
  unfold fetchNewsFallback. on_val_tac. apply on_val_ret.
  apply Forall_truthy_JStr, slice0_Forall, Forall_forall.
  intros t [Ht _]%list_elem_of_filter.
  by eapply text_between_nonempty.
Qed.

Lemma fetchNews_total : total (fetchNews this).
Proof. unfold fetchNews. apply total_try_catch. intros. apply fetchNewsFallback_total. Qed.

Lemma fetchNews_same_cache : keeps same_cache (fetchNews this).
Proof.
  unfold fetchNews, parse. keeps_auto; apply fetchNewsFallback_same_cache.
Qed.

Lemma fetchNews_sends : sends (fetchNews this).
Proof.
  unfold fetchNews, parse.
  apply sends_try_catch; [|intros; apply fetchNewsFallback_more_sent].
  repeat case_match; try apply fetchNewsFallback_sends.
  apply sends_bind_l; [apply fetchHttp_sends|]. intros; keeps_auto.
Qed.

Lemma fetchNews_truthy : on_val (fetchNews this) (Forall is_truthy).
Proof.
  unfold fetchNews.
  apply on_val_try_catch; [|intros; apply fetchNewsFallback_truthy].
  repeat case_match; try apply fetchNewsFallback_truthy.
  on_val_tac. apply on_val_lift_js. intros l. apply titles_longer_than_truthy.
Qed.

(** *** Regional hot topics *)

Lemma extractCnNewsFromJson_total data : total (extractCnNewsFromJson this data).
Proof. unfold extractCnNewsFromJson. total_tac. Qed.

Lemma extractCnNewsFromJson_same_cache data :
  keeps same_cache (extractCnNewsFromJson this data).
Proof. unfold extractCnNewsFromJson, parse. keeps_auto. Qed.

Lemma extractCnNewsFromJson_same_sent data :
  keeps same_sent (extractCnNewsFromJson this data).
Proof. unfold extractCnNewsFromJson, parse. keeps_auto. Qed.

Lemma extractCnNewsFromJson_titles data :
  on_val (extractCnNewsFromJson this data) (Forall cn_title).
Proof.
  unfold extractCnNewsFromJson. on_val_tac.
  destruct a0 as [[l c] i]. on_val_tac. apply on_val_ret.
  eapply cnNewsQueries_titles, lift_js_val. eassumption.
Qed.

Lemma extractCnNewsFromHtml_titles html : Forall cn_title (extractCnNewsFromHtml html).
Proof.
  unfold extractCnNewsFromHtml. apply new_Set_Forall, Forall_app.
  split; apply Forall_forall; intros t [Ht _]%list_elem_of_filter;
    (split; [by eapply text_between_nonempty|by apply text_between_bounds]).
Qed.

Lemma cnNewsEndpoints_same_cache endpoints :
  keeps same_cache (cnNewsEndpoints this endpoints).
Proof.
  induction endpoints as [|e rest IH]; simpl; keeps_auto.
Qed.

Lemma cnNewsEndpoints_more_sent endpoints :
  keeps more_sent (cnNewsEndpoints this endpoints).
Proof.
  induction endpoints as [|e rest IH]; simpl; keeps_auto.
Qed.

Lemma cnNewsEndpoints_titles endpoints :
  on_val (cnNewsEndpoints this endpoints)
    (fun found => forall l, found = Some l -> Forall cn_title l).
Proof.
  induction endpoints as [|e rest IH]; simpl.
  - by apply on_val_ret.
  - apply on_val_bind. intros data _. apply on_val_bind. intros l (st & st' & Hl).
    apply extractCnNewsFromJson_titles in Hl.
    case_match; [|done]. apply on_val_ret. intros ? [= <-]. by apply slice0_Forall.
Qed.

Lemma fetchCnNews_total : total (fetchCnNews this).
Proof. unfold fetchCnNews. total_tac. Qed.

Lemma fetchCnNews_same_cache : keeps same_cache (fetchCnNews this).
Proof.
  pose proof cnNewsEndpoints_same_cache. unfold fetchCnNews. keeps_auto.
Qed.

Lemma fetchCnNews_sends : sends (fetchCnNews this).
Proof.
  unfold fetchCnNews. apply sends_try_catch; [|intros; keeps_auto].
  apply sends_bind_l; [|intros; keeps_auto].
  pose proof cnNewsEndpoints_more_sent.
  simpl. apply sends_bind_l; [apply fetchHttp_sends|]. intros. keeps_auto.
Qed.

Lemma fetchCnNews_titles : on_val (fetchCnNews this) (Forall (text_of cn_title)).
Proof.
  unfold fetchCnNews. apply on_val_try_catch.
  - apply on_val_bind. intros found (st & st' & Hf).
    apply cnNewsEndpoints_titles in Hf. destruct found as [l|].
    + apply on_val_ret. apply Forall_text_of. by apply Hf.
    + on_val_tac. apply on_val_ret.
      apply Forall_text_of, slice0_Forall, extractCnNewsFromHtml_titles.
  - intros. on_val_tac. by apply on_val_ret.
Qed.

Lemma cn_titles_nonempty l : Forall cn_title l -> Forall nonempty l.
Proof. intros H. eapply Forall_impl; [exact H|]. by intros s [? _]. Qed.

Lemma cn_titles_truthy l : Forall (text_of cn_title) l -> Forall is_truthy l.
Proof.
  intros H. eapply Forall_impl; [exact H|]. intros v Hv.
  apply is_text_truthy. eapply text_of_impl; [|exact Hv]. by intros s [? _].
Qed.

Lemma fetchCnNews_truthy : on_val (fetchCnNews this) (Forall is_truthy).
Proof. intros st l st' H. eapply cn_titles_truthy, fetchCnNews_titles, H. Qed.

(** *** Encyclopedia *)

Lemma fetchWikipedia_total : total (fetchWikipedia this).
Proof. unfold fetchWikipedia. total_tac. Qed.

Lemma fetchWikipedia_same_cache : keeps same_cache (fetchWikipedia this).
Proof. unfold fetchWikipedia, parse. keeps_auto. Qed.

Lemma fetchWikipedia_sends_one : sends_one (fetchWikipedia this).
Proof.
  unfold fetchWikipedia, parse. apply sends_one_try_catch; [|intros; keeps_auto].
  apply sends_one_bind_l; [apply fetchHttp_sends_one|]. intros; keeps_auto.
Qed.

Lemma fetchWikipedia_truthy : on_val (fetchWikipedia this) (Forall is_truthy).
Proof.
  unfold fetchWikipedia. on_val_tac. apply on_val_lift_js. intros l.
  apply titles_longer_than_truthy.
Qed.

(** *** Local fallback *)

Lemma getLocalFallback_run count st :
  getLocalFallback count st =
  (Val (slice0 count (shuffleArray (draws st) (JStr <$> fallback))), add_draw st).
Proof. reflexivity. Qed.

Lemma shuffled_fallback_text n :
  Forall is_text (shuffleArray n (JStr <$> fallback)).
Proof.
  rewrite shuffleArray_perm. apply (Forall_text_of nonempty), fallback_nonempty.
Qed.

Lemma shuffled_fallback_truthy n :
  Forall is_truthy (shuffleArray n (JStr <$> fallback)).
Proof.
  eapply Forall_impl; [apply shuffled_fallback_text|]. apply is_text_truthy.
Qed.

Lemma shuffled_fallback_distinct n :
  NoDup (identity <$> shuffleArray n (JStr <$> fallback)).
Proof.
  rewrite shuffleArray_perm, <- list_fmap_compose.
  apply (NoDup_fmap_2 (identity ∘ JStr)), fallback_NoDup.
Qed.

Lemma shuffled_fallback_NoDup n : NoDup (shuffleArray n (JStr <$> fallback)).
Proof. eapply NoDup_fmap_1, shuffled_fallback_distinct. Qed.

Lemma shuffled_fallback_members n :
  Forall (fun q => q ∈ JStr <$> fallback) (shuffleArray n (JStr <$> fallback)).
Proof.
  apply Forall_forall. intros q Hq. by rewrite shuffleArray_perm in Hq.
Qed.

Lemma shuffled_fallback_length n :
  length (shuffleArray n (JStr <$> fallback)) = 30%nat.
Proof. by rewrite shuffleArray_perm, length_fmap. Qed.
End adapter_facts.

(** ** The per-source lookup *)

Section lookup_facts.
Context {E : Env} (this : Engine).

Lemma evict_lookup st k e :
  cache (evict st) !! k = Some e <-> cache st !! k = Some e /\ clock st < expires e.
Proof. unfold evict. simpl. by rewrite map_lookup_filter_Some. Qed.

Lemma cache_hit_spec source st q :
  cache_hit source st = Some q <->
  exists e, cache st !! source = Some e /\ clock st < expires e /\ queries e = q.
Proof.
  unfold cache_hit. destruct (cache st !! source) as [e|].
  - destruct (Z.ltb_spec (clock st) (expires e)) as [Hlt|Hge]; split.
    + intros [= <-]. by exists e.
    + by intros (e' & [= <-] & _ & <-).
    + done.
    + intros (e' & [= <-] & Hlt & _). lia.
  - split; [done|]. by intros (e & ? & _).
Qed.

Lemma cache_hit_evict source st : cache_hit source (evict st) = cache_hit source st.
Proof.
  apply option_eq. intros q. rewrite !cache_hit_spec.
  split; intros (e & He & Hlt & Hq); exists e.
  - apply evict_lookup in He as [He _]. done.
  - split_and!; [|done..]. apply evict_lookup. done.
Qed.

Lemma cache_inv_evict st : cache_inv st -> cache_inv (evict st).
Proof. intros H k e [He _]%evict_lookup. by apply H. Qed.

Lemma cache_inv_same st st' : cache st' = cache st -> cache_inv st -> cache_inv st'.
Proof. unfold cache_inv. by intros ->. Qed.

Lemma cache_inv_store source found st :
  source ∈ recognized -> found <> [] -> Forall is_truthy found ->
  (source = "local-fallback" ->
   exists n, found = slice0 20 (shuffleArray n (JStr <$> fallback))) ->
  cache_inv st -> cache_inv (store this source found st).
Proof.
  intros Hs Hne Hall Hloc H k e. unfold store. simpl.
  rewrite lookup_insert. case_decide as Hk.
  - intros [= <-]. subst k. done.
  - apply H.
Qed.

Lemma dispatch_local st :
  dispatch this "local-fallback" st =
  (Val (slice0 20 (shuffleArray (draws st) (JStr <$> fallback))), add_draw st).
Proof. reflexivity. Qed.

Lemma dispatch_unknown source :
  source ∉ recognized ->
  dispatch this source =
  (let* _ := log this "QUERY-DIVERSITY" ("Unknown source: " +:+ source) LWarn in ret []).
Proof.
  intros Hs. unfold dispatch.
  repeat match goal with
         | |- context [String.eqb source ?k] =>
             destruct (String.eqb_spec source k) as [->|_];
             [exfalso; apply Hs, list_elem_of_In; simpl; tauto|]
         end.
  done.
Qed.

(** The cases of the [switch]. *)
Lemma dispatch_cases (P : string -> M (list jsval) -> Prop) :
  P "google-trends" (fetchGoogleTrends this) ->
  P "reddit" (fetchReddit this) ->
  P "news" (fetchNews this) ->
  P "cn-news" (fetchCnNews this) ->
  P "wikipedia" (fetchWikipedia this) ->
  P "local-fallback" (getLocalFallback 20) ->
  (forall source, source ∉ recognized ->
     P source (let* _ := log this "QUERY-DIVERSITY" ("Unknown source: " +:+ source) LWarn in
               ret [])) ->
  forall source, P source (dispatch this source).
Proof.
  intros H1 H2 H3 H4 H5 H6 H7 source.
  destruct (decide (source ∈ recognized)) as [Hs|Hs].
  - unfold recognized in Hs.
    repeat (apply elem_of_cons in Hs as [->|Hs]; [done|]). by apply elem_of_nil in Hs.
  - rewrite dispatch_unknown by done. by apply H7.
Qed.

Lemma dispatch_total source : total (dispatch this source).
Proof.
  revert source. apply (dispatch_cases (fun _ m => total m)); intros;
    auto using fetchGoogleTrends_total, fetchReddit_total, fetchNews_total,
      fetchCnNews_total, fetchWikipedia_total.
  - unfold getLocalFallback, shuffle, draw. total_tac.
  - total_tac.
Qed.

Lemma dispatch_same_cache source : keeps same_cache (dispatch this source).
Proof.
  revert source. apply (dispatch_cases (fun _ m => keeps same_cache m)); intros;
    auto using fetchGoogleTrends_same_cache, fetchReddit_same_cache, fetchNews_same_cache,
      fetchCnNews_same_cache, fetchWikipedia_same_cache.
  - unfold getLocalFallback. keeps_auto.
  - keeps_auto.
Qed.

Lemma dispatch_truthy source : on_val (dispatch this source) (Forall is_truthy).
Proof.
  revert source. apply (dispatch_cases (fun _ m => on_val m (Forall is_truthy))); intros;
    auto using fetchGoogleTrends_truthy, fetchReddit_truthy, fetchNews_truthy,
      fetchCnNews_truthy, fetchWikipedia_truthy.
  - intros st l st'. rewrite getLocalFallback_run. intros [= <- _].
    apply slice0_Forall, shuffled_fallback_truthy.
  - on_val_tac. by apply on_val_ret.
Qed.

Lemma dispatch_recognized source :
  on_val (dispatch this source) (fun found => found <> [] -> source ∈ recognized).
Proof.
  revert source.
  apply (dispatch_cases
           (fun source m => on_val m (fun found => found <> [] -> source ∈ recognized)));
    intros; try (intros st l st' _ _; apply list_elem_of_In; simpl; tauto).
  on_val_tac. by apply on_val_ret.
Qed.

Lemma sends_one_sends {A} (m : M A) : sends_one m -> sends m.
Proof.
  intros Hm st. destruct (Hm st) as [r ->]. rewrite length_app. simpl. lia.
Qed.

Lemma dispatch_sends source : source ∈ remote -> sends (dispatch this source).
Proof.
  intros Hs. unfold remote in Hs.
  repeat (apply elem_of_cons in Hs as [->|Hs]); [..|by apply elem_of_nil in Hs].
  - apply sends_one_sends, fetchGoogleTrends_sends_one.
  - apply sends_one_sends, fetchReddit_sends_one.
  - apply fetchNews_sends.
  - apply fetchCnNews_sends.
  - apply sends_one_sends, fetchWikipedia_sends_one.
Qed.

(** A lookup answered from the cache. *)
Lemma getFromSource_hit source st q :
  cache_hit source st = Some q ->
  getFromSource this source st = (Val q, evict st).
Proof.
  intros H. unfold getFromSource, cleanExpiredCache, bind, modify, gets. simpl.
  by rewrite cache_hit_evict, H.
Qed.

(** A lookup that goes to the adapter. *)
Lemma getFromSource_miss source st found st1 :
  cache_hit source st = None ->
  dispatch this source (evict st) = (Val found, st1) ->
  getFromSource this source st = (Val found, settle this source found st1).
Proof.
  intros H Hd. unfold getFromSource, cleanExpiredCache, bind, modify, gets. simpl.
  rewrite cache_hit_evict, H, Hd. unfold settle, when, log, when, modify, cache_store, modify, ret.
  destruct found as [|q found]; simpl; [by destruct (has_logger this)|done].
Qed.
End lookup_facts.

(** ** Interleaving *)

(** Past the last chunk, with the source index back at zero, the loop
    keeps nothing. *)
Lemma interleave_loop_past c n t rest : forall i acc,
  1 <= c -> 1 <= n -> n * c <= i ->
  interleave_loop c n t rest i 0 acc = acc.
Proof.
  induction rest as [|q rest IH]; intros i acc Hc Hn Hi; simpl; [done|].
  destruct (Z.of_nat (length acc) <? t); [|done].
  assert (c <= i) by nia.
  replace (i <? 0 * c + c) with false by lia.
  replace (i =? 0 * c + c - 1) with false by lia.
  rewrite andb_false_r. apply IH; lia.
Qed.

(** Inside the chunk of the current source index, the loop keeps every
    truthy query up to the end of the last chunk, until it has
    [t] of them. *)
Lemma interleave_loop_within c n t rest : forall i sourceIndex acc,
  1 <= c -> 0 <= sourceIndex < n ->
  sourceIndex * c <= i < sourceIndex * c + c ->
  interleave_loop c n t rest i sourceIndex acc =
  (acc ++ take (Z.to_nat (t - Z.of_nat (length acc)))
            (filter is_truthy (take (Z.to_nat (n * c - i)) rest)))%list.
Proof.
  induction rest as [|q rest IH]; intros i si acc Hc Hsi Hi; simpl.
  { by rewrite take_nil, filter_nil, take_nil, app_nil_r. }
  destruct (Z.ltb_spec (Z.of_nat (length acc)) t) as [Hlt|Hge].
  2:{ replace (Z.to_nat (t - Z.of_nat (length acc))) with O by lia.
      by rewrite take_0, app_nil_r. }
  replace (si * c <=? i) with true by lia.
  replace (i <? si * c + c) with true by lia.
  rewrite !andb_true_r.
  assert (i < n * c) by nia.
  replace (Z.to_nat (n * c - i)) with (S (Z.to_nat (n * c - (i + 1)))) by lia.
  rewrite firstn_cons.
  assert (forall acc',
            interleave_loop c n t rest (i + 1)
              (if i =? si * c + c - 1 then (si + 1) mod n else si) acc' =
            (acc' ++ take (Z.to_nat (t - Z.of_nat (length acc')))
                       (filter is_truthy (take (Z.to_nat (n * c - (i + 1))) rest)))%list)
    as Hnext.
  { intros acc'. destruct (Z.eqb_spec i (si * c + c - 1)) as [Hend|Hmid].
    - destruct (decide (si + 1 = n)) as [Hlast|Hmore].
      + rewrite Hlast, Z_mod_same_full.
        rewrite interleave_loop_past by nia.
        replace (Z.to_nat (n * c - (i + 1))) with O by nia.
        by rewrite take_0, filter_nil, take_nil, app_nil_r.
      + rewrite Z.mod_small by lia. apply IH; nia.
    - apply IH; lia. }
  rewrite Hnext. clear Hnext IH.
  destruct (truthy q) eqn:Hq; simpl.
  2:{ rewrite filter_cons_False; [done|]. unfold is_truthy. by rewrite Hq. }
  - rewrite filter_cons_True by done. rewrite length_app. simpl.
    rewrite <- app_assoc. simpl.
    replace (Z.to_nat (t - Z.of_nat (length acc)))
      with (S (Z.to_nat (t - Z.of_nat (length acc + 1)))) by lia.
    done.
Qed.

(** What [interleaveQueries] computes: the truthy queries among the
    first [sources.length * maxQueriesPerSource], cut at the target. *)
Lemma interleaveQueries_spec this all t :
  1 <= maxQueriesPerSource (config this) ->
  (1 <= length (sources (config this)))%nat ->
  0 <= t ->
  interleaveQueries this all t =
  take (Z.to_nat t)
    (filter is_truthy
       (take (length (sources (config this)) * Z.to_nat (maxQueriesPerSource (config this)))
          all)).
Proof.
  intros Hc Hn Ht. unfold interleaveQueries.
  destruct (Z.eqb_spec (Z.of_nat (length (sources (config this)))) 0) as [?|_]; [lia|].
  simpl. destruct all as [|q all].
  { simpl. rewrite slice0_take by done. rewrite !take_nil, filter_nil. by rewrite take_nil. }
  replace (Z.of_nat (length (q :: all)) =? 0) with false by (simpl; lia).
  rewrite interleave_loop_within by lia. simpl app.
  rewrite slice0_take by done. rewrite take_take. simpl length.
  replace (Z.to_nat t `min` Z.to_nat (t - Z.of_nat 0))%nat with (Z.to_nat t) by lia.
  do 3 f_equal. lia.
Qed.

Lemma interleaveQueries_sublist this all t : interleaveQueries this all t `sublist_of` all.
Proof.
  assert (forall c n rest i si acc,
            exists kept, interleave_loop c n t rest i si acc = (acc ++ kept)%list /\
                         kept `sublist_of` rest) as Hloop.
  { intros c n rest. induction rest as [|q rest IH]; intros i si acc; simpl.
    - exists []. by rewrite app_nil_r.
    - destruct (_ <? t).
      2:{ exists []. rewrite app_nil_r. split; [done|]. apply sublist_nil_l. }
      match goal with
      | |- context [interleave_loop c n t rest ?i' ?si' ?acc'] =>
          destruct (IH i' si' acc') as (kept & -> & Hk)
      end.
      destruct (truthy _ && _ && _).
      + exists (q :: kept). rewrite <- app_assoc. split; [done|]. by apply sublist_skip.
      + exists kept. split; [done|]. by apply sublist_cons. }
  unfold interleaveQueries. destruct (_ || _); [apply slice0_sublist|].
  etrans; [apply slice0_sublist|].
  destruct (Hloop (maxQueriesPerSource (config this))
              (Z.of_nat (length (sources (config this)))) all 0 0 [])
    as (kept & -> & Hk).
  done.
Qed.

Lemma concat_chunks {A} (c : Z) (l : list A) (n : nat) :
  concat (chunk c l <$> seq 0 n) = take (n * Z.to_nat c) l.
Proof.
  induction n as [|n IH]; [by rewrite take_0|].
  rewrite seq_S, fmap_app, concat_app, IH. simpl. rewrite app_nil_r.
  unfold chunk. rewrite take_take_drop. f_equal. lia.
Qed.

Lemma filter_truthy_id l : Forall is_truthy l -> filter is_truthy l = l.
Proof.
  induction 1 as [|q l Hq _ IH]; [done|].
  by rewrite filter_cons_True, IH.
Qed.

(** ** The constructor *)

Lemma constructor_maxQueriesPerSource p : 1 <= maxQueriesPerSource (constructor p) <= 50.
Proof. simpl. lia. Qed.

Lemma constructor_cacheMinutes p : 1 <= cacheMinutes (constructor p) <= 1440.
Proof. simpl. lia. Qed.

Lemma constructor_sources p : sources (constructor p) <> [].
Proof.
  simpl. destruct (p ≫= p_sources) as [[|s l]|]; simpl; done.
Qed.

(** ** The aggregator *)

Section aggregator_facts.
Context {E : Env} (this : Engine).

Lemma getFromSource_ok source st :
  cache_inv st ->
  exists l st', getFromSource this source st = (Val l, st') /\
    Forall is_truthy l /\ cache_inv st' /\
    (source = "local-fallback" -> exists n, l = slice0 20 (shuffleArray n (JStr <$> fallback))).
Proof.
  intros Hinv. destruct (cache_hit source st) as [q|] eqn:Hhit.
  - rewrite (getFromSource_hit _ _ _ _ Hhit). exists q, (evict st).
    apply cache_hit_spec in Hhit as (e & He & _ & <-).
    destruct (Hinv _ _ He) as (_ & _ & Hall & Hloc).
    split_and!; [done|done|by apply cache_inv_evict|done].
  - destruct (dispatch_total this source (evict st)) as (found & st1 & Hd).
    rewrite (getFromSource_miss _ _ _ _ _ Hhit Hd). exists found, (settle this source found st1).
    pose proof (dispatch_truthy this source _ _ _ Hd) as Hne.
    pose proof (dispatch_recognized this source _ _ _ Hd) as Hrec.
    pose proof (dispatch_same_cache this source (evict st)) as Hc.
    rewrite Hd in Hc. simpl in Hc.
    assert (source = "local-fallback" ->
            exists n, found = slice0 20 (shuffleArray n (JStr <$> fallback))) as Hloc.
    { intros ->. rewrite dispatch_local in Hd. simplify_eq. eauto. }
    assert (cache_inv st1) as Hinv1.
    { eapply cache_inv_same; [exact Hc|]. by apply cache_inv_evict. }
    split_and!; [done|done| |done].
    unfold settle. destruct found as [|q found]; simpl.
    + destruct (has_logger this); [|done]. by apply (cache_inv_same st1).
    + apply cache_inv_store; auto.
Qed.

Lemma collect_cons lookup sourceName rest acc st :
  collect this lookup (sourceName :: rest) acc st =
  match lookup sourceName st with
  | (Val found, st1) =>
      collect this lookup rest
        (acc ++ slice0 (maxQueriesPerSource (config this)) found)%list st1
  | (Thrown e, st1) =>
      collect this lookup rest acc
        (log this "QUERY-DIVERSITY"
           ("Failed to fetch from " +:+ sourceName +:+ ": " +:+ e) LWarn st1).2
  end.
Proof.
  simpl. unfold bind at 1. unfold try_catch, bind at 1.
  destruct (lookup sourceName st) as [[found|e] st1]; [done|].
  unfold bind, log, when, modify, ret. by destruct (has_logger this).
Qed.

(** The loop over the sources never throws, whatever the lookups do. *)
Lemma collect_total lookup names : forall acc, total (collect this lookup names acc).
Proof.
  induction names as [|s rest IH]; intros acc st.
  - by eexists _, _.
  - rewrite collect_cons. destruct (lookup s st) as [[found|e] st1]; apply IH.
Qed.

Lemma collect_length lookup names :
  0 <= maxQueriesPerSource (config this) -> forall acc,
  on_val (collect this lookup names acc)
    (fun l => (length l <= length acc +
                 length names * Z.to_nat (maxQueriesPerSource (config this)))%nat).
Proof.
  intros Hq. induction names as [|s rest IH]; intros acc st l st'.
  - intros [= <- _]. simpl. lia.
  - rewrite collect_cons. destruct (lookup s st) as [[found|e] st1]; intros H.
    + apply IH in H. rewrite length_app in H.
      assert (length (slice0 (maxQueriesPerSource (config this)) found)
              <= Z.to_nat (maxQueriesPerSource (config this)))%nat.
      { rewrite slice0_take by done. rewrite length_take. lia. }
      simpl. lia.
    + apply IH in H. simpl. lia.
Qed.

Lemma collect_ok names : forall acc st,
  cache_inv st -> Forall is_truthy acc ->
  exists l st', collect this (getFromSource this) names acc st = (Val l, st') /\
    Forall is_truthy l /\ cache_inv st'.
Proof.
  induction names as [|s rest IH]; intros acc st Hinv Hacc.
  - by eexists _, _.
  - rewrite collect_cons.
    destruct (getFromSource_ok s st Hinv) as (found & st1 & -> & Hne & Hinv1 & _).
    apply IH; [done|]. apply Forall_app. split; [done|]. by apply slice0_Forall.
Qed.

Lemma arrange_sublist validCount all :
  deduplicate (config this) = false -> arrange this validCount all `sublist_of` all.
Proof.
  intros Hd. unfold arrange. rewrite Hd.
  destruct (_ && _); [apply interleaveQueries_sublist|done].
Qed.

Lemma elem_of_arrange validCount all q : q ∈ arrange this validCount all -> q ∈ all.
Proof.
  unfold arrange. intros Hq.
  assert (q ∈ (if deduplicate (config this) then new_Set identity all else all)) as Hq'.
  { destruct (_ && _); [|done]. eapply elem_of_sublist; [exact Hq|].
    apply interleaveQueries_sublist. }
  destruct (deduplicate (config this)); [by eapply elem_of_new_Set|done].
Qed.

Lemma finish_run validCount all st :
  finish this validCount all st =
  let final := slice0 validCount (shuffleArray (draws st) (arrange this validCount all)) in
  if Z.of_nat (length final) =? 0
  then (Val (slice0 validCount (shuffleArray (S (draws st)) (JStr <$> fallback))),
        add_draw (log this "QUERY-DIVERSITY" "All sources failed, using local fallback"
                    LWarn (add_draw st)).2)
  else (Val final, add_draw st).
Proof.
  unfold finish, bind, shuffle, draw, bind, gets, modify, ret. simpl.
  destruct (_ =? 0); [|done].
  unfold log, when, modify, getLocalFallback, shuffle, draw, bind, gets, modify, ret.
  by destruct (has_logger this).
Qed.

Lemma finish_same_cache validCount all : keeps same_cache (finish this validCount all).
Proof. unfold finish, getLocalFallback. keeps_auto. Qed.

(** From the collected queries on, [fetchQueries] returns between one
    and [validCount] queries, each a collected one or a curated one. *)
Lemma finish_ok validCount all st :
  1 <= validCount ->
  exists l st', finish this validCount all st = (Val l, st') /\
    (0 < length l)%nat /\ Z.of_nat (length l) <= validCount /\
    Forall (fun q => q ∈ all \/ q ∈ JStr <$> fallback) l.
Proof.
  intros Hv. rewrite finish_run. simpl.
  destruct (Z.eqb_spec (Z.of_nat (length
    (slice0 validCount (shuffleArray (draws st) (arrange this validCount all))))) 0)
    as [Hz|Hnz]; eexists _, _; (split; [reflexivity|]).
  - split_and!.
    + apply Nat2Z.inj_lt. rewrite slice0_length, shuffled_fallback_length by lia. lia.
    + rewrite slice0_length by lia. lia.
    + apply slice0_Forall. eapply Forall_impl; [apply shuffled_fallback_members|].
      intros q Hq. by right.
  - split_and!.
    + lia.
    + rewrite slice0_length by lia. lia.
    + apply slice0_Forall. rewrite shuffleArray_perm.
      apply Forall_forall. intros q Hq%elem_of_arrange. by left.
Qed.

Lemma arrange_nil validCount : arrange this validCount [] = [].
Proof.
  assert (slice0 validCount (@nil jsval) = []) as Hs.
  { unfold slice0. case_match; apply take_nil. }
  assert (interleaveQueries this [] validCount = []) as Hi.
  { unfold interleaveQueries. simpl. rewrite orb_true_r. exact Hs. }
  unfold arrange. change (new_Set identity []) with (@nil jsval).
  destruct (deduplicate (config this)), (_ && _); done.
Qed.

(** With nothing collected, the batch is the local fallback list. *)
Lemma finish_nil validCount st :
  (finish this validCount [] st).1 =
  Val (slice0 validCount (shuffleArray (S (draws st)) (JStr <$> fallback))).
Proof.
  rewrite finish_run, arrange_nil. simpl.
  assert (shuffleArray (draws st) [] = []) as ->.
  { apply Permutation_nil_r, shuffleArray_perm. }
  assert (slice0 validCount (@nil jsval) = []) as ->.
  { unfold slice0. case_match; apply take_nil. }
  done.
Qed.

Lemma fetchQueries_with_run lookup count st :
  fetchQueries_with this lookup count st =
  match collect this lookup (sources (config this)) [] st with
  | (Val all, st1) => finish this (Z.max 1 (Z.min count 200)) all st1
  | (Thrown e, st1) => (Thrown e, st1)
  end.
Proof. reflexivity. Qed.

Lemma fetchQueries_ok count st :
  cache_inv st ->
  exists l st', fetchQueries this count st = (Val l, st') /\
    cache_inv st' /\ Forall is_truthy l /\ (0 < length l)%nat /\
    Z.of_nat (length l) <= Z.max 1 (Z.min count 200).
Proof.
  intros Hinv. unfold fetchQueries. rewrite fetchQueries_with_run.
  destruct (collect_ok (sources (config this)) [] st Hinv) as (all & st1 & -> & Hall & Hinv1);
    [done|].
  destruct (finish_ok (Z.max 1 (Z.min count 200)) all st1) as (l & st' & Hf & ? & ? & Hl);
    [lia|].
  exists l, st'. split_and!; try done.
  2:{ eapply Forall_impl; [exact Hl|]. intros q [Hq|Hq].
      - rewrite Forall_forall in Hall. by apply Hall.
      - apply is_text_truthy. apply list_elem_of_fmap in Hq as (t & -> & Ht).
        exists t. split; [done|].
        pose proof fallback_nonempty as Hf'. rewrite Forall_forall in Hf'. by apply Hf'. }
  pose proof (finish_same_cache (Z.max 1 (Z.min count 200)) all st1) as Hc.
  rewrite Hf in Hc. by eapply cache_inv_same.
Qed.

Lemma initial_cache_inv now : cache_inv (initial now).
Proof. intros k e H. simpl in H. by rewrite lookup_empty in H. Qed.

(** The invariant holds in every state the engine reaches. *)
Lemma reachable_cache_inv st : reachable this st -> cache_inv st.
Proof.
  induction 1 as [now|st source _ IH|st count _ IH|st _ IH|st ms _ IH].
  - apply initial_cache_inv.
  - destruct (getFromSource_ok source st IH) as (l & st' & -> & _ & ? & _). done.
  - destruct (fetchQueries_ok count st IH) as (l & st' & -> & ? & _). done.
  - intros k e H. simpl in H. by rewrite lookup_empty in H.
  - done.
Qed.
End aggregator_facts.

(** * The claims *)

(** C1, as amended.  For every count in [[1,200]] and every behaviour of
    the injected HTTP client (every request failing included),
    [fetchQueries(count)] returns, without throwing, a sequence of truthy
    values of length at most [count] and greater than zero, each of them a
    query the sources contributed or a member of the curated list; so they
    are non-empty strings whenever the sources contributed only strings;
    when every source yields nothing, its members come from the curated
    local fallback list. *)
Theorem fetchQueries_nonempty_batch {E : Env} (this : Engine) (st : St) (count : Z) :
  reachable this st -> 1 <= count <= 200 ->
  exists all st1 l st',
    collect this (getFromSource this) (sources (config this)) [] st = (Val all, st1) /\
    fetchQueries this count st = (Val l, st') /\
    (0 < length l)%nat /\ Z.of_nat (length l) <= count /\
    Forall is_truthy l /\
    Forall (fun q => q ∈ all \/ q ∈ JStr <$> fallback) l /\
    (Forall is_text all -> Forall is_text l) /\
    (all = [] -> Forall (fun q => q ∈ JStr <$> fallback) l).
Proof.
  intros Hr Hc. pose proof (reachable_cache_inv this st Hr) as Hinv.
  destruct (fetchQueries_ok this count st Hinv) as (l & st' & Hf & _ & Hne & Hpos & Hlen).
  unfold fetchQueries in Hf. rewrite fetchQueries_with_run in Hf.
  destruct (collect_total this (getFromSource this) (sources (config this)) [] st)
    as (all & st1 & Hall).
  rewrite Hall in Hf.
  exists all, st1, l, st'. unfold fetchQueries. rewrite fetchQueries_with_run, Hall.
  assert (Forall (fun q => q ∈ all \/ q ∈ JStr <$> fallback) l) as Hl'.
  { destruct (finish_ok this (Z.max 1 (Z.min count 200)) all st1)
      as (l' & st'' & Hf' & _ & _ & Hl'); [lia|].
    rewrite Hf in Hf'. by simplify_eq. }
  split_and!; [done|done|done|lia|done|done| |].
  - intros Htext.
    eapply Forall_impl; [exact Hl'|]. intros q [Hq|Hq].
    + rewrite Forall_forall in Htext. by apply Htext.
    + apply list_elem_of_fmap in Hq as (t & -> & Ht). exists t. split; [done|].
      pose proof fallback_nonempty as Hfb. rewrite Forall_forall in Hfb. by apply Hfb.
  - intros ->. pose proof (finish_nil this (Z.max 1 (Z.min count 200)) st1) as Hn.
    rewrite Hf in Hn. simpl in Hn. simplify_eq.
    apply slice0_Forall, shuffled_fallback_members.
Qed.

Lemma fetchQueries_nonempty_batch_witness :
  exists all st1 l st',
    collect (engine_of None) (getFromSource (E:=offline) (engine_of None))
      (sources (config (engine_of None))) [] (initial 0) = (Val all, st1) /\
    fetchQueries (E:=offline) (engine_of None) 5 (initial 0) = (Val l, st') /\
    (0 < length l)%nat /\ Z.of_nat (length l) <= 5 /\
    Forall is_truthy l /\
    Forall (fun q => q ∈ all \/ q ∈ JStr <$> fallback) l /\
    (Forall is_text all -> Forall is_text l) /\
    (all = [] -> Forall (fun q => q ∈ JStr <$> fallback) l).
Proof.
  apply (@fetchQueries_nonempty_batch offline (engine_of None) (initial 0) 5).
  - apply reach_initial.
  - lia.
Defined.


(** C9, as amended.  The constructor never throws.  The effective
    [maxQueriesPerSource] is the supplied integer clamped to [[1,50]] and
    the effective [cacheMinutes] the supplied integer clamped to
    [[1,1440]], except that a supplied [0], like a missing value, is
    replaced by the default ([10], [30]) before clamping; [sources] is
    never empty: it is the supplied list, or the built-in one when none or
    an empty one is supplied. *)
Theorem constructor_effective_config (supplied : option PartialConfig) :
  let c := constructor supplied in
  maxQueriesPerSource c =
    match supplied ≫= p_maxQueriesPerSource with
    | Some v => if v =? 0 then 10 else clamp 1 50 v
    | None => 10
    end /\
  cacheMinutes c =
    match supplied ≫= p_cacheMinutes with
    | Some v => if v =? 0 then 30 else clamp 1 1440 v
    | None => 30
    end /\
  1 <= maxQueriesPerSource c <= 50 /\
  1 <= cacheMinutes c <= 1440 /\
  sources c <> [] /\
  sources c =
    match supplied ≫= p_sources with
    | Some (name :: names) => name :: names
    | Some [] | None => default_sources
    end.
Proof.
  split; [|split; [|split; [|split; [|split]]]].
  - simpl. unfold num_or, clamp.
    destruct (supplied ≫= p_maxQueriesPerSource) as [v|]; [|done].
    destruct (v =? 0); [done|]. done.
  - simpl. unfold num_or, clamp.
    destruct (supplied ≫= p_cacheMinutes) as [v|]; [|done].
    destruct (v =? 0); [done|]. done.
  - apply constructor_maxQueriesPerSource.
  - apply constructor_cacheMinutes.
  - apply constructor_sources.
  - simpl. by destruct (supplied ≫= p_sources) as [[|name names]|].
Qed.

(** C9 as stated fails: a supplied [maxQueriesPerSource] of [0] is not
    clamped to [1] but replaced by [10], and a supplied [cacheMinutes] of
    [0] by [30]. *)
Lemma constructor_zero_not_clamped :
  let supplied := Some {| p_sources := None; p_deduplicate := None;
                          p_mixStrategies := None;
                          p_maxQueriesPerSource := Some 0;
                          p_cacheMinutes := Some 0 |} in
  maxQueriesPerSource (constructor supplied) = 10 /\
  clamp 1 50 0 = 1 /\
  maxQueriesPerSource (constructor supplied) <> clamp 1 50 0 /\
  cacheMinutes (constructor supplied) = 30 /\
  cacheMinutes (constructor supplied) <> clamp 1 1440 0.
Proof. vm_compute. split_and!; congruence. Qed.

(** C10. A configured source outside the recognized set makes the
    per-source lookup log a warning, contribute the empty list and cache
    nothing, without throwing and without any request; [fetchQueries] still
    completes with a non-empty batch. *)
Theorem unknown_source_lookup {E : Env} (this : Engine) (source : string) (st : St)
    (count : Z) :
  reachable this st -> source ∉ recognized ->
  exists st',
    getFromSource this source st = (Val [], st') /\
    cache st' = cache (evict st) /\
    cache st' !! source = None /\
    sent st' = sent st /\
    logs st' =
      (logs st ++
       if has_logger this then
         [ {| log_source := "QUERY-DIVERSITY";
              log_message := "Unknown source: " +:+ source;
              log_level := LWarn |};
           {| log_source := "QUERY-DIVERSITY";
              log_message := "No queries returned for source: " +:+ source;
              log_level := LWarn |} ]
       else [])%list /\
    exists l st'', fetchQueries this count st = (Val l, st'') /\ l <> [].
Proof.
  intros Hr Hs. pose proof (reachable_cache_inv this st Hr) as Hinv.
  assert (cache st !! source = None) as Hnone.
  { destruct (cache st !! source) as [e|] eqn:He; [|done].
    destruct (Hinv _ _ He) as [Hin _]. done. }
  assert (cache_hit source st = None) as Hmiss.
  { unfold cache_hit. by rewrite Hnone. }
  assert (cache (evict st) !! source = None) as Hnone'.
  { destruct (cache (evict st) !! source) as [e|] eqn:He; [|done].
    apply evict_lookup in He as [He _]. congruence. }
  assert (dispatch this source (evict st) =
          (Val [], if has_logger this
                   then add_log {| log_source := "QUERY-DIVERSITY";
                                   log_message := "Unknown source: " +:+ source;
                                   log_level := LWarn |} (evict st)
                   else evict st)) as Hd.
  { rewrite dispatch_unknown by done.
    unfold bind, log, when, modify, ret. by destruct (has_logger this). }
  eexists. split; [by apply (getFromSource_miss this source st [] _ Hmiss Hd)|].
  unfold settle. simpl. split_and!.
  - by destruct (has_logger this).
  - by destruct (has_logger this).
  - by destruct (has_logger this).
  - destruct (has_logger this); simpl; [|by rewrite app_nil_r].
    by rewrite <- app_assoc.
  - destruct (fetchQueries_ok this count st Hinv) as (l & st'' & Hf & _ & _ & Hpos & _).
    exists l, st''. split; [done|]. intros ->. simpl in Hpos. lia.
Qed.

Lemma unknown_source_lookup_witness :
  exists st',
    getFromSource (E:=offline) (engine_with_sources ["bing-news"; "local-fallback"])
      "bing-news" (initial 0) = (Val [], st') /\
    cache st' = cache (evict (initial 0)) /\
    cache st' !! "bing-news" = None /\
    sent st' = sent (initial 0) /\
    logs st' =
      (logs (initial 0) ++
       if has_logger (engine_with_sources ["bing-news"; "local-fallback"]) then
         [ {| log_source := "QUERY-DIVERSITY";
              log_message := "Unknown source: " +:+ "bing-news";
              log_level := LWarn |};
           {| log_source := "QUERY-DIVERSITY";
              log_message := "No queries returned for source: " +:+ "bing-news";
              log_level := LWarn |} ]
       else [])%list /\
    exists l st'',
      fetchQueries (E:=offline) (engine_with_sources ["bing-news"; "local-fallback"])
        7 (initial 0) = (Val l, st'') /\ l <> [].
Proof.
  apply (@unknown_source_lookup offline
           (engine_with_sources ["bing-news"; "local-fallback"]) "bing-news" (initial 0) 7).
  - apply reach_initial.
  - apply (bool_decide_unpack _). vm_compute. exact I.
Defined.

(** ** Deduplication *)

Lemma omap_seq_shift {B} (f : nat -> option B) (n : nat) :
  omap f (seq 1 n) = omap (fun i => f (S i)) (seq 0 n).
Proof.
  rewrite <- (fmap_S_seq 0 n). induction (seq 0 n) as [|i l IH]; [done|].
  cbn. by rewrite <- IH.
Qed.

Lemma omap_length_le {A B} (f : A -> option B) (l : list A) :
  (length (omap f l) <= length l)%nat.
Proof.
  induction l as [|x l IH]; [done|]. cbn. destruct (f x); cbn; lia.
Qed.

Lemma omap_cons {A B} (f : A -> option B) (x : A) (l : list A) :
  omap f (x :: l) = match f x with Some y => y :: omap f l | None => omap f l end.
Proof. reflexivity. Qed.

Lemma omap_ext_in {A B} (f g : A -> option B) (l : list A) :
  (forall x, x ∈ l -> f x = g x) -> omap f l = omap g l.
Proof.
  induction l as [|x l IH]; intros H; [done|].
  cbn. rewrite (H x) by left.
  assert (omap f l = omap g l) as Hl.
  { apply IH. intros y Hy. apply H. by right. }
  by destruct (g x); cbn; rewrite Hl.
Qed.

Section first_occurrences.
Context {A K : Type} `{EqDecision K} (key : A -> K).

(** Filling the set member by member keeps, after what it already held,
    the positions whose member is new. *)
Lemma Set_add_fold_first l : forall s,
  foldl (Set_add key) s l =
  (s ++ omap (fun i => x ← l !! i;
                       if bool_decide (key x ∈ key <$> (s ++ take i l)) then None
                       else Some x)
          (seq 0 (length l)))%list.
Proof.
  induction l as [|x l IH]; intros s; simpl foldl.
  { simpl. by rewrite app_nil_r. }
  rewrite IH. simpl length. rewrite <- cons_seq. rewrite (omap_cons _ 0%nat).
  rewrite omap_seq_shift. cbn [lookup list_lookup mbind option_bind take].
  rewrite app_nil_r.
  unfold Set_add. destruct (bool_decide (key x ∈ key <$> s)) eqn:Hx.
  - f_equal. apply omap_ext_in. intros i _.
    destruct (l !! i) as [y|]; simpl; [|done].
    assert (bool_decide (key y ∈ key <$> (s ++ take i l)%list)
            = bool_decide (key y ∈ key <$> (s ++ x :: take i l)%list)) as ->; [|done].
    apply bool_decide_ext. apply bool_decide_eq_true in Hx.
    rewrite !fmap_app, !elem_of_app, fmap_cons, elem_of_cons.
    split; [tauto|]. intros [?|[->|?]]; tauto.
  - rewrite <- app_assoc. simpl. do 2 f_equal. apply omap_ext_in. intros i _.
    destruct (l !! i) as [y|]; simpl; [|done].
    assert (bool_decide (key y ∈ key <$> ((s ++ [x]) ++ take i l)%list)
            = bool_decide (key y ∈ key <$> (s ++ x :: take i l)%list)) as ->; [|done].
    apply bool_decide_ext. by rewrite <- app_assoc.
Qed.

Lemma new_Set_first_occurrences l : new_Set key l = first_occurrences key l.
Proof. unfold new_Set. by rewrite Set_add_fold_first. Qed.

Lemma new_Set_length l : (length (new_Set key l) <= length l)%nat.
Proof.
  rewrite new_Set_first_occurrences. unfold first_occurrences.
  etrans; [apply omap_length_le|]. by rewrite length_seq.
Qed.

Lemma new_Set_NoDup_id l : NoDup (key <$> l) -> new_Set key l = l.
Proof.
  intros Hl. unfold new_Set.
  assert (forall s, NoDup (key <$> (s ++ l))%list ->
                    foldl (Set_add key) s l = (s ++ l)%list) as H0.
  { clear Hl. induction l as [|x l IH]; intros s Hs; simpl.
    - by rewrite app_nil_r.
    - unfold Set_add. rewrite bool_decide_eq_false_2.
      + rewrite IH; rewrite <- app_assoc; done.
      + rewrite fmap_app in Hs. apply NoDup_app in Hs as (_ & Hs & _).
        intros Hx. apply (Hs _ Hx). left. }
  by apply (H0 []).
Qed.

End first_occurrences.




(** ** Regional hot topics: the card scenario *)

Lemma pick_candidates_title_only r title keys :
  pick_candidates (JObj r [("title", JStr title)]) keys =
  Some (if bool_decide ("title" ∈ keys) then title_ok (JStr title) else None).
Proof.
  induction keys as [|key rest IH].
  { done. }
  cbn [pick_candidates prop field mbind option_bind].
  destruct (String.eqb_spec key "title") as [->|Hkey].
  - rewrite bool_decide_eq_true_2 by left.
    destruct (title_ok (JStr title)) as [s|] eqn:Hok; [done|].
    simpl. rewrite andb_false_r, IH. by destruct (bool_decide _).
  - simpl. rewrite IH. f_equal. destruct (bool_decide ("title" ∈ rest)) eqn:Hin.
    + apply bool_decide_eq_true in Hin. rewrite bool_decide_eq_true_2; [done|]. by right.
    + apply bool_decide_eq_false in Hin. rewrite bool_decide_eq_false_2; [done|].
      intros [?|?]%elem_of_cons; [congruence|done].
Qed.

Lemma pickCnNewsTitle_title_only r title :
  pickCnNewsTitle (JObj r [("title", JStr title)]) = Some (title_ok (JStr title)).
Proof.
  unfold pickCnNewsTitle. rewrite pick_candidates_title_only.
  rewrite bool_decide_eq_true_2 by (apply list_elem_of_In; simpl; tauto).
  destruct (title_ok (JStr title)) as [s|] eqn:Hok; [done|].
  cbn. unfold fallback_ok. by rewrite Hok.
Qed.

Lemma title_ok_text_between s t : title_ok (JStr s) = Some t -> t = s /\ text_between 2 100 s = true.
Proof.
  unfold title_ok, text_between. destruct (_ && _) eqn:Hc; [|done]. intros [= <-].
  split; [done|]. apply andb_true_iff in Hc as [H1 H2]. rewrite H1, H2.
  destruct s; [done|done].
Qed.

Lemma cnNewsQueries_card title :
  cnNewsQueries (card_payload title) =
  Some (if (2 <? js_length title) && (js_length title <? 100) then [title] else [],
        1%nat, 1%nat).
Proof.
  assert (cnNewsQueries (card_payload title) =
          titles ← mapM pickCnNewsTitle [JObj 8 [("title", JStr title)]];
          Some (omap (fun t => match t with
                               | Some s => if text_between 2 100 s then Some s else None
                               | None => None
                               end) titles, 1%nat, 1%nat)) as ->.
  { vm_compute. reflexivity. }
  cbn [mapM]. rewrite pickCnNewsTitle_title_only.
  destruct (title_ok (JStr title)) as [t|] eqn:Hok.
  - apply title_ok_text_between in Hok as Hb. destruct Hb as [-> Hb].
    cbn -[text_between]. rewrite Hb. unfold title_ok in Hok. by destruct (_ && _).
  - cbn. unfold title_ok in Hok. by destruct (_ && _).
Qed.

(** C4, as amended.  When the regional hot-topics adapter receives a JSON
    payload in which [data.cards[0].content[0].items[0].title] is a string
    of 3 to 99 UTF-16 units, the recursive-unwrapping extraction yields
    exactly the one-element list of that title; a shorter or longer title
    is dropped and the extraction yields the empty list.  Every string the
    adapter extracts, from JSON or from HTML, has a length strictly
    between 2 and 100. *)
Theorem cn_title_extraction {E : Env} (this : Engine) (title data : string) (st : St) :
  JSON_parse (parses st) data = Some (card_payload title) ->
  (extractCnNewsFromJson this (Some data) st).1 =
    Val (if (2 <? js_length title) && (js_length title <? 100) then [title] else []) /\
  (forall body st0 l st',
     extractCnNewsFromJson this body st0 = (Val l, st') ->
     Forall (fun s => 2 < js_length s < 100) l) /\
  (forall html, Forall (fun s => 2 < js_length s < 100) (extractCnNewsFromHtml html)) /\
  (forall st0 l st',
     fetchCnNews this st0 = (Val l, st') ->
     Forall (text_of (fun s => 2 < js_length s < 100)) l).
Proof.
  intros Hparse.
  assert (forall l, Forall cn_title l -> Forall (fun s => 2 < js_length s < 100) l) as Hcn.
  { intros l Hl. eapply Forall_impl; [exact Hl|]. by intros s [_ ?]. }
  split_and!.
  - unfold extractCnNewsFromJson, try_catch, parse, bind, gets, modify. simpl.
    rewrite Hparse. simpl.
    rewrite cnNewsQueries_card. simpl.
    destruct ((2 <? js_length title) && (js_length title <? 100)); simpl; [done|].
    unfold log, when, modify. by destruct (has_logger this).
  - intros body st0 l st' H. eapply Hcn, extractCnNewsFromJson_titles, H.
  - intros html. apply Hcn, extractCnNewsFromHtml_titles.
  - intros st0 l st' H. eapply Forall_impl; [eapply fetchCnNews_titles, H|].
    intros v Hv. eapply text_of_impl; [|exact Hv]. by intros s [_ ?].
Qed.

Lemma cn_title_extraction_witness :
  (extractCnNewsFromJson (E:=answering (card_payload "示例词")) (engine_of None)
     (Some "body") (initial 0)).1 =
    Val (if (2 <? js_length "示例词") && (js_length "示例词" <? 100)
         then ["示例词"] else []) /\
  (forall body st0 l st',
     extractCnNewsFromJson (E:=answering (card_payload "示例词")) (engine_of None) body st0
       = (Val l, st') ->
     Forall (fun s => 2 < js_length s < 100) l) /\
  (forall html,
     Forall (fun s => 2 < js_length s < 100)
       (extractCnNewsFromHtml (E:=answering (card_payload "示例词")) html)) /\
  (forall st0 l st',
     fetchCnNews (E:=answering (card_payload "示例词")) (engine_of None) st0 = (Val l, st') ->
     Forall (text_of (fun s => 2 < js_length s < 100)) l).
Proof.
  apply (@cn_title_extraction (answering (card_payload "示例词")) (engine_of None)
           "示例词" "body" (initial 0)).
  reflexivity.
Defined.

(** C4 as stated fails: the title ["示例"] has length 2, which the filter
    [length > 2 && length < 100] rejects, so the extraction yields the
    empty list and not the one-element list of that title. *)
Lemma cn_two_unit_title_dropped :
  js_length "示例" = 2 /\
  JSON_parse (Env:=answering (card_payload "示例")) 0 "body" = Some (card_payload "示例") /\
  (extractCnNewsFromJson (E:=answering (card_payload "示例")) (engine_of None)
     (Some "body") (initial 0)).1 = Val [] /\
  (extractCnNewsFromJson (E:=answering (card_payload "示例")) (engine_of None)
     (Some "body") (initial 0)).1 <> Val ["示例"] /\
  pickCnNewsTitle (JObj 8 [("title", JStr "示例")]) = Some None.
Proof. vm_compute. split_and!; congruence. Qed.

(** ** The cache window *)

Section cache_facts.
Context {E : Env} (this : Engine).

Lemma evict_idem st : evict (evict st) = evict st.
Proof.
  unfold evict at 1. unfold set_cache. simpl.
  assert (filter (fun kv => clock st < expires kv.2)
            (filter (fun kv => clock st < expires kv.2) (cache st)) =
          filter (fun kv => clock st < expires kv.2) (cache st)) as ->; [|done].
  apply map_eq. intros k. apply option_eq. intros e.
  rewrite !map_lookup_filter_Some. tauto.
Qed.

Lemma getFromSource_evict source st :
  getFromSource this source st = getFromSource this source (evict st).
Proof.
  unfold getFromSource, cleanExpiredCache, bind, modify. simpl. by rewrite evict_idem.
Qed.

Lemma getFromSource_miss_run source st :
  cache_hit source st = None ->
  exists found st0,
    dispatch this source (evict st) = (Val found, st0) /\
    getFromSource this source st = (Val found, settle this source found st0).
Proof.
  intros Hmiss. destruct (dispatch_total this source (evict st)) as (found & st0 & Hd).
  exists found, st0. split; [done|]. by apply getFromSource_miss.
Qed.

Lemma settle_sent source found st : sent (settle this source found st) = sent st.
Proof. unfold settle. by repeat case_match. Qed.

Lemma getFromSource_stores source st q st1 :
  cache_hit source st = None ->
  getFromSource this source st = (Val q, st1) ->
  q <> [] ->
  cache st1 !! source =
    Some {| queries := q; expires := clock st1 + cacheMinutes (config this) * 60000 |}.
Proof.
  intros Hmiss Hrun Hq.
  destruct (getFromSource_miss_run source st Hmiss) as (found & st0 & _ & Hg).
  rewrite Hrun in Hg. simplify_eq. unfold settle.
  destruct found as [|x found]; [done|]. simpl. by rewrite lookup_insert_eq.
Qed.

Lemma getFromSource_miss_sends source st :
  cache_hit source st = None -> source ∈ remote ->
  (length (sent st) < length (sent (getFromSource this source st).2))%nat.
Proof.
  intros Hmiss Hs.
  destruct (getFromSource_miss_run source st Hmiss) as (found & st0 & Hd & ->).
  simpl. rewrite settle_sent. pose proof (dispatch_sends this source Hs (evict st)) as H.
  by rewrite Hd in H.
Qed.

Lemma getFromSource_miss_sends_one source st :
  cache_hit source st = None -> source ∈ ["google-trends"; "reddit"; "wikipedia"] ->
  exists r, sent (getFromSource this source st).2 = (sent st ++ [r])%list.
Proof.
  intros Hmiss Hs.
  destruct (getFromSource_miss_run source st Hmiss) as (found & st0 & Hd & ->).
  simpl. rewrite settle_sent.
  assert (sends_one (dispatch this source)) as Hone.
  { repeat (apply elem_of_cons in Hs as [->|Hs]); [..|by apply elem_of_nil in Hs].
    - apply fetchGoogleTrends_sends_one.
    - apply fetchReddit_sends_one.
    - apply fetchWikipedia_sends_one. }
  destruct (Hone (evict st)) as [r Hr]. rewrite Hd in Hr. by exists r.
Qed.
End cache_facts.

(** ** Counting requests *)

Lemma at_most_weaken {A} (n k : nat) (m : M A) : (n <= k)%nat -> at_most n m -> at_most k m.
Proof. intros Hnk Hm st. specialize (Hm st). lia. Qed.

Lemma at_most_same_sent {A} (m : M A) : keeps same_sent m -> at_most 0 m.
Proof. intros Hm st. specialize (Hm st). unfold same_sent in Hm. rewrite Hm. lia. Qed.

Lemma at_most_bind {A B} (a b : nat) (m : M A) (k : A -> M B) :
  at_most a m -> (forall x, at_most b (k x)) -> at_most (a + b) (bind m k).
Proof.
  intros Hm Hk st. unfold bind. specialize (Hm st).
  destruct (m st) as [[x|e] st1]; simpl in *; [|lia].
  specialize (Hk x st1). lia.
Qed.

Lemma at_most_try_catch {A} (a b : nat) (m : M A) (h : string -> M A) :
  at_most a m -> (forall e, at_most b (h e)) -> at_most (a + b) (try_catch m h).
Proof.
  intros Hm Hh st. unfold try_catch. specialize (Hm st).
  destruct (m st) as [[x|e] st1]; simpl in *; [lia|].
  specialize (Hh e st1). lia.
Qed.

Lemma at_most_sends_one {A} (m : M A) : sends_one m -> at_most 1 m.
Proof. intros Hm st. destruct (Hm st) as [r ->]. rewrite length_app. simpl. lia. Qed.

Section request_counts.
Context {E : Env} (this : Engine).

Lemma fetchNewsFallback_sends_one : sends_one (fetchNewsFallback this).
Proof.
  unfold fetchNewsFallback. apply sends_one_try_catch; [|intros; keeps_auto].
  apply sends_one_bind_l; [apply fetchHttp_sends_one|]. intros; keeps_auto.
Qed.

Lemma fetchNews_at_most : at_most 2 (fetchNews this).
Proof.
  unfold fetchNews. apply (at_most_try_catch 1 1);
    [|intros; apply at_most_sends_one, fetchNewsFallback_sends_one].
  repeat case_match; try apply at_most_sends_one, fetchNewsFallback_sends_one.
  apply at_most_sends_one, sends_one_bind_l; [apply fetchHttp_sends_one|].
  unfold parse. intros; keeps_auto.
Qed.

Lemma cnNewsEndpoints_at_most endpoints :
  at_most (length endpoints) (cnNewsEndpoints this endpoints).
Proof.
  induction endpoints as [|e rest IH]; simpl.
  - apply at_most_same_sent. keeps_auto.
  - apply (at_most_bind 1 (length rest));
      [apply at_most_sends_one, fetchHttp_sends_one|].
    intros data. apply (at_most_bind 0 (length rest)).
    + apply at_most_same_sent, extractCnNewsFromJson_same_sent.
    + intros l. case_match; [|done].
      apply (at_most_weaken 0); [lia|]. apply at_most_same_sent. keeps_auto.
Qed.

Lemma fetchCnNews_at_most : at_most 3 (fetchCnNews this).
Proof.
  unfold fetchCnNews. apply (at_most_try_catch 3 0).
  - apply (at_most_bind 2 1); [apply (cnNewsEndpoints_at_most [_; _])|].
    intros [l|].
    + apply (at_most_weaken 0); [lia|]. apply at_most_same_sent. keeps_auto.
    + apply at_most_sends_one, sends_one_bind_l; [apply fetchHttp_sends_one|].
      intros; keeps_auto.
  - intros e. apply at_most_same_sent. keeps_auto.
Qed.

Lemma dispatch_at_most source : at_most 3 (dispatch this source).
Proof.
  revert source. apply (dispatch_cases this (fun _ m => at_most 3 m)).
  - apply (at_most_weaken 1); [lia|]. apply at_most_sends_one, fetchGoogleTrends_sends_one.
  - apply (at_most_weaken 1); [lia|]. apply at_most_sends_one, fetchReddit_sends_one.
  - apply (at_most_weaken 2); [lia|]. apply fetchNews_at_most.
  - apply fetchCnNews_at_most.
  - apply (at_most_weaken 1); [lia|]. apply at_most_sends_one, fetchWikipedia_sends_one.
  - apply (at_most_weaken 0); [lia|]. apply at_most_same_sent.
    unfold getLocalFallback. keeps_auto.
  - intros source _. apply (at_most_weaken 0); [lia|]. apply at_most_same_sent. keeps_auto.
Qed.

Lemma getFromSource_at_most source : at_most 3 (getFromSource this source).
Proof.
  intros st. destruct (cache_hit source st) as [q|] eqn:Hhit.
  - rewrite (getFromSource_hit _ _ _ _ Hhit). simpl. lia.
  - destruct (getFromSource_miss_run this source st Hhit) as (found & st0 & Hd & ->).
    simpl. rewrite settle_sent. pose proof (dispatch_at_most source (evict st)) as H.
    by rewrite Hd in H.
Qed.

Lemma collect_at_most names : forall acc,
  at_most (3 * length names) (collect this (getFromSource this) names acc).
Proof.
  induction names as [|s rest IH]; intros acc st.
  - simpl. lia.
  - rewrite collect_cons. pose proof (getFromSource_at_most s st) as Hs.
    destruct (getFromSource this s st) as [[found|e] st1]; simpl in Hs.
    + specialize (IH (acc ++ slice0 (maxQueriesPerSource (config this)) found)%list st1).
      simpl length. lia.
    + set (st2 := (log this _ _ _ st1).2).
      assert (sent st2 = sent st1) as Hl by apply log_same_sent.
      specialize (IH acc st2). rewrite Hl in IH. simpl length. lia.
Qed.

Lemma finish_same_sent validCount all : keeps same_sent (finish this validCount all).
Proof. unfold finish, getLocalFallback. keeps_auto. Qed.
End request_counts.

Lemma getFromSource_local_same_sent {E : Env} (this : Engine) st :
  sent (getFromSource this "local-fallback" st).2 = sent st.
Proof.
  destruct (cache_hit "local-fallback" st) as [q|] eqn:Hhit.
  - by rewrite (getFromSource_hit _ _ _ _ Hhit).
  - destruct (getFromSource_miss_run this "local-fallback" st Hhit)
      as (found & st0 & Hd & ->).
    simpl. rewrite settle_sent. rewrite dispatch_local in Hd. by simplify_eq.
Qed.

(** C6, as amended.  A cache entry is returned only while the current
    time is strictly before its expiry, and expired entries are evicted
    before every source lookup.  After a successful non-empty fetch, a
    lookup of the same source within [cacheMinutes] issues no HTTP request
    and returns the cached queries, so two such lookups issue only the
    requests of the fetch itself: exactly one for [google-trends], [reddit]
    and [wikipedia], one or two for [news] and one to three for [cn-news],
    which may try further endpoints, and none for [local-fallback].  A
    lookup of a remote source at or after expiry issues a new request; a
    lookup of [local-fallback] never issues one. *)
Theorem cache_window {E : Env} (this : Engine) (source : string) (st st1 : St)
    (q : list jsval) :
  cache_hit source st = None ->
  getFromSource this source st = (Val q, st1) ->
  q <> [] ->
  let window := cacheMinutes (config this) * 60000 in
  (forall st0 cached,
     cache_hit source st0 = Some cached <->
     exists e, cache st0 !! source = Some e /\ clock st0 < expires e /\ queries e = cached) /\
  (forall st0 k e,
     cache (evict st0) !! k = Some e <-> cache st0 !! k = Some e /\ clock st0 < expires e) /\
  (forall st0 s, getFromSource this s st0 = getFromSource this s (evict st0)) /\
  cache st1 !! source = Some {| queries := q; expires := clock st1 + window |} /\
  (forall ms, ms < window ->
     getFromSource this source (advance ms st1) = (Val q, evict (advance ms st1)) /\
     sent (evict (advance ms st1)) = sent st1) /\
  (source ∈ remote -> (length (sent st) < length (sent st1))%nat) /\
  (source ∈ ["google-trends"; "reddit"; "wikipedia"] ->
     exists r, sent st1 = (sent st ++ [r])%list) /\
  (source = "news" ->
     (length (sent st) + 1 <= length (sent st1) <= length (sent st) + 2)%nat) /\
  (source = "cn-news" ->
     (length (sent st) + 1 <= length (sent st1) <= length (sent st) + 3)%nat) /\
  (source = "local-fallback" -> sent st1 = sent st) /\
  (forall late, window <= late -> source ∈ remote ->
     (length (sent st1) <
      length (sent (getFromSource this source (advance late st1)).2))%nat) /\
  (forall st0, sent (getFromSource this "local-fallback" st0).2 = sent st0).
Proof.
  intros Hmiss Hrun Hq window.
  pose proof (getFromSource_stores this source st q st1 Hmiss Hrun Hq) as Hstored.
  split_and!.
  - intros st0 cached. apply cache_hit_spec.
  - intros st0 k e. apply evict_lookup.
  - intros st0 s. apply getFromSource_evict.
  - done.
  - intros ms Hms. split; [|done]. apply getFromSource_hit, cache_hit_spec.
    eexists. split; [exact Hstored|]. simpl. split; [|done]. fold window. lia.
  - intros Hs. pose proof (getFromSource_miss_sends this source st Hmiss Hs) as H.
    by rewrite Hrun in H.
  - intros Hs. destruct (getFromSource_miss_sends_one this source st Hmiss Hs) as [r Hr].
    rewrite Hrun in Hr. by exists r.
  - intros ->.
    pose proof (getFromSource_miss_sends this "news" st Hmiss
                  ltac:(apply list_elem_of_In; simpl; tauto)) as Hlo.
    destruct (getFromSource_miss_run this "news" st Hmiss) as (found & st0 & Hd & Hg).
    rewrite Hg in Hrun, Hlo. simplify_eq. simpl in *. rewrite settle_sent in *.
    pose proof (fetchNews_at_most this (evict st)) as Hhi.
    change (dispatch this "news" (evict st)) with (fetchNews this (evict st)) in Hd.
    rewrite Hd in Hhi. simpl in Hhi. lia.
  - intros ->.
    pose proof (getFromSource_miss_sends this "cn-news" st Hmiss
                  ltac:(apply list_elem_of_In; simpl; tauto)) as Hlo.
    destruct (getFromSource_miss_run this "cn-news" st Hmiss) as (found & st0 & Hd & Hg).
    rewrite Hg in Hrun, Hlo. simplify_eq. simpl in *. rewrite settle_sent in *.
    pose proof (fetchCnNews_at_most this (evict st)) as Hhi.
    change (dispatch this "cn-news" (evict st)) with (fetchCnNews this (evict st)) in Hd.
    rewrite Hd in Hhi. simpl in Hhi. lia.
  - intros ->. pose proof (getFromSource_local_same_sent this st) as Hl.
    by rewrite Hrun in Hl.
  - intros late Hlate Hs.
    apply (getFromSource_miss_sends this source (advance late st1)); [|done].
    unfold cache_hit. simpl. rewrite Hstored. simpl.
    destruct (Z.ltb_spec (clock st1 + late)
                (clock st1 + cacheMinutes (config this) * 60000)); [|done].
    subst window. lia.
  - intros st0. apply getFromSource_local_same_sent.
Qed.

Lemma cache_window_witness :
  let E := answering (card_payload "hot topic") in
  let this := engine_of None in
  let st1 := (getFromSource (E:=E) this "cn-news" (initial 0)).2 in
  let window := cacheMinutes (config this) * 60000 in
  (forall st0 cached,
     cache_hit "cn-news" st0 = Some cached <->
     exists e, cache st0 !! "cn-news" = Some e /\ clock st0 < expires e /\
               queries e = cached) /\
  (forall st0 k e,
     cache (evict st0) !! k = Some e <-> cache st0 !! k = Some e /\ clock st0 < expires e) /\
  (forall st0 s, getFromSource (E:=E) this s st0 = getFromSource (E:=E) this s (evict st0)) /\
  cache st1 !! "cn-news" =
    Some {| queries := [JStr "hot topic"]; expires := clock st1 + window |} /\
  (forall ms, ms < window ->
     getFromSource (E:=E) this "cn-news" (advance ms st1)
       = (Val [JStr "hot topic"], evict (advance ms st1)) /\
     sent (evict (advance ms st1)) = sent st1) /\
  ("cn-news" ∈ remote -> (length (sent (initial 0)) < length (sent st1))%nat) /\
  ("cn-news" ∈ ["google-trends"; "reddit"; "wikipedia"] ->
     exists r, sent st1 = (sent (initial 0) ++ [r])%list) /\
  ("cn-news" = "news" ->
     (length (sent (initial 0)) + 1 <= length (sent st1)
      <= length (sent (initial 0)) + 2)%nat) /\
  ("cn-news" = "cn-news" ->
     (length (sent (initial 0)) + 1 <= length (sent st1)
      <= length (sent (initial 0)) + 3)%nat) /\
  ("cn-news" = "local-fallback" -> sent st1 = sent (initial 0)) /\
  (forall late, window <= late -> "cn-news" ∈ remote ->
     (length (sent st1) <
      length (sent (getFromSource (E:=E) this "cn-news" (advance late st1)).2))%nat) /\
  (forall st0, sent (getFromSource (E:=E) this "local-fallback" st0).2 = sent st0).
Proof.
  apply (@cache_window (answering (card_payload "hot topic")) (engine_of None) "cn-news"
           (initial 0)
           (getFromSource (E:=answering (card_payload "hot topic")) (engine_of None)
              "cn-news" (initial 0)).2
           [JStr "hot topic"]).
  - reflexivity.
  - vm_compute. reflexivity.
  - discriminate.
Defined.

(** C6 as stated fails.  The first lookup of [cn-news] below is a
    successful non-empty fetch that needed the second endpoint; it and a
    lookup one minute later issue two requests together, not at most one.
    And a lookup of [local-fallback] after its entry expired issues no
    request at all. *)
Lemma cn_news_two_requests :
  let this := engine_of None in
  let first := getFromSource (E:=second_endpoint_answers) this "cn-news" (initial 0) in
  let second := getFromSource (E:=second_endpoint_answers) this "cn-news"
                  (advance 60000 first.2) in
  let local := getFromSource (E:=offline) this "local-fallback" (initial 0) in
  let expired := getFromSource (E:=offline) this "local-fallback"
                   (advance (31 * 60000) local.2) in
  first.1 = Val [JStr "hot topic"] /\
  second.1 = Val [JStr "hot topic"] /\
  60000 < cacheMinutes (config this) * 60000 /\
  length (sent second.2) = 2%nat /\
  ~ (length (sent second.2) <= 1)%nat /\
  cache_hit "local-fallback" (advance (31 * 60000) local.2) = None /\
  sent expired.2 = sent local.2.
Proof. vm_compute. split_and!; try congruence; try done. lia. Qed.

(** ** The local fallback *)

Lemma local_only_batch {E : Env} (logger : bool) (st : St) (count : Z) :
  let this := {| config := constructor local_only; has_logger := logger |} in
  reachable this st -> 1 <= count <= 200 ->
  exists l st',
    fetchQueries this count st = (Val l, st') /\
    Z.of_nat (length l) = Z.min count 10 /\
    NoDup l /\ Forall (fun q => q ∈ JStr <$> fallback) l.
Proof.
  intros this Hr Hc. pose proof (reachable_cache_inv this st Hr) as Hinv.
  unfold fetchQueries. rewrite fetchQueries_with_run.
  change (sources (config this)) with ["local-fallback"].
  rewrite collect_cons.
  destruct (getFromSource_ok this "local-fallback" st Hinv)
    as (found & st1 & -> & _ & _ & Hloc).
  destruct (Hloc eq_refl) as [n ->]. cbn [collect]. unfold ret.
  change (maxQueriesPerSource (config this)) with 10.
  change (Z.max 1 (Z.min 10 50)) with 10.
  set (all := slice0 10 (slice0 20 (shuffleArray n (JStr <$> fallback)))).
  assert (NoDup (identity <$> all)) as Hnd'.
  { subst all. eapply sublist_NoDup; [apply (shuffled_fallback_distinct n)|].
    apply fmap_sublist. etrans; apply slice0_sublist. }
  assert (NoDup all) as Hnd by (by eapply NoDup_fmap_1).
  assert (Forall (fun q => q ∈ JStr <$> fallback) all) as Hmem.
  { subst all. by apply slice0_Forall, slice0_Forall, shuffled_fallback_members. }
  assert (length all = 10%nat) as Hlen.
  { subst all. apply Nat2Z.inj. rewrite !slice0_length, shuffled_fallback_length by lia.
    lia. }
  assert (arrange this (Z.max 1 (Z.min count 200)) all = all) as Harr.
  { unfold arrange. change (deduplicate (config this)) with true.
    change (1 <? Z.of_nat (length (sources (config this)))) with false.
    rewrite andb_false_r. by apply new_Set_NoDup_id. }
  rewrite ?app_nil_l, finish_run, Harr. simpl.
  set (final := slice0 (Z.max 1 (Z.min count 200)) (shuffleArray (draws st1) all)).
  assert (Z.of_nat (length final) = Z.min count 10) as Hfl.
  { subst final. rewrite slice0_length by lia. rewrite shuffleArray_perm, Hlen. lia. }
  replace (Z.of_nat (length final) =? 0) with false by lia.
  exists final, (add_draw st1). split_and!; [done|done| |].
  - subst final. apply slice0_NoDup. by rewrite shuffleArray_perm.
  - subst final. apply slice0_Forall. by rewrite shuffleArray_perm.
Qed.

(** C8, as amended.  Whenever every configured source contributes no
    queries, [fetchQueries(count)] returns the local fallback list sized to
    [count]: for every count in [[1,200]], a sequence of exactly
    [min(count, 30)] strings (the curated list has thirty members), all
    members of the curated fallback set and pairwise distinct.  With the
    configuration [{sources: ['local-fallback'], deduplicate: true,
    cacheMinutes: 30}] the batch has [min(count, 10)] pairwise distinct
    members of the curated set: exactly [5] for count [5]. *)
Theorem fallback_batch {E : Env} (this : Engine) (st : St) (count : Z) :
  1 <= count <= 200 ->
  ((collect this (getFromSource this) (sources (config this)) [] st).1 = Val [] ->
   exists l st',
     fetchQueries this count st = (Val l, st') /\
     Z.of_nat (length l) = Z.min count 30 /\
     Forall (fun q => q ∈ JStr <$> fallback) l /\ NoDup l) /\
  (forall logger st0,
     reachable {| config := constructor local_only; has_logger := logger |} st0 ->
     exists l st',
       fetchQueries {| config := constructor local_only; has_logger := logger |} count st0
         = (Val l, st') /\
       Z.of_nat (length l) = Z.min count 10 /\
       NoDup l /\ Forall (fun q => q ∈ JStr <$> fallback) l) /\
  (forall logger st0,
     reachable {| config := constructor local_only; has_logger := logger |} st0 ->
     exists l st',
       fetchQueries {| config := constructor local_only; has_logger := logger |} 5 st0
         = (Val l, st') /\
       length l = 5%nat /\ NoDup l /\ Forall (fun q => q ∈ JStr <$> fallback) l).
Proof.
  intros Hc. split_and!.
  - intros Hnil. unfold fetchQueries. rewrite fetchQueries_with_run.
    destruct (collect _ _ _ _ st) as [[all|e] st1]; simpl in Hnil; [|done].
    simplify_eq. pose proof (finish_nil this (Z.max 1 (Z.min count 200)) st1) as Hn.
    destruct (finish this (Z.max 1 (Z.min count 200)) [] st1) as [r st'].
    simpl in Hn. subst r. eexists _, st'. split; [done|].
    replace (Z.max 1 (Z.min count 200)) with count by lia. split_and!.
    + rewrite slice0_length, shuffled_fallback_length by lia. lia.
    + apply slice0_Forall, shuffled_fallback_members.
    + apply slice0_NoDup, shuffled_fallback_NoDup.
  - intros logger st0 Hr. by apply local_only_batch.
  - intros logger st0 Hr.
    destruct (local_only_batch logger st0 5 Hr) as (l & st' & Hf & Hlen & Hnd & Hmem); [lia|].
    exists l, st'. split_and!; [done|lia|done|done].
Qed.

Lemma fallback_batch_witness :
  ((collect (engine_with_sources ["google-trends"])
      (getFromSource (E:=offline) (engine_with_sources ["google-trends"]))
      (sources (config (engine_with_sources ["google-trends"]))) [] (initial 0)).1 = Val [] ->
   exists l st',
     fetchQueries (E:=offline) (engine_with_sources ["google-trends"]) 5 (initial 0)
       = (Val l, st') /\
     Z.of_nat (length l) = Z.min 5 30 /\
     Forall (fun q => q ∈ JStr <$> fallback) l /\ NoDup l) /\
  (forall logger st0,
     reachable (E:=offline) {| config := constructor local_only; has_logger := logger |} st0 ->
     exists l st',
       fetchQueries (E:=offline)
         {| config := constructor local_only; has_logger := logger |} 5 st0 = (Val l, st') /\
       Z.of_nat (length l) = Z.min 5 10 /\
       NoDup l /\ Forall (fun q => q ∈ JStr <$> fallback) l) /\
  (forall logger st0,
     reachable (E:=offline) {| config := constructor local_only; has_logger := logger |} st0 ->
     exists l st',
       fetchQueries (E:=offline)
         {| config := constructor local_only; has_logger := logger |} 5 st0 = (Val l, st') /\
       length l = 5%nat /\ NoDup l /\ Forall (fun q => q ∈ JStr <$> fallback) l).
Proof.
  apply (@fallback_batch offline (engine_with_sources ["google-trends"]) (initial 0) 5).
  lia.
Defined.

(** C8 as stated fails: the curated list has thirty members, so for a
    count above thirty the fallback batch has thirty strings, not
    [count]. *)
Lemma fallback_short_of_count :
  let this := engine_with_sources ["google-trends"] in
  (collect this (getFromSource (E:=offline) this) (sources (config this)) []
     (initial 0)).1 = Val [] /\
  exists l,
    (fetchQueries (E:=offline) this 31 (initial 0)).1 = Val l /\
    length l = 30%nat /\ length l <> 31%nat.
Proof.
  split; [vm_compute; reflexivity|].
  eexists. split; [vm_compute; reflexivity|]. simpl. split; [reflexivity|lia].
Qed.

(** * Further properties *)

(** ** Webhook URL obfuscation *)

Lemma base64_index_char n : (n < 64)%N -> base64_index (base64_char n) = Some n.
Proof.
  intros Hn.
  assert (forallb (fun k => match base64_index (base64_char (N.of_nat k)) with
                            | Some m => N.eqb m (N.of_nat k)
                            | None => false
                            end) (seq 0 64) = true) as Hall.
  { vm_compute. reflexivity. }
  rewrite forallb_forall in Hall. specialize (Hall (N.to_nat n)).
  rewrite N2Nat.id in Hall.
  destruct (base64_index (base64_char n)) as [m|].
  - f_equal. apply N.eqb_eq, Hall, in_seq. lia.
  - exfalso. assert (false = true) as Hf; [|discriminate]. apply Hall, in_seq. lia.
Qed.

Lemma base64_char_is n : (n < 64)%N -> is_base64_char (base64_char n) = true.
Proof. intros Hn. unfold is_base64_char. by rewrite base64_index_char. Qed.

Lemma base64_char_plain n : (n < 64)%N -> plain (base64_char n) = true.
Proof.
  intros Hn.
  assert (forallb (fun k => plain (base64_char (N.of_nat k))) (seq 0 64) = true) as Hall.
  { vm_compute. reflexivity. }
  rewrite forallb_forall in Hall. specialize (Hall (N.to_nat n)).
  rewrite N2Nat.id in Hall. apply Hall, in_seq. lia.
Qed.

Lemma N_of_ascii_bound a : (N_of_ascii a < 256)%N.
Proof. apply N_ascii_bounded. Qed.

Lemma sextet_bounds x y z :
  (x < 256 -> y < 256 -> z < 256 ->
   x / 4 < 64 /\ x mod 4 * 16 < 64 /\ x mod 4 * 16 + y / 16 < 64 /\
   y mod 16 * 4 < 64 /\ y mod 16 * 4 + z / 64 < 64 /\ z mod 64 < 64)%N.
Proof.
  intros Hx Hy Hz.
  pose proof (N.mod_lt x 4 ltac:(done)). pose proof (N.mod_lt y 16 ltac:(done)).
  pose proof (N.mod_lt z 64 ltac:(done)).
  assert (x / 4 < 64)%N by (apply N.Div0.div_lt_upper_bound; lia).
  assert (y / 16 < 16)%N by (apply N.Div0.div_lt_upper_bound; lia).
  assert (z / 64 < 4)%N by (apply N.Div0.div_lt_upper_bound; lia).
  lia.
Qed.

Lemma octets_back x y z :
  (x < 256 -> y < 256 -> z < 256 ->
   x / 4 * 4 + (x mod 4 * 16) / 16 = x /\
   x / 4 * 4 + (x mod 4 * 16 + y / 16) / 16 = x /\
   (x mod 4 * 16 + y / 16) mod 16 * 16 + (y mod 16 * 4) / 4 = y /\
   (x mod 4 * 16 + y / 16) mod 16 * 16 + (y mod 16 * 4 + z / 64) / 4 = y /\
   (y mod 16 * 4 + z / 64) mod 4 * 64 + z mod 64 = z)%N.
Proof.
  intros Hx Hy Hz.
  pose proof (N.div_mod x 4 ltac:(done)). pose proof (N.mod_lt x 4 ltac:(done)).
  pose proof (N.div_mod y 16 ltac:(done)). pose proof (N.mod_lt y 16 ltac:(done)).
  pose proof (N.div_mod z 64 ltac:(done)). pose proof (N.mod_lt z 64 ltac:(done)).
  assert (y / 16 < 16)%N by (apply N.Div0.div_lt_upper_bound; lia).
  assert (z / 64 < 4)%N by (apply N.Div0.div_lt_upper_bound; lia).
  assert ((x mod 4 * 16) / 16 = x mod 4)%N as E1 by (apply N.div_mul; lia).
  assert ((x mod 4 * 16 + y / 16) / 16 = x mod 4)%N as E2.
  { rewrite N.add_comm, N.div_add by lia. rewrite (N.div_small (y / 16)) by lia. lia. }
  assert ((x mod 4 * 16 + y / 16) mod 16 = y / 16)%N as E3.
  { rewrite N.add_comm, N.Div0.mod_add. by apply N.mod_small. }
  assert ((y mod 16 * 4) / 4 = y mod 16)%N as E4 by (apply N.div_mul; lia).
  assert ((y mod 16 * 4 + z / 64) / 4 = y mod 16)%N as E5.
  { rewrite N.add_comm, N.div_add by lia. rewrite (N.div_small (z / 64)) by lia. lia. }
  assert ((y mod 16 * 4 + z / 64) mod 4 = z / 64)%N as E6.
  { rewrite N.add_comm, N.Div0.mod_add. by apply N.mod_small. }
  rewrite E1, E2, E3, E4, E5, E6. lia.
Qed.

Lemma base64_index_pad : base64_index "="%char = None.
Proof. reflexivity. Qed.

(** Induction on strings three bytes at a time. *)
Lemma string_ind3 (P : string -> Prop) :
  P "" ->
  (forall a, P (String a "")) ->
  (forall a b, P (String a (String b ""))) ->
  (forall a b c rest, P rest -> P (String a (String b (String c rest)))) ->
  forall s, P s.
Proof.
  intros H0 H1 H2 H3.
  assert (forall n s, (String.length s <= n)%nat -> P s) as H.
  { induction n as [|n IH]; intros s Hs.
    - destruct s; [done|simpl in Hs; lia].
    - destruct s as [|a [|b [|c rest]]]; auto.
      apply H3, IH. simpl in Hs. lia. }
  intros s. by apply (H (String.length s)).
Qed.

Lemma base64_decode_encode bytes : base64_decode (base64_encode bytes) = bytes.
Proof.
  induction bytes as [|a|a b|a b c rest IH] using string_ind3; [done|..].
  - pose proof (N_of_ascii_bound a) as Ha.
    destruct (sextet_bounds (N_of_ascii a) 0 0 Ha) as (B1 & B2 & _); [done..|].
    destruct (octets_back (N_of_ascii a) 0 0 Ha) as (E1 & _); [done..|].
    cbn [base64_encode base64_decode append].
    rewrite !base64_index_char, base64_index_pad by done.
    by rewrite E1, ascii_N_embedding.
  - pose proof (N_of_ascii_bound a) as Ha. pose proof (N_of_ascii_bound b) as Hb.
    destruct (sextet_bounds (N_of_ascii a) (N_of_ascii b) 0 Ha Hb) as (B1 & _ & B3 & B4 & _);
      [done|].
    destruct (octets_back (N_of_ascii a) (N_of_ascii b) 0 Ha Hb) as (_ & E2 & E3 & _);
      [done|].
    cbn [base64_encode base64_decode append].
    rewrite !base64_index_char, base64_index_pad by done.
    by rewrite E2, E3, !ascii_N_embedding.
  - pose proof (N_of_ascii_bound a) as Ha. pose proof (N_of_ascii_bound b) as Hb.
    pose proof (N_of_ascii_bound c) as Hc.
    destruct (sextet_bounds _ _ _ Ha Hb Hc) as (B1 & _ & B3 & _ & B5 & B6).
    destruct (octets_back _ _ _ Ha Hb Hc) as (_ & E2 & _ & E4 & E5).
    cbn [base64_encode base64_decode].
    rewrite !base64_index_char by done.
    by rewrite E2, E4, E5, !ascii_N_embedding, IH.
Qed.

Lemma BASE64_REGEX_test_encode bytes : BASE64_REGEX_test (base64_encode bytes) = true.
Proof.
  induction bytes as [|a|a b|a b c rest IH] using string_ind3; [done|..].
  - pose proof (N_of_ascii_bound a) as Ha.
    destruct (sextet_bounds (N_of_ascii a) 0 0 Ha) as (B1 & B2 & _); [done..|].
    cbn [base64_encode BASE64_REGEX_test append].
    rewrite !base64_char_is by done. reflexivity.
  - pose proof (N_of_ascii_bound a) as Ha. pose proof (N_of_ascii_bound b) as Hb.
    destruct (sextet_bounds (N_of_ascii a) (N_of_ascii b) 0 Ha Hb) as (B1 & _ & B3 & B4 & _);
      [done|].
    cbn [base64_encode BASE64_REGEX_test append].
    rewrite !base64_char_is by done.
    change (is_base64_char "="%char) with false. change (is_pad "="%char) with true.
    simpl. by rewrite orb_true_r.
  - pose proof (N_of_ascii_bound a) as Ha. pose proof (N_of_ascii_bound b) as Hb.
    pose proof (N_of_ascii_bound c) as Hc.
    destruct (sextet_bounds _ _ _ Ha Hb Hc) as (B1 & _ & B3 & _ & B5 & B6).
    cbn [base64_encode BASE64_REGEX_test].
    rewrite !base64_char_is by done. exact IH.
Qed.

Lemma base64_encode_length bytes :
  String.length (base64_encode bytes) = (4 * ((String.length bytes + 2) / 3))%nat.
Proof.
  induction bytes as [|a|a b|a b c rest IH] using string_ind3; [done..|].
  cbn [base64_encode String.length]. rewrite IH.
  replace (S (S (S (String.length rest))) + 2)%nat
    with (String.length rest + 2 + 1 * 3)%nat by lia.
  rewrite Nat.div_add by done. lia.
Qed.

Lemma byte_in_plain lo hi c :
  plain c = true -> (hi < 33 \/ 126 < lo)%N -> byte_in lo hi c = false.
Proof.
  unfold plain, byte_in. rewrite andb_true_iff, !N.leb_le. intros [H1 H2] Hout.
  apply andb_false_iff. rewrite !N.leb_gt. lia.
Qed.

Lemma plain_not_ws c x y :
  plain c = true ->
  is_ws1 c = false /\ is_ws2 c x = false /\ is_ws2 x c = false /\
  is_ws3 c x y = false /\ is_ws3 y x c = false.
Proof.
  intros Hc. unfold is_ws1, is_ws2, is_ws3.
  rewrite !(byte_in_plain _ _ c Hc) by lia.
  rewrite ?andb_false_r, ?andb_false_l, ?orb_false_r. simpl.
  rewrite ?andb_false_r. done.
Qed.

Lemma strip_ws_plain_head backwards c r :
  plain c = true -> strip_ws backwards (String c r) = String c r.
Proof.
  intros Hc. cbn [strip_ws].
  destruct (plain_not_ws c c c Hc) as (-> & _).
  destruct r as [|b r]; [done|].
  destruct (plain_not_ws c b b Hc) as (_ & -> & -> & _).
  destruct backwards.
  - destruct r as [|d r]; [done|]. by destruct (plain_not_ws c b d Hc) as (_ & _ & _ & _ & ->).
  - destruct r as [|d r]; [done|]. by destruct (plain_not_ws c b d Hc) as (_ & _ & _ & -> & _).
Qed.

Lemma string_reverse_involutive s : string_reverse (string_reverse s) = s.
Proof.
  unfold string_reverse.
  by rewrite list_ascii_of_string_of_list_ascii, reverse_involutive,
    string_of_list_ascii_of_string.
Qed.

Lemma strip_ws_all_plain backwards s :
  Forall (fun c => plain c = true) (list_ascii_of_string s) -> strip_ws backwards s = s.
Proof.
  destruct s as [|c r]; [done|]. simpl. intros Hs. apply Forall_cons in Hs as [Hc _].
  by apply strip_ws_plain_head.
Qed.

(** Text of printable, non-blank ASCII characters has nothing to trim. *)
Lemma trim_all_plain s :
  Forall (fun c => plain c = true) (list_ascii_of_string s) -> trim s = s.
Proof.
  intros Hs. unfold trim.
  rewrite (strip_ws_all_plain true).
  - rewrite string_reverse_involutive. by apply strip_ws_all_plain.
  - unfold string_reverse. rewrite list_ascii_of_string_of_list_ascii.
    by apply Forall_reverse.
Qed.

Lemma base64_encode_plain bytes :
  Forall (fun c => plain c = true) (list_ascii_of_string (base64_encode bytes)).
Proof.
  induction bytes as [|a|a b|a b c rest IH] using string_ind3; [by constructor|..].
  - pose proof (N_of_ascii_bound a) as Ha.
    destruct (sextet_bounds (N_of_ascii a) 0 0 Ha) as (B1 & B2 & _); [done..|].
    cbn [base64_encode append list_ascii_of_string].
    repeat (constructor; [by apply base64_char_plain || reflexivity|]). constructor.
  - pose proof (N_of_ascii_bound a) as Ha. pose proof (N_of_ascii_bound b) as Hb.
    destruct (sextet_bounds (N_of_ascii a) (N_of_ascii b) 0 Ha Hb) as (B1 & _ & B3 & B4 & _);
      [done|].
    cbn [base64_encode append list_ascii_of_string].
    repeat (constructor; [by apply base64_char_plain || reflexivity|]). constructor.
  - pose proof (N_of_ascii_bound a) as Ha. pose proof (N_of_ascii_bound b) as Hb.
    pose proof (N_of_ascii_bound c) as Hc.
    destruct (sextet_bounds _ _ _ Ha Hb Hc) as (B1 & _ & B3 & _ & B5 & B6).
    cbn [base64_encode list_ascii_of_string].
    repeat (constructor; [by apply base64_char_plain|]). exact IH.
Qed.

Lemma base64_encode_empty bytes : base64_encode bytes = "" -> bytes = "".
Proof. by destruct bytes as [|a [|b [|c rest]]]. Qed.

(** What [BASE64_REGEX] lets through: a length that is a multiple of
    four, over the alphabet and the padding character. *)
Lemma BASE64_REGEX_test_shape s :
  BASE64_REGEX_test s = true ->
  (String.length s mod 4 = 0)%nat /\
  Forall (fun c => is_base64_char c = true \/ c = "="%char) (list_ascii_of_string s).
Proof.
  assert (forall n s, (String.length s <= n)%nat -> BASE64_REGEX_test s = true ->
            (String.length s mod 4 = 0)%nat /\
            Forall (fun c => is_base64_char c = true \/ c = "="%char)
              (list_ascii_of_string s)) as H.
  { induction n as [|n IH]; intros t Ht Htest.
    - destruct t; [by split; [|constructor]|simpl in Ht; lia].
    - destruct t as [|a [|b [|c [|d rest]]]]; try done; try (by split; [|constructor]).
      cbn [BASE64_REGEX_test] in Htest.
      destruct (is_base64_char a && is_base64_char b && is_base64_char c
                && is_base64_char d) eqn:Hfour.
      + apply andb_true_iff in Hfour as [Hfour Hd].
        apply andb_true_iff in Hfour as [Hfour Hc].
        apply andb_true_iff in Hfour as [Ha Hb].
        destruct (IH rest) as [Hlen Hall]; [simpl in Ht; lia|done|].
        split.
        * cbn [String.length].
          replace (S (S (S (S (String.length rest)))))
            with (String.length rest + 1 * 4)%nat by lia.
          by rewrite Nat.Div0.mod_add.
        * cbn [list_ascii_of_string]. repeat (constructor; [by left|]). done.
      + destruct rest; [|done].
        apply andb_true_iff in Htest as [Hab Hpad].
        apply andb_true_iff in Hab as [Ha Hb].
        split; [done|]. cbn [list_ascii_of_string].
        constructor; [by left|]. constructor; [by left|].
        apply orb_true_iff in Hpad as [Hp|Hp]; apply andb_true_iff in Hp as [Hc Hd].
        * apply Ascii.eqb_eq in Hc, Hd. subst. repeat constructor; by right.
        * apply Ascii.eqb_eq in Hd. subst.
          constructor; [by left|]. constructor; [by right|]. constructor. }
  intros Htest. by apply (H (String.length s)).
Qed.

(** X1. [deobfuscateWebhookUrl] undoes [obfuscateWebhookUrl]: every
    well-formed string comes back unchanged, the empty one included. *)
Theorem deobfuscate_obfuscate {D : Utf8Decoder} (url : string) :
  utf8_valid url = true ->
  deobfuscateWebhookUrl (obfuscateWebhookUrl url) = url.
Proof.
  intros Hvalid. unfold deobfuscateWebhookUrl, obfuscateWebhookUrl.
  rewrite trim_all_plain by apply base64_encode_plain.
  rewrite BASE64_REGEX_test_encode. simpl. rewrite orb_false_r.
  destruct (String.eqb_spec (base64_encode url) "") as [He|_].
  - by apply base64_encode_empty in He.
  - rewrite base64_decode_encode. by apply Buffer_toString_utf8_valid.
Qed.

Lemma deobfuscate_obfuscate_witness :
  deobfuscateWebhookUrl (D:=plain_decoder)
    (obfuscateWebhookUrl "https://discord.com/api/webhooks/示例") =
  "https://discord.com/api/webhooks/示例".
Proof.
  apply (@deobfuscate_obfuscate plain_decoder "https://discord.com/api/webhooks/示例").
  reflexivity.
Defined.

(** X2. What [obfuscateWebhookUrl] returns always passes [BASE64_REGEX],
    has four characters for every three bytes of the URL (rounded up), and
    holds no character that [trim] would remove. *)
Theorem obfuscate_shape (url : string) :
  BASE64_REGEX_test (obfuscateWebhookUrl url) = true /\
  String.length (obfuscateWebhookUrl url) = (4 * ((String.length url + 2) / 3))%nat /\
  trim (obfuscateWebhookUrl url) = obfuscateWebhookUrl url /\
  (obfuscateWebhookUrl url = "" <-> url = "").
Proof.
  unfold obfuscateWebhookUrl. split_and!.
  - apply BASE64_REGEX_test_encode.
  - apply base64_encode_length.
  - apply trim_all_plain, base64_encode_plain.
  - split; [apply base64_encode_empty|by intros ->].
Qed.

(** X3. [deobfuscateWebhookUrl] answers the empty string, without
    decoding, for every input that after trimming has a length that is not
    a multiple of four or holds a character outside the base64 alphabet
    and the padding character. *)
Theorem deobfuscate_rejects {D : Utf8Decoder} (encoded : string) :
  (String.length (trim encoded) mod 4 <> 0)%nat \/
  Exists (fun c => is_base64_char c = false /\ c <> "="%char)
    (list_ascii_of_string (trim encoded)) ->
  deobfuscateWebhookUrl encoded = "".
Proof.
  intros Hbad. unfold deobfuscateWebhookUrl.
  destruct (BASE64_REGEX_test (trim encoded)) eqn:Htest; [|by rewrite orb_true_r].
  apply BASE64_REGEX_test_shape in Htest as [Hlen Hall]. exfalso.
  destruct Hbad as [Hbad|Hbad]; [done|].
  apply Exists_exists in Hbad as (c & Hc & Hno & Hne).
  rewrite Forall_forall in Hall. destruct (Hall c Hc) as [Hyes|Heq]; congruence.
Qed.

Lemma deobfuscate_rejects_witness :
  deobfuscateWebhookUrl (D:=plain_decoder) " aHR0cHM6Ly9k-XNj " = "".
Proof.
  apply (@deobfuscate_rejects plain_decoder " aHR0cHM6Ly9k-XNj ").
  right. apply Exists_exists. exists "-"%char. split; [|split; [reflexivity|discriminate]].
  vm_compute. apply list_elem_of_In. simpl. tauto.
Defined.

(** ** The aggregator, further *)

Section more_aggregator_facts.
Context {E : Env} (this : Engine).

Lemma getFromSource_total source : total (getFromSource this source).
Proof.
  intros st. destruct (cache_hit source st) as [q|] eqn:Hhit.
  - rewrite (getFromSource_hit _ _ _ _ Hhit). by eexists _, _.
  - destruct (dispatch_total this source (evict st)) as (found & st1 & Hd).
    rewrite (getFromSource_miss _ _ _ _ _ Hhit Hd). by eexists _, _.
Qed.

Lemma arrange_distinct validCount all :
  deduplicate (config this) = true -> NoDup (identity <$> arrange this validCount all).
Proof.
  intros Hd. unfold arrange. rewrite Hd.
  destruct (_ && _); [|apply NoDup_new_Set_keys].
  eapply sublist_NoDup; [apply (NoDup_new_Set_keys identity all)|].
  apply fmap_sublist, interleaveQueries_sublist.
Qed.

Lemma arrange_nonempty validCount all :
  1 <= maxQueriesPerSource (config this) -> 1 <= validCount ->
  Forall is_truthy all -> all <> [] -> arrange this validCount all <> [].
Proof.
  intros Hc Hv Hall Hne. unfold arrange.
  set (input := if deduplicate (config this) then new_Set identity all else all).
  assert (Forall is_truthy input) as Hin.
  { subst input. destruct (deduplicate _); [by apply new_Set_Forall|done]. }
  assert (input <> []) as Hine.
  { subst input. destruct (deduplicate _); [|done].
    intros Hnil. by apply new_Set_nil in Hnil. }
  destruct (mixStrategies (config this) && (1 <? Z.of_nat (length (sources (config this)))))
    eqn:Hmix; [|done].
  apply andb_true_iff in Hmix as [_ Hn]. apply Z.ltb_lt in Hn.
  rewrite interleaveQueries_spec by lia.
  destruct input as [|x input]; [done|]. apply Forall_cons in Hin as [Hx _].
  destruct (length (sources (config this)) * Z.to_nat (maxQueriesPerSource (config this)))%nat
    as [|k] eqn:Hk; [lia|].
  rewrite firstn_cons, filter_cons_True by done.
  destruct (Z.to_nat validCount) as [|v] eqn:Hv'; [lia|]. done.
Qed.

Lemma collect_all_hits names : forall acc st,
  (forall s, s ∈ names -> is_Some (cache_hit s st)) ->
  exists l, collect this (getFromSource this) names acc st =
            (Val l, if is_nil names then st else evict st).
Proof.
  induction names as [|s rest IH]; intros acc st Hhits.
  - by exists acc.
  - rewrite collect_cons.
    destruct (Hhits s) as [q Hq]; [left|].
    rewrite (getFromSource_hit _ _ _ _ Hq).
    destruct (IH (acc ++ slice0 (maxQueriesPerSource (config this)) q)%list (evict st))
      as [l Hl].
    { intros s' Hs'. rewrite cache_hit_evict. apply Hhits. by right. }
    exists l. rewrite Hl. simpl. destruct rest; simpl; [done|]. by rewrite evict_idem.
Qed.
End more_aggregator_facts.

(** X4. Whatever integer [count] is (zero, negative or above 200
    included) and whatever state the engine is in, [fetchQueries] returns
    without throwing between 1 and 200 queries, and at most
    [max(1, count)]. *)
Theorem fetchQueries_any_count {E : Env} (this : Engine) (st : St) (count : Z) :
  exists l st',
    fetchQueries this count st = (Val l, st') /\
    (1 <= length l <= 200)%nat /\
    Z.of_nat (length l) <= Z.max 1 count.
Proof.
  unfold fetchQueries. rewrite fetchQueries_with_run.
  destruct (collect_total this (getFromSource this) (sources (config this)) [] st)
    as (all & st1 & ->).
  destruct (finish_ok this (Z.max 1 (Z.min count 200)) all st1) as (l & st' & Hf & ? & ? & _);
    [lia|].
  exists l, st'. split; [done|]. lia.
Qed.

(** X5. With [deduplicate] set, the batch [fetchQueries] returns holds no
    query twice (no two of its members are the same value), whether it
    comes from the sources or from the local fallback list. *)
Theorem fetchQueries_distinct {E : Env} (this : Engine) (st : St) (count : Z) :
  deduplicate (config this) = true ->
  exists l st',
    fetchQueries this count st = (Val l, st') /\ NoDup l /\ NoDup (identity <$> l).
Proof.
  intros Hd. unfold fetchQueries. rewrite fetchQueries_with_run.
  destruct (collect_total this (getFromSource this) (sources (config this)) [] st)
    as (all & st1 & ->).
  assert (forall l : list jsval, NoDup (identity <$> l) ->
                                 NoDup l /\ NoDup (identity <$> l)) as Hboth.
  { intros l Hl. split; [by eapply NoDup_fmap_1|done]. }
  rewrite finish_run. simpl. destruct (_ =? 0); eexists _, _; (split; [reflexivity|]);
    apply Hboth.
  - eapply sublist_NoDup; [apply shuffled_fallback_distinct|].
    apply fmap_sublist, slice0_sublist.
  - eapply sublist_NoDup; [|apply fmap_sublist, slice0_sublist].
    rewrite shuffleArray_perm. by apply arrange_distinct.
Qed.

Lemma fetchQueries_distinct_witness :
  exists l st',
    fetchQueries (E:=offline) (engine_of None) 12 (initial 0) = (Val l, st') /\
    NoDup l /\ NoDup (identity <$> l).
Proof.
  apply (@fetchQueries_distinct offline (engine_of None) (initial 0) 12). reflexivity.
Defined.

(** X6. The local fallback list is never mixed into a batch: when the
    sources contributed at least one query, every member of the batch is a
    contributed query; only when they contributed nothing is the batch
    drawn from the curated list. *)
Theorem fallback_never_mixed {E : Env} (supplied : option PartialConfig) (logger : bool)
    (st : St) (count : Z) :
  let this := {| config := constructor supplied; has_logger := logger |} in
  reachable this st ->
  exists all st1 l st',
    collect this (getFromSource this) (sources (config this)) [] st = (Val all, st1) /\
    fetchQueries this count st = (Val l, st') /\
    (all <> [] -> Forall (fun q => q ∈ all) l) /\
    (all = [] -> Forall (fun q => q ∈ JStr <$> fallback) l).
Proof.
  intros this Hr. pose proof (reachable_cache_inv this st Hr) as Hinv.
  destruct (collect_ok this (sources (config this)) [] st Hinv) as (all & st1 & Hc & Hall & _);
    [done|].
  unfold fetchQueries. rewrite fetchQueries_with_run, Hc.
  set (validCount := Z.max 1 (Z.min count 200)).
  exists all, st1. rewrite finish_run. simpl.
  destruct (Z.eqb_spec (Z.of_nat (length
    (slice0 validCount (shuffleArray (draws st1) (arrange this validCount all))))) 0)
    as [Hz|Hnz]; eexists _, _; (split; [reflexivity|]); (split; [reflexivity|]).
  - split; [|intros _; apply slice0_Forall, shuffled_fallback_members].
    intros Hne. exfalso.
    apply (arrange_nonempty this validCount all); [subst this; simpl; lia|lia|done|done|].
    rewrite slice0_length in Hz by lia. rewrite shuffleArray_perm in Hz.
    destruct (arrange this validCount all); [done|simpl in Hz; lia].
  - split.
    + intros _. apply slice0_Forall. rewrite shuffleArray_perm.
      apply Forall_forall. intros q Hq. by eapply elem_of_arrange.
    + intros ->. rewrite arrange_nil in Hnz.
      assert (shuffleArray (draws st1) [] = []) as Hs
        by apply Permutation_nil_r, shuffleArray_perm.
      rewrite Hs in Hnz. unfold slice0 in Hnz.
      destruct (validCount <? 0); rewrite take_nil in Hnz; done.
Qed.

Lemma fallback_never_mixed_witness :
  let this := {| config := constructor None; has_logger := true |} in
  exists all st1 l st',
    collect this (getFromSource (E:=offline) this) (sources (config this)) [] (initial 0)
      = (Val all, st1) /\
    fetchQueries (E:=offline) this 5 (initial 0) = (Val l, st') /\
    (all <> [] -> Forall (fun q => q ∈ all) l) /\
    (all = [] -> Forall (fun q => q ∈ JStr <$> fallback) l).
Proof.
  apply (@fallback_never_mixed offline None true (initial 0) 5). apply reach_initial.
Defined.

(** X7. When every configured source has a fresh cache entry,
    [fetchQueries] answers from the cache alone: it hands no request to the
    HTTP client and no time passes. *)
Theorem fetchQueries_all_cached {E : Env} (this : Engine) (st : St) (count : Z) :
  (forall s, s ∈ sources (config this) -> is_Some (cache_hit s st)) ->
  exists l st',
    fetchQueries this count st = (Val l, st') /\
    sent st' = sent st /\ clock st' = clock st /\
    (forall k e, cache st' !! k = Some e -> cache st !! k = Some e).
Proof.
  intros Hhits. unfold fetchQueries. rewrite fetchQueries_with_run.
  destruct (collect_all_hits this (sources (config this)) [] st Hhits) as [all ->].
  set (st1 := if is_nil (sources (config this)) then st else evict st).
  assert (sent st1 = sent st /\ clock st1 = clock st /\
          forall k e, cache st1 !! k = Some e -> cache st !! k = Some e) as (Hs & Hc & Hk).
  { subst st1. destruct (is_nil _); [done|]. split_and!; [done|done|].
    intros k e He. by apply evict_lookup in He as [He _]. }
  rewrite finish_run. simpl. destruct (_ =? 0); eexists _, _; (split; [reflexivity|]).
  - unfold log, when, modify. destruct (has_logger this); simpl; done.
  - done.
Qed.

Lemma fetchQueries_all_cached_witness :
  let this := engine_with_sources ["cn-news"] in
  let E := answering (card_payload "hot topic") in
  let st := advance 1000 (fetchQueries (E:=E) this 3 (initial 0)).2 in
  exists l st',
    fetchQueries (E:=E) this 3 st = (Val l, st') /\
    sent st' = sent st /\ clock st' = clock st /\
    (forall k e, cache st' !! k = Some e -> cache st !! k = Some e).
Proof.
  apply (@fetchQueries_all_cached (answering (card_payload "hot topic"))
           (engine_with_sources ["cn-news"])
           (advance 1000
              (fetchQueries (E:=answering (card_payload "hot topic"))
                 (engine_with_sources ["cn-news"]) 3 (initial 0)).2) 3).
  intros s Hs. apply list_elem_of_singleton in Hs. subst s.
  vm_compute. eauto.
Defined.

(** ** The cache, further *)

(** X8. In every state the engine reaches, each cache entry belongs to a
    recognized source and holds a non-empty list of truthy values (so a
    string among them is not empty): an empty result, an unknown source
    and a falsy value are never cached. *)
Theorem cache_entries_well_formed {E : Env} (this : Engine) (st : St) :
  reachable this st ->
  forall source entry,
    cache st !! source = Some entry ->
    source ∈ recognized /\ queries entry <> [] /\ Forall is_truthy (queries entry) /\
    (forall s, JStr s ∈ queries entry -> nonempty s).
Proof.
  intros Hr source entry He.
  destruct (reachable_cache_inv this st Hr source entry He) as (? & ? & Hall & _).
  split_and!; [done..|]. intros s Hs. apply truthy_JStr.
  rewrite Forall_forall in Hall. by apply Hall.
Qed.

Lemma cache_entries_well_formed_witness :
  exists entry,
    cache (getFromSource (E:=offline) (engine_of None) "local-fallback" (initial 0)).2
      !! "local-fallback" = Some entry /\
    ("local-fallback" ∈ recognized /\ queries entry <> [] /\
     Forall is_truthy (queries entry) /\
     (forall s, JStr s ∈ queries entry -> nonempty s)).
Proof.
  eexists. split.
  - vm_compute. reflexivity.
  - apply (@cache_entries_well_formed offline (engine_of None)
             (getFromSource (E:=offline) (engine_of None) "local-fallback" (initial 0)).2).
    + apply reach_lookup, reach_initial.
    + vm_compute. reflexivity.
Defined.

(** X9. [clearCache] empties the cache: the next lookup of a remote
    source hands a request to the HTTP client, however fresh its entry
    was. *)
Theorem clearCache_forces_refetch {E : Env} (this : Engine) (source : string) (st : St) :
  source ∈ remote ->
  cache (clearCache st).2 = ∅ /\
  sent (clearCache st).2 = sent st /\
  (length (sent st) < length (sent (getFromSource this source (clearCache st).2).2))%nat.
Proof.
  intros Hs. split_and!; [done|done|].
  apply (getFromSource_miss_sends this source (clearCache st).2); [|done].
  unfold cache_hit. simpl. by rewrite lookup_empty.
Qed.

Lemma clearCache_forces_refetch_witness :
  let this := engine_with_sources ["cn-news"] in
  let E := answering (card_payload "hot topic") in
  let st := (fetchQueries (E:=E) this 3 (initial 0)).2 in
  cache (clearCache st).2 = ∅ /\
  sent (clearCache st).2 = sent st /\
  (length (sent st) <
   length (sent (getFromSource (E:=E) this "cn-news" (clearCache st).2).2))%nat.
Proof.
  apply (@clearCache_forces_refetch (answering (card_payload "hot topic"))
           (engine_with_sources ["cn-news"]) "cn-news").
  apply list_elem_of_In. simpl. tauto.
Defined.

(** X10. A fetch that yields nothing is not cached: after a lookup that
    went to the adapter and returned the empty list the cache has no entry
    for the source, so the next lookup, whenever it comes, goes to the
    adapter again (and for a remote source sends a request again). *)
Theorem empty_result_not_cached {E : Env} (this : Engine) (source : string) (st st1 : St) :
  cache_hit source st = None ->
  getFromSource this source st = (Val [], st1) ->
  cache st1 !! source = None /\
  (forall ms, cache_hit source (advance ms st1) = None) /\
  (source ∈ remote ->
   forall ms,
     (length (sent st1) <
      length (sent (getFromSource this source (advance ms st1)).2))%nat).
Proof.
  intros Hmiss Hrun.
  destruct (getFromSource_miss_run this source st Hmiss) as (found & st0 & Hd & Hg).
  rewrite Hrun in Hg. simplify_eq.
  pose proof (dispatch_same_cache this source (evict st)) as Hc.
  rewrite Hd in Hc. simpl in Hc.
  assert (cache (settle this source [] st0) !! source = None) as Hnone.
  { assert (cache (settle this source [] st0) = cache st0) as ->.
    { unfold settle. simpl. by destruct (has_logger this). }
    rewrite Hc. destruct (cache (evict st) !! source) as [e|] eqn:He; [|done].
    apply evict_lookup in He as [He Hfresh].
    unfold cache_hit in Hmiss. rewrite He in Hmiss.
    destruct (Z.ltb_spec (clock st) (expires e)); [done|lia]. }
  assert (forall ms, cache_hit source (advance ms (settle this source [] st0)) = None)
    as Hagain.
  { intros ms. unfold cache_hit. simpl. by rewrite Hnone. }
  split_and!; [done|done|].
  intros Hs ms.
  exact (getFromSource_miss_sends this source (advance ms _) (Hagain ms) Hs).
Qed.

Lemma empty_result_not_cached_witness :
  let this := engine_of None in
  let st1 := (getFromSource (E:=offline) this "reddit" (initial 0)).2 in
  cache st1 !! "reddit" = None /\
  (forall ms, cache_hit "reddit" (advance ms st1) = None) /\
  ("reddit" ∈ remote ->
   forall ms,
     (length (sent st1) <
      length (sent (getFromSource (E:=offline) this "reddit" (advance ms st1)).2))%nat).
Proof.
  apply (@empty_result_not_cached offline (engine_of None) "reddit" (initial 0)
           (getFromSource (E:=offline) (engine_of None) "reddit" (initial 0)).2).
  - reflexivity.
  - vm_compute. reflexivity.
Defined.

(** X11. A lookup of one source leaves the entries of every other source
    as they are, apart from evicting the expired ones: it neither adds,
    refreshes nor removes a fresh entry of another source. *)
Theorem lookup_keeps_other_entries {E : Env} (this : Engine) (source other : string)
    (st : St) :
  other <> source ->
  cache (getFromSource this source st).2 !! other =
  match cache st !! other with
  | Some entry => if clock st <? expires entry then Some entry else None
  | None => None
  end.
Proof.
  intros Hne.
  assert (cache (evict st) !! other =
          match cache st !! other with
          | Some entry => if clock st <? expires entry then Some entry else None
          | None => None
          end) as Hev.
  { apply option_eq. intros e. rewrite evict_lookup.
    destruct (cache st !! other) as [e'|]; [|by split; [intros [? _]|]].
    destruct (Z.ltb_spec (clock st) (expires e')); split.
    - by intros [? _].
    - intros [= <-]. done.
    - intros [[= <-] ?]. lia.
    - done. }
  rewrite <- Hev. destruct (cache_hit source st) as [q|] eqn:Hhit.
  - by rewrite (getFromSource_hit _ _ _ _ Hhit).
  - destruct (getFromSource_miss_run this source st Hhit) as (found & st0 & Hd & ->).
    pose proof (dispatch_same_cache this source (evict st)) as Hc.
    rewrite Hd in Hc. unfold same_cache in Hc. simpl in Hc. simpl. rewrite <- Hc.
    unfold settle, store. repeat case_match; simpl; try done;
      by rewrite lookup_insert_ne.
Qed.

Lemma lookup_keeps_other_entries_witness :
  let this := engine_of None in
  let st := (getFromSource (E:=offline) this "local-fallback" (initial 0)).2 in
  cache (getFromSource (E:=offline) this "reddit" st).2 !! "local-fallback" =
  match cache st !! "local-fallback" with
  | Some entry => if clock st <? expires entry then Some entry else None
  | None => None
  end.
Proof.
  apply (@lookup_keeps_other_entries offline (engine_of None) "reddit" "local-fallback").
  discriminate.
Defined.

(** ** The adapters, further *)

Lemma slice0_length_le {A} n (l : list A) : 0 <= n -> (length (slice0 n l) <= Z.to_nat n)%nat.
Proof. intros Hn. rewrite slice0_take by done. rewrite length_take. lia. Qed.

Lemma number_ltb_of_Z a b : number_ltb (of_Z a) (of_Z b) = (a <? b).
Proof.
  unfold number_ltb, of_Z. simpl.
  destruct (Z.ltb_spec a b) as [Hlt|Hge].
  - apply negb_true_iff. destruct (Qle_bool _ _) eqn:Hle; [|done].
    apply Qle_bool_iff in Hle. rewrite !Qred_correct in Hle.
    rewrite <- Zle_Qle in Hle. lia.
  - apply negb_false_iff. apply Qle_bool_iff. rewrite !Qred_correct.
    by rewrite <- Zle_Qle.
Qed.

Section length_filters.
Context {E : Env}.

Lemma length_above_JStr lo s : length_above lo (JStr s) <-> lo < js_length s.
Proof.
  unfold length_above.
  change (prop (JStr s) "length") with (Some (JNum (of_Z (js_length s)))).
  split.
  - intros (len & n & Hp & Hn & Hlt). injection Hp as <-.
    change (ToNumber (JNum (of_Z (js_length s)))) with (Some (of_Z (js_length s))) in Hn.
    injection Hn as <-. rewrite number_ltb_of_Z in Hlt. lia.
  - intros Hlo. exists (JNum (of_Z (js_length s))), (of_Z (js_length s)).
    split_and!; [done..|]. rewrite number_ltb_of_Z. lia.
Qed.

Lemma length_below_JStr hi s : length_below hi (JStr s) <-> js_length s < hi.
Proof.
  unfold length_below.
  change (prop (JStr s) "length") with (Some (JNum (of_Z (js_length s)))).
  split.
  - intros (len & n & Hp & Hn & Hlt). injection Hp as <-.
    change (ToNumber (JNum (of_Z (js_length s)))) with (Some (of_Z (js_length s))) in Hn.
    injection Hn as <-. rewrite number_ltb_of_Z in Hlt. lia.
  - intros Hlo. exists (JNum (of_Z (js_length s))), (of_Z (js_length s)).
    split_and!; [done..|]. rewrite number_ltb_of_Z. lia.
Qed.

Lemma between_spec lo hi v :
  between lo hi v = Some true ->
  is_truthy v /\ length_above lo v /\ length_below hi v.
Proof.
  unfold between, is_truthy, length_above, length_below, js_gt, js_lt.
  destruct (truthy v); [|done].
  destruct (prop v "length") as [len|]; simpl; [|done].
  destruct (ToNumber len) as [n|] eqn:Hn; simpl; [|done].
  destruct (number_ltb (of_Z lo) n) eqn:Hlo; [|done].
  intros [= Hhi]. split_and!; [done|by exists len, n..].
Qed.

Lemma longer_than_spec lo v :
  longer_than lo v = Some true -> is_truthy v /\ length_above lo v.
Proof.
  unfold longer_than, is_truthy, length_above, js_gt.
  destruct (truthy v); [|done].
  destruct (prop v "length") as [len|]; simpl; [|done].
  destruct (ToNumber len) as [n|] eqn:Hn; simpl; [|done].
  intros [= Hlo]. split; [done|by exists len, n].
Qed.

Lemma redditQueries_bounds parsed l :
  redditQueries parsed = Some l ->
  Forall (fun t => is_truthy t /\ length_above 10 t /\ length_below 100 t) l.
Proof.
  unfold redditQueries. intros H.
  destruct (prop parsed "data") as [data|]; simpl in H; [|done].
  destruct (iter _) as [posts|]; simpl in H; [|done].
  eapply flatMapM_Forall; [|exact H]. clear. intros post l H. simpl in H.
  destruct (prop post _) as [pdata|]; simpl in H; [|done].
  destruct (between _ _ _) as [[|]|] eqn:Hb; simpl in H; simplify_eq; constructor;
    [|constructor].
  by apply between_spec.
Qed.

Lemma titles_longer_than_bound lo xs l :
  titles_longer_than lo xs = Some l ->
  Forall (fun t => is_truthy t /\ length_above lo t) l.
Proof.
  unfold titles_longer_than. intros H.
  destruct (as_array xs) as [arr|]; simpl in H; [|done].
  destruct (mapM _ arr) as [titles|]; simpl in H; [|done].
  apply filterM_spec in H as [H _]. eapply Forall_impl; [exact H|].
  intros v. apply longer_than_spec.
Qed.
End length_filters.

Section adapter_bounds.
Context {E : Env} (this : Engine).

Lemma fetchGoogleTrends_cap : on_val (fetchGoogleTrends this) (fun l => (length l <= 20)%nat).
Proof.
  unfold fetchGoogleTrends. apply on_val_try_catch; [|intros; by apply on_val_ret; simpl; lia].
  on_val_tac. apply on_val_ret. by apply (slice0_length_le 20).
Qed.

Lemma fetchReddit_bounds :
  on_val (fetchReddit this)
    (Forall (fun t => is_truthy t /\ length_above 10 t /\ length_below 100 t)).
Proof.
  unfold fetchReddit. on_val_tac. apply on_val_lift_js. intros l.
  apply redditQueries_bounds.
Qed.

Lemma fetchNewsFallback_bounds :
  on_val (fetchNewsFallback this)
    (fun l => (length l <= 10)%nat /\
              Forall (text_of (fun s => 10 < js_length s < 100)) l).
Proof.
  unfold fetchNewsFallback.
  apply on_val_try_catch; [|intros; by apply on_val_ret; split; [simpl; lia|constructor]].
  on_val_tac. apply on_val_ret. split.
  { rewrite length_fmap. by apply (slice0_length_le 10). }
  apply Forall_text_of, slice0_Forall, Forall_forall.
  intros t [Ht _]%list_elem_of_filter.
  by apply text_between_bounds.
Qed.

Lemma fetchNews_bounds :
  on_val (fetchNews this) (Forall (fun t => is_truthy t /\ length_above 10 t)).
Proof.
  assert (on_val (fetchNewsFallback this)
            (Forall (fun t => is_truthy t /\ length_above 10 t))) as Hfb.
  { intros st l st' H. destruct (fetchNewsFallback_bounds st l st' H) as [_ Hl].
    eapply Forall_impl; [exact Hl|]. intros v (s & -> & Hs). split.
    - apply truthy_JStr. intros ->. simpl in Hs. lia.
    - apply length_above_JStr. lia. }
  unfold fetchNews. apply on_val_try_catch; [|by intros].
  repeat case_match; try done.
  on_val_tac. apply on_val_lift_js. intros l. apply titles_longer_than_bound.
Qed.

Lemma fetchWikipedia_bounds :
  on_val (fetchWikipedia this) (Forall (fun t => is_truthy t /\ length_above 3 t)).
Proof.
  unfold fetchWikipedia. on_val_tac. apply on_val_lift_js. intros l.
  apply titles_longer_than_bound.
Qed.

Lemma cnNewsEndpoints_cap endpoints :
  0 <= maxQueriesPerSource (config this) ->
  on_val (cnNewsEndpoints this endpoints)
    (fun found => forall l, found = Some l ->
       (length l <= Z.to_nat (maxQueriesPerSource (config this)))%nat).
Proof.
  intros Hq. induction endpoints as [|e rest IH]; simpl.
  - by apply on_val_ret.
  - apply on_val_bind. intros data _. apply on_val_bind. intros l _.
    case_match; [|done]. apply on_val_ret. intros ? [= <-]. by apply slice0_length_le.
Qed.

Lemma fetchCnNews_cap :
  0 <= maxQueriesPerSource (config this) ->
  on_val (fetchCnNews this)
    (fun l => (length l <= Z.to_nat (maxQueriesPerSource (config this)))%nat).
Proof.
  intros Hq. unfold fetchCnNews. apply on_val_try_catch.
  - apply on_val_bind. intros found (st & st' & Hf).
    apply (cnNewsEndpoints_cap _ Hq) in Hf. destruct found as [l|].
    + apply on_val_ret. rewrite length_fmap. by apply Hf.
    + on_val_tac. apply on_val_ret. rewrite length_fmap. by apply slice0_length_le.
  - intros. on_val_tac. apply on_val_ret. simpl. lia.
Qed.
End adapter_bounds.

(** X12. The adapters cap what they return: the trend adapter at 20
    queries, the headline scraper at 10, the regional adapter at
    [maxQueriesPerSource]. *)
Theorem adapter_result_caps {E : Env} (supplied : option PartialConfig) (logger : bool)
    (st : St) :
  let this := {| config := constructor supplied; has_logger := logger |} in
  (exists l st', fetchGoogleTrends this st = (Val l, st') /\ (length l <= 20)%nat) /\
  (exists l st', fetchNewsFallback this st = (Val l, st') /\ (length l <= 10)%nat) /\
  (exists l st', fetchCnNews this st = (Val l, st') /\
                 Z.of_nat (length l) <= maxQueriesPerSource (config this) <= 50).
Proof.
  intros this. split_and!.
  - destruct (fetchGoogleTrends_total this st) as (l & st' & H). exists l, st'.
    split; [done|]. by eapply fetchGoogleTrends_cap.
  - destruct (fetchNewsFallback_total this st) as (l & st' & H). exists l, st'.
    split; [done|]. by eapply fetchNewsFallback_bounds.
  - destruct (fetchCnNews_total this st) as (l & st' & H). exists l, st'.
    pose proof (constructor_maxQueriesPerSource supplied) as Hq.
    split; [done|]. split; [|exact (proj2 Hq)].
    pose proof (fetchCnNews_cap this ltac:(subst this; simpl; lia) st l st' H) as Hl.
    subst this. simpl in *. lia.
Qed.

(** X13. The adapters filter by length, with both bounds exclusive.
    Every value the social-feed adapter returns is truthy and has a
    [length] that converts to a number above 10 and below 100; every value
    the news adapter returns is truthy with a [length] above 10 (a string
    below 100 when scraped); every value the encyclopedia adapter returns
    is truthy with a [length] above 3.  For a string the [length] is its
    number of UTF-16 units: a string title has 11 to 99 of them, or more
    than 10, or more than 3. *)
Theorem adapter_length_filters {E : Env} (this : Engine) (st : St) :
  (exists l st', fetchReddit this st = (Val l, st') /\
     Forall (fun t => is_truthy t /\ length_above 10 t /\ length_below 100 t) l /\
     (forall s, JStr s ∈ l -> 10 < js_length s < 100)) /\
  (exists l st', fetchNews this st = (Val l, st') /\
     Forall (fun t => is_truthy t /\ length_above 10 t) l /\
     (forall s, JStr s ∈ l -> 10 < js_length s)) /\
  (exists l st', fetchNewsFallback this st = (Val l, st') /\
     Forall (text_of (fun s => 10 < js_length s < 100)) l) /\
  (exists l st', fetchWikipedia this st = (Val l, st') /\
     Forall (fun t => is_truthy t /\ length_above 3 t) l /\
     (forall s, JStr s ∈ l -> 3 < js_length s)).
Proof.
  split_and!.
  - destruct (fetchReddit_total this st) as (l & st' & H). exists l, st'.
    pose proof (fetchReddit_bounds this st l st' H) as Hl.
    split_and!; [done|done|]. intros s Hs. rewrite Forall_forall in Hl.
    destruct (Hl _ Hs) as (_ & Hlo%length_above_JStr & Hhi%length_below_JStr). lia.
  - destruct (fetchNews_total this st) as (l & st' & H). exists l, st'.
    pose proof (fetchNews_bounds this st l st' H) as Hl.
    split_and!; [done|done|]. intros s Hs. rewrite Forall_forall in Hl.
    by destruct (Hl _ Hs) as (_ & Hlo%length_above_JStr).
  - destruct (fetchNewsFallback_total this st) as (l & st' & H). exists l, st'.
    split; [done|]. by eapply fetchNewsFallback_bounds.
  - destruct (fetchWikipedia_total this st) as (l & st' & H). exists l, st'.
    pose proof (fetchWikipedia_bounds this st l st' H) as Hl.
    split_and!; [done|done|]. intros s Hs. rewrite Forall_forall in Hl.
    by destruct (Hl _ Hs) as (_ & Hlo%length_above_JStr).
Qed.

(** X14. One rejected request ends the regional adapter: when the HTTP
    client rejects the request to the first JSON endpoint, [fetchCnNews]
    returns the empty list after that single request, without trying the
    second endpoint or the HTML board, and logs the failure twice (the
    transport error, then the adapter's warning). *)
Theorem fetchCnNews_stops_at_rejection {E : Env} (this : Engine) (st : St) (e : string) :
  httpClient (sent st) cn_first_request = Rejected e ->
  exists st',
    fetchCnNews this st = (Val [], st') /\
    sent st' = (sent st ++ [cn_first_request])%list /\
    cache st' = cache st /\
    logs st' =
      (logs st ++
       if has_logger this then
         [ {| log_source := "QUERY-FETCH";
              log_message := "HTTP request failed for " +:+ req_url cn_first_request
                             +:+ ": " +:+ e;
              log_level := LError |};
           {| log_source := "QUERY-DIVERSITY";
              log_message := "CN news fetch failed: " +:+ e;
              log_level := LWarn |} ]
       else [])%list.
Proof.
  intros Hrej. unfold fetchCnNews, try_catch at 1, bind at 1.
  cbn [cnNewsEndpoints]. unfold bind at 1.
  assert (exists st1,
            fetchHttp this "https://top.baidu.com/api/board?platform=wise&tab=realtime"
              (Some cn_headers) (Some 8000) st = (Thrown e, st1) /\
            sent st1 = (sent st ++ [cn_first_request])%list /\
            cache st1 = cache st /\
            logs st1 =
              (logs st ++
               if has_logger this then
                 [ {| log_source := "QUERY-FETCH";
                      log_message := "HTTP request failed for "
                                     +:+ req_url cn_first_request +:+ ": " +:+ e;
                      log_level := LError |} ]
               else [])%list) as (st1 & -> & Hs & Hc & Hl).
  { unfold fetchHttp, try_catch, bind, gets, modify. cbn [fst snd sent add_request].
    change ({| req_url := "https://top.baidu.com/api/board?platform=wise&tab=realtime";
               req_method := "GET";
               req_headers := default default_user_agent (Some cn_headers);
               req_data := None;
               req_timeout := num_or (Some 8000) 10000 |}) with cn_first_request.
    rewrite Hrej. unfold throw, log, when, modify.
    destruct (has_logger this); eexists; (split; [reflexivity|]); simpl;
      rewrite ?app_nil_r; done. }
  unfold bind, log, when, modify, ret.
  destruct (has_logger this); eexists; (split; [reflexivity|]); simpl;
    rewrite Hs, Hc, Hl; rewrite <- ?app_assoc, ?app_nil_r; done.
Qed.

Lemma fetchCnNews_stops_at_rejection_witness :
  exists st',
    fetchCnNews (E:=offline) (engine_of None) (initial 0) = (Val [], st') /\
    sent st' = (sent (initial 0) ++ [cn_first_request])%list /\
    cache st' = cache (initial 0) /\
    logs st' =
      (logs (initial 0) ++
       if has_logger (engine_of None) then
         [ {| log_source := "QUERY-FETCH";
              log_message := "HTTP request failed for " +:+ req_url cn_first_request
                             +:+ ": " +:+ "ENOTFOUND";
              log_level := LError |};
           {| log_source := "QUERY-DIVERSITY";
              log_message := "CN news fetch failed: " +:+ "ENOTFOUND";
              log_level := LWarn |} ]
       else [])%list.
Proof.
  apply (@fetchCnNews_stops_at_rejection offline (engine_of None) (initial 0) "ENOTFOUND").
  reflexivity.
Defined.

(** X15. Without a news API key (none set, or an empty one) the news
    adapter never contacts the headlines API: it hands exactly one request
    to the HTTP client, for the news homepage, and returns at most ten
    headlines. *)
Theorem fetchNews_without_key {E : Env} (this : Engine) (st : St) :
  NEWS_API_KEY = None \/ NEWS_API_KEY = Some "" ->
  exists l st' request,
    fetchNews this st = (Val l, st') /\
    sent st' = (sent st ++ [request])%list /\
    req_url request = "https://www.bbc.com/news" /\
    (length l <= 10)%nat.
Proof.
  intros Hkey.
  assert (fetchNews this st = fetchNewsFallback this st) as ->.
  { unfold fetchNews, try_catch.
    destruct (fetchNewsFallback_total this st) as (l & st' & Hf).
    destruct Hkey as [-> | ->]; simpl; by rewrite Hf. }
  destruct (fetchNewsFallback_total this st) as (l & st' & Hf).
  pose proof (fetchNewsFallback_bounds this st l st' Hf) as [Hlen _].
  exists l, st'.
  exists {| req_url := "https://www.bbc.com/news"; req_method := "GET";
            req_headers := default_user_agent; req_data := None; req_timeout := 10000 |}.
  split_and!; [done| |done|done].
  revert Hf. unfold fetchNewsFallback, try_catch, bind at 1, fetchHttp, try_catch, bind,
    gets, modify, log, when, throw, ret. cbn.
  destruct (httpClient _ _) as [m|[s|v]]; cbn; [destruct (has_logger this)|..];
    intros [= _ <-]; done.
Qed.

Lemma fetchNews_without_key_witness :
  exists l st' request,
    fetchNews (E:=offline) (engine_of None) (initial 0) = (Val l, st') /\
    sent st' = (sent (initial 0) ++ [request])%list /\
    req_url request = "https://www.bbc.com/news" /\
    (length l <= 10)%nat.
Proof.
  apply (@fetchNews_without_key offline (engine_of None) (initial 0)). by left.
Defined.

(** ** Walking the regional JSON, further *)

Lemma flatMapM_Forall_in {A B} (P : B -> Prop) (f : A -> option (list B)) xs l :
  (forall x l', x ∈ xs -> f x = Some l' -> Forall P l') ->
  flatMapM f xs = Some l -> Forall P l.
Proof.
  unfold flatMapM. revert l.
  induction xs as [|x xs IH]; intros l Hf H; simpl in H.
  - by simplify_eq/=.
  - destruct (f x) as [lx|] eqn:Hx; simpl in H; [|done].
    destruct (mapM f xs) as [ls|] eqn:Hxs; simpl in *; [|done].
    simplify_eq/=. apply Forall_app. split; [eapply Hf; [left|done]|].
    apply IH; [|done]. intros y l' Hy. apply Hf. by right.
Qed.

Lemma unwrap_fuel_leaves fuel : forall entry l,
  (depth entry <= fuel)%nat ->
  unwrap_fuel fuel entry = Some l ->
  l <> [] /\ Forall (fun leaf => nestedArrays leaf = Some []) l.
Proof.
  induction fuel as [|fuel IH]; intros entry l Hd H.
  - simpl in H. destruct (nestedArrays entry) as [[|x nested]|] eqn:Hn; simpl in H; try done.
    + simplify_eq. split; [done|]. by constructor.
    + pose proof (nestedArrays_depth _ _ x Hn ltac:(left)). lia.
  - simpl in H. destruct (nestedArrays entry) as [[|x nested]|] eqn:Hn; simpl in H; try done.
    + simplify_eq. split; [done|]. by constructor.
    + split.
      * unfold flatMapM in H. simpl in H.
        destruct (unwrap_fuel fuel x) as [lx|] eqn:Hx; simpl in H; [|done].
        destruct (mapM _ nested) as [ls|]; simpl in H; [|done]. simplify_eq.
        destruct (IH x lx) as [Hne _]; [|done|].
        { pose proof (nestedArrays_depth _ _ x Hn ltac:(left)). lia. }
        destruct lx; [done|]. done.
      * eapply flatMapM_Forall_in; [|exact H]. intros y l' Hy Hl'.
        apply (IH y l'); [|done].
        pose proof (nestedArrays_depth _ _ y Hn Hy). lia.
Qed.

(** X16. [unwrapCnNewsContainer] flattens completely: when it returns, it
    returns at least one entry, and no returned entry has a non-empty
    [content], [items], [list] or [data] array left to unwrap. *)
Theorem unwrap_returns_leaves (entry : jsval) (leaves : list jsval) :
  unwrapCnNewsContainer entry = Some leaves ->
  leaves <> [] /\
  Forall (fun leaf => nestedArrays leaf = Some [] /\
                      unwrapCnNewsContainer leaf = Some [leaf]) leaves.
Proof.
  intros H. destruct (unwrap_fuel_leaves (depth entry) entry leaves) as [Hne Hl]; [done|done|].
  split; [done|]. eapply Forall_impl; [exact Hl|]. intros leaf Hleaf. split; [done|].
  by rewrite unwrapCnNewsContainer_eq, Hleaf.
Qed.

Lemma unwrap_returns_leaves_witness :
  let entry :=
    JObj 1 [("content",
             JArr 2 [JObj 3 [("items", JArr 4 [JObj 5 [("word", JStr "alpha")];
                                               JObj 6 [("word", JStr "beta")]])]]);
            ("list", JArr 7 [JObj 8 [("title", JStr "gamma")]])] in
  let leaves := [JObj 5 [("word", JStr "alpha")]; JObj 6 [("word", JStr "beta")];
                 JObj 8 [("title", JStr "gamma")]] in
  leaves <> [] /\
  Forall (fun leaf => nestedArrays leaf = Some [] /\
                      unwrapCnNewsContainer leaf = Some [leaf]) leaves.
Proof.
  apply (unwrap_returns_leaves
           (JObj 1 [("content",
                     JArr 2 [JObj 3 [("items", JArr 4 [JObj 5 [("word", JStr "alpha")];
                                                       JObj 6 [("word", JStr "beta")]])]]);
                    ("list", JArr 7 [JObj 8 [("title", JStr "gamma")]])])).
  vm_compute. reflexivity.
Defined.

Lemma title_ok_bounds v s : title_ok v = Some s -> v = JStr s /\ 2 < js_length s < 100.
Proof.
  unfold title_ok. destruct v; try done.
  destruct (_ && _) eqn:Hc; [|done]. intros [= <-].
  apply andb_true_iff in Hc as [H1 H2]. split; [done|lia].
Qed.

Lemma first_some_Some {A B} (f : A -> option B) l b :
  first_some f l = Some b -> exists x, x ∈ l /\ f x = Some b.
Proof.
  induction l as [|x l IH]; [done|]. simpl.
  destruct (f x) as [b'|] eqn:Hx.
  - intros [= <-]. exists x. split; [left|done].
  - intros H. destruct (IH H) as (y & Hy & Hfy). exists y. split; [by right|done].
Qed.

Lemma pick_candidates_bounds item keys s :
  pick_candidates item keys = Some (Some s) -> 2 < js_length s < 100.
Proof.
  induction keys as [|key rest IH]; [done|]. cbn [pick_candidates].
  destruct (prop item key) as [value|]; cbn [mbind option_bind]; [|done].
  destruct (title_ok value) as [t|] eqn:Hok.
  - intros [= <-]. by apply title_ok_bounds in Hok as [_ ?].
  - destruct (truthy value && is_object value); [|exact IH].
    destruct (first_some (fun nestedKey => title_ok (oprop value nestedKey)) candidates)
      as [t|] eqn:Hn; [|exact IH].
    intros [= <-]. apply first_some_Some in Hn as (k & _ & Hk).
    by apply title_ok_bounds in Hk as [_ ?].
Qed.

(** X17. [pickCnNewsTitle] only ever picks a string of 3 to 99
    characters.  A value taken from the fallback scan over all the item's
    values (no candidate key matched) never starts with [http]; a value
    found under the first candidate key, [query], is picked whatever it
    looks like. *)
Theorem pickCnNewsTitle_picks (item : jsval) (title : string) :
  pickCnNewsTitle item = Some (Some title) ->
  2 < js_length title < 100 /\
  (pick_candidates item candidates = Some None -> startsWith "http" title = false) /\
  (forall s, prop item "query" = Some (JStr s) -> 2 < js_length s < 100 -> title = s).
Proof.
  unfold pickCnNewsTitle. intros H.
  destruct (pick_candidates item candidates) as [[t|]|] eqn:Hp; simpl in H; [..|done].
  - simplify_eq. split; [|split].
    + by eapply pick_candidates_bounds.
    + intros Hn. congruence.
    + intros s Hq Hs. unfold candidates in Hp. cbn [pick_candidates] in Hp.
      rewrite Hq in Hp. simpl in Hp.
      replace ((2 <? js_length s) && (js_length s <? 100)) with true in Hp by lia.
      by simplify_eq.
  - destruct (Object_values item) as [vs|]; simpl in H; [|done]. simplify_eq.
    apply first_some_Some in H as (v & _ & Hv). unfold fallback_ok in Hv.
    destruct (title_ok v) as [t|] eqn:Hok; [|done].
    destruct (startsWith "http" t) eqn:Hhttp; [done|]. simplify_eq.
    apply title_ok_bounds in Hok as [_ Hb]. split; [done|]. split; [done|].
    intros s Hq Hs. exfalso. unfold candidates in Hp. cbn [pick_candidates] in Hp.
    rewrite Hq in Hp. simpl in Hp.
    replace ((2 <? js_length s) && (js_length s <? 100)) with true in Hp by lia.
    done.
Qed.

Lemma pickCnNewsTitle_picks_witness :
  let item := JObj 1 [("url", JStr "https://top.baidu.com/x");
                      ("text", JStr "hot topic")] in
  2 < js_length "hot topic" < 100 /\
  (pick_candidates item candidates = Some None -> startsWith "http" "hot topic" = false) /\
  (forall s, prop item "query" = Some (JStr s) -> 2 < js_length s < 100 -> "hot topic" = s).
Proof.
  apply (pickCnNewsTitle_picks
           (JObj 1 [("url", JStr "https://top.baidu.com/x"); ("text", JStr "hot topic")])
           "hot topic").
  vm_compute. reflexivity.
Defined.

(** X18. The HTML scraper of the regional adapter returns every text once:
    what the two patterns capture is collected through a set, so a topic
    matched by both patterns, or twice by one, appears a single time. *)
Theorem html_topics_distinct {E : Env} (html : option string) :
  NoDup (extractCnNewsFromHtml html) /\
  (forall text,
     text ∈ extractCnNewsFromHtml html <->
     text_between 2 100 text = true /\
     exists pattern capture,
       pattern ∈ [RxEllipsisDiv; RxTitleLink] /\
       capture ∈ regex_exec_all pattern (to_text html) /\
       text = String_trim (strip_tags capture)).
Proof.
  split; [apply NoDup_new_Set|].
  intros text. unfold extractCnNewsFromHtml. rewrite elem_of_new_Set_id, elem_of_app.
  rewrite !list_elem_of_filter, !list_elem_of_fmap. split.
  - intros [[Hb (c & -> & Hc)]|[Hb (c & -> & Hc)]]; (split; [done|]).
    + exists RxEllipsisDiv, c. split_and!; [left|done|done].
    + exists RxTitleLink, c. split_and!; [right; left|done|done].
  - intros [Hb (p & c & Hp & Hc & ->)].
    apply elem_of_cons in Hp as [->|Hp]; [left; eauto|].
    apply list_elem_of_singleton in Hp as ->. right; eauto.
Qed.

(** ** Interleaving and request counts, further *)

(** X19. On any input, [interleaveQueries] returns the first [targetCount]
    truthy values among the first [sources.length * maxQueriesPerSource]
    queries, in their input order: empty strings (and any other falsy
    value) are dropped, and so is whatever lies beyond the last source's
    chunk. *)
Theorem interleaveQueries_general (this : Engine) (all : list jsval) (targetCount : Z) :
  1 <= maxQueriesPerSource (config this) ->
  (1 <= length (sources (config this)))%nat ->
  0 <= targetCount ->
  interleaveQueries this all targetCount =
    take (Z.to_nat targetCount)
      (filter is_truthy
         (take (length (sources (config this))
                * Z.to_nat (maxQueriesPerSource (config this))) all)) /\
  interleaveQueries this all targetCount `sublist_of` all /\
  Z.of_nat (length (interleaveQueries this all targetCount)) <= targetCount /\
  Forall is_truthy (interleaveQueries this all targetCount).
Proof.
  intros Hc Hn Ht. pose proof (interleaveQueries_spec this all targetCount Hc Hn Ht) as Hs.
  split_and!.
  - done.
  - apply interleaveQueries_sublist.
  - rewrite Hs, length_take. lia.
  - rewrite Hs. eapply sublist_Forall; [apply sublist_take|].
    apply Forall_forall. by intros q [Hq _]%list_elem_of_filter.
Qed.

Lemma interleaveQueries_general_witness :
  interleaveQueries two_sources_cap_one [JStr "a"; JStr ""; JStr "c"; JStr "d"] 3 =
    take (Z.to_nat 3)
      (filter is_truthy
         (take (length (sources (config two_sources_cap_one))
                * Z.to_nat (maxQueriesPerSource (config two_sources_cap_one)))
            [JStr "a"; JStr ""; JStr "c"; JStr "d"])) /\
  interleaveQueries two_sources_cap_one [JStr "a"; JStr ""; JStr "c"; JStr "d"] 3
    `sublist_of` [JStr "a"; JStr ""; JStr "c"; JStr "d"] /\
  Z.of_nat (length (interleaveQueries two_sources_cap_one [JStr "a"; JStr ""; JStr "c"; JStr "d"] 3)) <= 3 /\
  Forall is_truthy (interleaveQueries two_sources_cap_one [JStr "a"; JStr ""; JStr "c"; JStr "d"] 3).
Proof.
  apply (interleaveQueries_general two_sources_cap_one [JStr "a"; JStr ""; JStr "c"; JStr "d"] 3).
  - simpl. lia.
  - simpl. lia.
  - lia.
Defined.

(** X20. No retries: a lookup of one source hands at most three requests
    to the HTTP client (the regional adapter's two JSON endpoints and its
    HTML board; two for news, one for the others, none for the local
    fallback), and one call of [fetchQueries] at most three per configured
    source. *)
Theorem fetchQueries_request_bound {E : Env} (this : Engine) (st : St) (count : Z) :
  (forall source,
     (length (sent (getFromSource this source st).2) <= length (sent st) + 3)%nat) /\
  (length (sent (fetchQueries this count st).2)
   <= length (sent st) + 3 * length (sources (config this)))%nat /\
  sent st `prefix_of` sent (fetchQueries this count st).2.
Proof.
  split_and!.
  - intros source. apply getFromSource_at_most.
  - unfold fetchQueries. rewrite fetchQueries_with_run.
    pose proof (collect_at_most this (sources (config this)) [] st) as Hc.
    destruct (collect _ _ _ _ st) as [[all|e] st1]; simpl in Hc; [|done].
    pose proof (finish_same_sent this (Z.max 1 (Z.min count 200)) all st1) as Hf.
    unfold same_sent in Hf. rewrite Hf. done.
  - unfold fetchQueries. rewrite fetchQueries_with_run.
    assert (forall names acc s,
              sent s `prefix_of` sent (collect this (getFromSource this) names acc s).2)
      as Hpre.
    { induction names as [|n names IH]; intros acc s; [done|].
      rewrite collect_cons.
      assert (sent s `prefix_of` sent (getFromSource this n s).2) as Hn.
      { destruct (cache_hit n s) as [q|] eqn:Hhit.
        - by rewrite (getFromSource_hit _ _ _ _ Hhit).
        - destruct (getFromSource_miss_run this n s Hhit) as (found & st0 & Hd & ->).
          simpl. rewrite settle_sent.
          assert (keeps more_sent (dispatch this n)) as Hm.
          { revert n Hhit Hd. intros n _ _. revert n.
            apply (dispatch_cases this (fun _ m => keeps more_sent m)).
            - unfold fetchGoogleTrends. keeps_auto.
            - unfold fetchReddit, parse. keeps_auto.
            - pose proof (fetchNewsFallback_more_sent this).
              unfold fetchNews, parse. keeps_auto.
            - pose proof (cnNewsEndpoints_more_sent this).
              unfold fetchCnNews. keeps_auto.
            - unfold fetchWikipedia, parse. keeps_auto.
            - unfold getLocalFallback. keeps_auto.
            - intros. keeps_auto. }
          specialize (Hm (evict s)). by rewrite Hd in Hm. }
      destruct (getFromSource this n s) as [[found|e] s1]; simpl in Hn.
      - etrans; [exact Hn|apply IH].
      - etrans; [exact Hn|]. etrans; [|apply IH].
        assert (sent (log this "QUERY-DIVERSITY"
                        ("Failed to fetch from " +:+ n +:+ ": " +:+ e) LWarn s1).2
                = sent s1) as -> by apply log_same_sent.
        done. }
    specialize (Hpre (sources (config this)) [] st).
    destruct (collect _ _ _ _ st) as [[all|e] st1]; simpl in Hpre; [|done].
    pose proof (finish_same_sent this (Z.max 1 (Z.min count 200)) all st1) as Hf.
    unfold same_sent in Hf. by rewrite Hf.
Qed.

(** X21. The collected queries never exceed [sources.length *
    maxQueriesPerSource], whatever the sources return: each source
    contributes at most [maxQueriesPerSource] of its queries. *)
Theorem collected_within_cap {E : Env} (supplied : option PartialConfig) (logger : bool)
    (lookup : string -> M (list jsval)) (st : St) :
  let this := {| config := constructor supplied; has_logger := logger |} in
  exists all st1,
    collect this lookup (sources (config this)) [] st = (Val all, st1) /\
    Z.of_nat (length all)
      <= Z.of_nat (length (sources (config this))) * maxQueriesPerSource (config this).
Proof.
  intros this.
  destruct (collect_total this lookup (sources (config this)) [] st) as (all & st1 & Hc).
  exists all, st1. split; [done|].
  pose proof (constructor_maxQueriesPerSource supplied) as Hq.
  pose proof (collect_length this lookup (sources (config this))
                ltac:(subst this; simpl; lia) [] st all st1 Hc) as Hl.
  subst this. simpl in *. nia.
Qed.

(** ** The loop over the sources, source by source *)

Section lookups_facts.
Context {E : Env} (this : Engine).

Lemma lookups_cons name rest st :
  lookups this (name :: rest) st =
  let looked := getFromSource this name st in
  let found := match looked.1 with Val found => found | Thrown _ => [] end in
  let later := lookups this rest looked.2 in
  (found :: later.1, later.2).
Proof. reflexivity. Qed.


Lemma lookups_length names : forall st, length (lookups this names st).1 = length names.
Proof.
  induction names as [|n names IH]; intros st; [done|].
  rewrite lookups_cons. cbn zeta. simpl. by rewrite IH.
Qed.

(** The loop collects, source after source, the first
    [maxQueriesPerSource] queries of what each lookup returned. *)
Lemma collect_lookups names : forall acc st,
  collect this (getFromSource this) names acc st =
  (Val (acc ++ concat (slice0 (maxQueriesPerSource (config this))
                         <$> (lookups this names st).1))%list,
   (lookups this names st).2).
Proof.
  induction names as [|n names IH]; intros acc st.
  - simpl. by rewrite app_nil_r.
  - rewrite collect_cons, lookups_cons. cbn zeta.
    destruct (getFromSource_total this n st) as (found & st1 & Hg). rewrite Hg. simpl.
    rewrite IH. by rewrite <- app_assoc.
Qed.








End lookups_facts.



(** ** Chunks and sources *)

(** When every source filled its chunk, the chunk of index [j] is what
    the source of index [j] contributed. *)
Lemma chunk_of_full_contributions {A} (cap : Z) (cs : list (list A)) : forall j c,
  Forall (fun c => length c = Z.to_nat cap) cs ->
  cs !! j = Some c -> chunk cap (concat cs) j = c.
Proof.
  unfold chunk. induction cs as [|c0 cs IH]; intros j c Hfull Hj; [done|].
  apply Forall_cons in Hfull as [H0 Hfull]. destruct j as [|j]; simpl in *.
  - simplify_eq. by apply take_app_length'.
  - rewrite drop_app_add' by done. by apply IH.
Qed.

(** C3. With [mixStrategies] set and more than one source configured, the
    interleave step divides the sequence it is given into chunks of
    [maxQueriesPerSource] members and takes them one at a time, the chunk
    of source index 0 first, then that of index 1, and so on in configured
    order, keeping the truthy members, until the target count is reached.
    On the sequence [fetchQueries] hands it (what the sources contributed,
    at most [maxQueriesPerSource] each, after the optional deduplication)
    the chunks together make up the whole input and nothing is dropped: the
    output is the input cut at the target, of length [min(input length,
    target count)].  When every source filled its chunk, the chunk of index
    [j] is exactly what source [j] contributed. *)
Theorem interleave_takes_chunks_in_order {E : Env} (supplied : option PartialConfig)
    (logger : bool) (st : St) (count : Z) :
  let this := {| config := constructor supplied; has_logger := logger |} in
  let validCount := Z.max 1 (Z.min count 200) in
  let chunkSize := maxQueriesPerSource (config this) in
  let sourceCount := length (sources (config this)) in
  let contributions := slice0 chunkSize <$> (lookups this (sources (config this)) st).1 in
  let all := concat contributions in
  let input := if deduplicate (config this) then new_Set identity all else all in
  reachable this st ->
  mixStrategies (config this) = true ->
  (1 < sourceCount)%nat ->
  (collect this (getFromSource this) (sources (config this)) [] st).1 = Val all /\
  length contributions = sourceCount /\
  arrange this validCount all = interleaveQueries this input validCount /\
  (forall queries target, 0 <= target ->
     interleaveQueries this queries target =
       take (Z.to_nat target)
         (filter is_truthy (concat (chunk chunkSize queries <$> seq 0 sourceCount)))) /\
  concat (chunk chunkSize input <$> seq 0 sourceCount) = input /\
  interleaveQueries this input validCount =
    slice0 validCount (concat (chunk chunkSize input <$> seq 0 sourceCount)) /\
  length (interleaveQueries this input validCount) =
    Nat.min (length input) (Z.to_nat validCount) /\
  (input = all ->
   Forall (fun c => length c = Z.to_nat chunkSize) contributions ->
   forall j c, contributions !! j = Some c -> chunk chunkSize input j = c).
Proof.
  intros this validCount chunkSize sourceCount contributions all input Hr Hmix Hn.
  assert (1 <= chunkSize) as Hc by apply (constructor_maxQueriesPerSource supplied).
  assert (1 <= validCount) as Hv by (subst validCount; lia).
  assert (collect this (getFromSource this) (sources (config this)) [] st
          = (Val all, (lookups this (sources (config this)) st).2)) as Hcollect.
  { by rewrite collect_lookups. }
  assert (Forall is_truthy all) as Hne.
  { destruct (collect_ok this (sources (config this)) [] st
                (reachable_cache_inv this st Hr)) as (l & st' & Hl & Hne & _); [done|].
    rewrite Hcollect in Hl. by simplify_eq. }
  assert (length all <= sourceCount * Z.to_nat chunkSize)%nat as Hlen.
  { pose proof (collect_length this (getFromSource this) (sources (config this))
                  ltac:(lia) [] _ _ _ Hcollect) as H0.
    simpl in H0. exact H0. }
  assert (Forall is_truthy input) as Hne'.
  { subst input. destruct (deduplicate _); [by apply new_Set_Forall|done]. }
  assert (length input <= sourceCount * Z.to_nat chunkSize)%nat as Hlen'.
  { subst input. destruct (deduplicate _); [|done].
    etrans; [apply new_Set_length|done]. }
  assert (forall queries target, 0 <= target ->
            interleaveQueries this queries target =
            take (Z.to_nat target)
              (filter is_truthy (concat (chunk chunkSize queries <$> seq 0 sourceCount))))
    as Hgeneral.
  { intros queries target Ht. rewrite concat_chunks.
    apply interleaveQueries_spec; [done|fold sourceCount; lia|done]. }
  assert (concat (chunk chunkSize input <$> seq 0 sourceCount) = input) as Hwhole.
  { rewrite concat_chunks. by apply take_ge. }
  split_and!.
  - by rewrite Hcollect.
  - subst contributions. by rewrite length_fmap, lookups_length.
  - assert ((1 <? Z.of_nat (length (sources (config this)))) = true) as Hlt.
    { apply Z.ltb_lt. fold sourceCount. lia. }
    unfold arrange. fold all. fold input. by rewrite Hmix, Hlt.
  - done.
  - done.
  - rewrite Hgeneral by lia. rewrite Hwhole, filter_truthy_id by done.
    by rewrite slice0_take by lia.
  - rewrite Hgeneral by lia. rewrite Hwhole, filter_truthy_id by done.
    rewrite length_take. lia.
  - intros -> Hfull j c Hj. by apply chunk_of_full_contributions.
Qed.

Lemma interleave_takes_chunks_in_order_witness :
  let E := answering feed_payload in
  let this := {| config := constructor (capped_config ["reddit"; "wikipedia"] 2);
                 has_logger := true |} in
  let validCount := Z.max 1 (Z.min 3 200) in
  let chunkSize := maxQueriesPerSource (config this) in
  let sourceCount := length (sources (config this)) in
  let contributions :=
    slice0 chunkSize <$> (lookups (E:=E) this (sources (config this)) (initial 0)).1 in
  let all := concat contributions in
  let input := if deduplicate (config this) then new_Set identity all else all in
  (contributions = [[JStr "first reddit headline"; JStr "second reddit headline"];
                    [JStr "Alan Turing"; JStr "Ada Lovelace"]] /\
   interleaveQueries this input validCount =
     [JStr "first reddit headline"; JStr "second reddit headline"; JStr "Alan Turing"]) /\
  ((collect this (getFromSource (E:=E) this) (sources (config this)) [] (initial 0)).1
     = Val all /\
   length contributions = sourceCount /\
   arrange this validCount all = interleaveQueries this input validCount /\
   (forall queries target, 0 <= target ->
      interleaveQueries this queries target =
        take (Z.to_nat target)
          (filter is_truthy (concat (chunk chunkSize queries <$> seq 0 sourceCount)))) /\
   concat (chunk chunkSize input <$> seq 0 sourceCount) = input /\
   interleaveQueries this input validCount =
     slice0 validCount (concat (chunk chunkSize input <$> seq 0 sourceCount)) /\
   length (interleaveQueries this input validCount) =
     Nat.min (length input) (Z.to_nat validCount) /\
   (input = all ->
    Forall (fun c => length c = Z.to_nat chunkSize) contributions ->
    forall j c, contributions !! j = Some c -> chunk chunkSize input j = c)).
Proof.
  split; [split; vm_compute; reflexivity|].
  apply (@interleave_takes_chunks_in_order (answering feed_payload)
           (capped_config ["reddit"; "wikipedia"] 2) true (initial 0) 3).
  - apply reach_initial.
  - reflexivity.
  - simpl. lia.
Defined.

(** C1 as stated fails: a value of a response that is no string reaches
    the batch.  The trends adapter pushes whatever truthy value it finds
    under [title.query]; here it is the number 42, which [fetchQueries]
    returns and caches. *)
Lemma fetchQueries_returns_number :
  let E := answering numeric_trend in
  let this := engine_with_sources ["google-trends"] in
  let run := fetchQueries (E:=E) this 5 (initial 0) in
  run.1 = Val [JNum (of_Z 42)] /\
  queries <$> (cache run.2 !! "google-trends") = Some [JNum (of_Z 42)] /\
  ~ is_text (JNum (of_Z 42)) /\
  ~ (exists l, run.1 = Val l /\ Forall is_text l).
Proof.
  assert ((fetchQueries (E:=answering numeric_trend) (engine_with_sources ["google-trends"])
             5 (initial 0)).1 = Val [JNum (of_Z 42)]) as Hrun.
  { vm_compute. reflexivity. }
  assert (~ is_text (JNum (of_Z 42))) as Hnum.
  { by intros (s & Hs & _). }
  cbv zeta. split_and!.
  - exact Hrun.
  - vm_compute. reflexivity.
  - exact Hnum.
  - intros (l & Hl & Htext). rewrite Hrun in Hl. simplify_eq.
    by apply Forall_cons in Htext as [Htext _].
Qed.
